(** * Leaflet Routing Machine: a shallow embedding of the waypoint plan,
      the routing control, the OSRM v1 route client and the text-instruction
      formatter, with the properties checked against the specification.

    Sources embedded here:
    - [src/plan.ts]                        (module [PlanTs])
    - [dist/leaflet-routing-machine.js]    (modules [PlanDist], [Control],
                                            [Polyline], [OSRMv1], [TextInstructions])

    JavaScript numbers that the code uses as indices, counters and integer
    degrees are modelled as [Z]; the numbers of the polyline codec are
    doubles, modelled as the rationals they stand for ([JS.double]);
    [undefined] is modelled with [option];
    a thrown exception is modelled by the [None] result of a function whose
    doc comment says so. *)

From Stdlib Require Import ZArith List String Ascii Bool Lia QArith Qabs Qround Qpower Lqa.
From stdpp Require Import base option list strings gmap.

Local Open Scope string_scope.
Local Open Scope list_scope.
Local Open Scope Z_scope.

(** ** JavaScript primitives shared by the components *)

Module JS.

(** [Array.prototype.splice(start, deleteCount, ...items)] on the array [l]:
    the array after the call.  [start] is taken relative to the end when it is
    negative and clamped to the array; [deleteCount] is clamped to
    [0 .. len - actualStart] (ECMAScript, [Array.prototype.splice] steps 3-9). *)
Definition splice {A : Type} (l : list A) (start deleteCount : Z) (items : list A) : list A :=
  let len := Z.of_nat (length l) in
  let actualStart := if start <? 0 then Z.max (len + start) 0 else Z.min start len in
  let actualDeleteCount := Z.min (Z.max deleteCount 0) (len - actualStart) in
  take (Z.to_nat actualStart) l ++ items
    ++ drop (Z.to_nat (actualStart + actualDeleteCount)) l.

(** [ToIntegerOrInfinity] of an argument that may be [undefined]. *)
Definition toInteger (a : option Z) : Z :=
  match a with
  | Some z => z
  | None => 0
  end.

(** Truthiness of a number that may be [undefined]. *)
Definition truthy_number (a : option Z) : bool :=
  match a with
  | Some z => negb (z =? 0)
  | None => false
  end.

(** Truthiness of a string that may be [undefined]. *)
Definition truthy_string (a : option string) : bool :=
  match a with
  | Some s => negb (String.eqb s "")
  | None => false
  end.

(** [ToInt32]: the wrap-around of the 32-bit bit operators. *)
Definition toInt32 (z : Z) : Z := (z + 2 ^ 31) mod 2 ^ 32 - 2 ^ 31.

(** [c.toUpperCase()] of a code unit in the ASCII range: the letters a to z
    are raised and the other code units kept.  Beyond ASCII, where Unicode
    raises some code units to another and some to two, the function keeps
    the code unit, which [toUpperCase] does not always do. *)
Definition toUpperCase_ascii (c : ascii) : ascii :=
  let n := nat_of_ascii c in
  if ((97 <=? n) && (n <=? 122))%nat then ascii_of_nat (n - 32) else c.

(** [s.charAt(0).toUpperCase() + s.substring(1)] *)
Definition upperFirst (s : string) : string :=
  match s with
  | EmptyString => EmptyString
  | String c rest => String (toUpperCase_ascii c) rest
  end.

(** [Math.round(x)]: the whole number nearest to [x], the greater one of two
    that are equally near. *)
Definition round (x : Q) : Z := Qfloor (x + (1 # 2)).

(** The Number type.  A finite Number is a binary64 floating-point number
    (IEEE 754), here the rational it stands for; an operation of the language
    gives the double nearest to the exact result, the one with the even
    significand of two that are equally near.  [double x] is that double for
    the exact result [x]: a whole multiple of [2^q], where [q] is 52 below the
    exponent of the binade of [x], and not below that of the least normal
    double.  Beyond the largest double (about 1.8e308) the language has
    [Infinity]; [double] has no such value, and the statements made with it
    keep to numbers far below. *)
Definition pow2 (k : Z) : Q := (2 ^ k)%Q.

(** The exponent of the binade of [x]: the greatest [k] with [2^k <= |x|]. *)
Definition ilog2 (x : Q) : Z :=
  let n := Z.abs (Qnum x) in
  let d := Zpos (Qden x) in
  let k := Z.log2 n - Z.log2 d in
  if 2 ^ Z.log2 n * d <=? n * 2 ^ Z.log2 d then k else k - 1.

Definition round_half_even (x : Q) : Z :=
  let f := Qfloor x in
  match Qcompare (x - inject_Z f) (1 # 2) with
  | Lt => f
  | Gt => f + 1
  | Eq => if Z.even f then f else f + 1
  end.

Definition double (x : Q) : Q :=
  if Qeq_bool x 0 then 0%Q
  else
    let q := Z.max (ilog2 x) (-1022) - 52 in
    Qred (inject_Z (round_half_even (x * pow2 (- q))) * pow2 q).

(** The double nearest to a whole number, a whole number as well: what adding
    or subtracting two doubles that are whole numbers gives for their exact
    sum or difference [z]. *)
Definition whole (z : Z) : Z := Qfloor (double (inject_Z z)).

(** [Math.pow(10, y)] for a whole number [y], as the double nearest to the
    power (the language leaves the accuracy of [Math.pow] to the engine; the
    powers of ten from 10^0 to 10^22 are doubles themselves). *)
Definition pow10 (y : Z) : Q := double (10 ^ y)%Q.

(** [String(n)] for a whole number [n] (below 10^21 in absolute value, from
    where on JavaScript writes an exponent): its decimal digits, after a minus
    sign when it is negative.  [digits] writes the digits of a number that is
    not negative in front of [acc], the last digit first; a number has at most
    as many decimal digits as binary ones, which bounds the rounds. *)
Definition digit (d : Z) : ascii := ascii_of_nat (48 + Z.to_nat d).

Fixpoint digits (rounds : nat) (n : Z) (acc : string) : string :=
  match rounds with
  | O => acc
  | S r =>
      let acc := String (digit (n mod 10)) acc in
      if n <? 10 then acc else digits r (n / 10) acc
  end.

Definition toString (n : Z) : string :=
  if n <? 0 then String "-" (digits (S (Z.to_nat (Z.log2 (- n)))) (- n) EmptyString)
  else digits (S (Z.to_nat (Z.log2 n))) n EmptyString.

(** [array.splice(start, deleteCount)]'s answer: the elements removed. *)
Definition spliced {A : Type} (l : list A) (start deleteCount : Z) : list A :=
  let len := Z.of_nat (length l) in
  let actualStart := if start <? 0 then Z.max (len + start) 0 else Z.min start len in
  let actualDeleteCount := Z.min (Z.max deleteCount 0) (len - actualStart) in
  take (Z.to_nat actualDeleteCount) (drop (Z.to_nat actualStart) l).


End JS.

(** ** Waypoints *)

Record LatLng := mkLatLng { lat : Q; lng : Q }.

Record Waypoint := mkWaypoint {
  latLng : option LatLng;
  name : option string;
  allowUTurn : bool
}.

Record Marker := mkMarker { marker_latLng : option LatLng; marker_draggable : bool }.

(** The waypoint that [new Waypoint(null)] / [new Waypoint()] builds in the
    bundle: [L.latLng(null)] is no position, the name is [undefined]. *)
Definition emptyWaypoint : Waypoint :=
  {| latLng := None; name := None; allowUTurn := false |}.

(** ** The plan of [src/plan.ts] *)

Module PlanTs.

Inductive PlanEvent :=
| waypointschanged (waypoints : list Waypoint)
| waypointsspliced (index : Z) (nRemoved : option Z) (added : list Waypoint).

Record PlanOptions := mkOptions {
  draggableWaypoints : bool;
  routeWhileDragging : bool
}.

Record Plan := mkPlan {
  options : PlanOptions;
  waypoints : list Waypoint;
  _map : bool;                 (* is the layer on a map *)
  markers : list Marker;
  fired : list PlanEvent       (* events fired so far, oldest first *)
}.

Definition set_waypoints (p : Plan) (w : list Waypoint) : Plan :=
  {| options := options p; waypoints := w; _map := _map p;
     markers := markers p; fired := fired p |}.

Definition set_markers (p : Plan) (m : list Marker) : Plan :=
  {| options := options p; waypoints := waypoints p; _map := _map p;
     markers := m; fired := fired p |}.

Definition fire (p : Plan) (e : PlanEvent) : Plan :=
  {| options := options p; waypoints := waypoints p; _map := _map p;
     markers := markers p; fired := fired p ++ [e] |}.

(** [defaultOptions.createMarker] *)
Definition createMarker (p : Plan) (waypoint : Waypoint) : Marker :=
  {| marker_latLng := latLng waypoint;
     marker_draggable := draggableWaypoints (options p) |}.

(** [updateMarkers]: nothing without a map; otherwise every marker is removed
    and one is created for each waypoint that has a position. *)
Definition updateMarkers (p : Plan) : Plan :=
  if _map p then
    set_markers p
      (map (createMarker p) (filter (fun w => is_Some (latLng w)) (waypoints p)))
  else p.

(** [getWaypoints]: a copy of the list. *)
Definition getWaypoints (p : Plan) : list Waypoint := waypoints p.

(** [fireChanged(startIndex?, deleteCount?, ...newWaypoints)] *)
Definition fireChanged (p : Plan) (startIndex deleteCount : option Z)
    (newWaypoints : list Waypoint) : Plan :=
  let p1 := fire p (waypointschanged (getWaypoints p)) in
  match startIndex with
  | Some i => if JS.truthy_number startIndex
              then fire p1 (waypointsspliced i deleteCount newWaypoints)
              else p1
  | None => p1
  end.

(** [spliceWaypoints(startIndex, deleteCount = 0, ...newWaypoints)].

    The body calls itself inside its [while] loop, so the embedding counts
    calls: [fuel] bounds the number of nested and repeated calls, and [None]
    means the bound was reached before the call returned.  [enforce] is the
    loop [while (this.waypoints.length < 2) this.spliceWaypoints(this.waypoints.length, 0)]. *)
Fixpoint spliceWaypoints (fuel : nat) (p : Plan) (startIndex deleteCount : Z)
    (newWaypoints : list Waypoint) {struct fuel} : option Plan :=
  match fuel with
  | O => None
  | S f =>
      let p1 := set_waypoints p (JS.splice (waypoints p) startIndex deleteCount newWaypoints) in
      match enforce f p1 with
      | None => None
      | Some p2 =>
          Some (fireChanged (updateMarkers p2) (Some startIndex) (Some deleteCount) newWaypoints)
      end
  end
with enforce (fuel : nat) (p : Plan) {struct fuel} : option Plan :=
  if (length (waypoints p) <? 2)%nat then
    match fuel with
    | O => None
    | S f =>
        match spliceWaypoints f p (Z.of_nat (length (waypoints p))) 0 [] with
        | None => None
        | Some p' => enforce f p'
        end
    end
  else Some p.

(** [setWaypoints(waypoints)] *)
Definition setWaypoints (fuel : nat) (p : Plan) (w : list Waypoint) : option Plan :=
  spliceWaypoints fuel p 0 (Z.of_nat (length (waypoints p))) w.

(** The handler of the add button of [createGeocoders]:
    [this.spliceWaypoints(this.waypoints.length, 0)] *)
Definition addWaypoint (fuel : nat) (p : Plan) : option Plan :=
  spliceWaypoints fuel p (Z.of_nat (length (waypoints p))) 0 [].


End PlanTs.

(** ** The plan of the bundle ([dist/leaflet-routing-machine.js], module 16) *)

Module PlanDist.

(** What [spliceWaypoints] is handed after the two numbers: a waypoint object
    (it has an own [latLng] property) or anything else, which goes through
    [new Waypoint(x)]; [ItemLatLng None] is [null] or [undefined]. *)
Inductive Item :=
| ItemWaypoint (w : Waypoint)
| ItemLatLng (ll : option LatLng).

(** An element of the [args] array handed on to [_fireChanged]. *)
Inductive Arg :=
| ArgNumber (n : option Z)
| ArgWaypoint (w : Waypoint).

Inductive PlanEvent :=
| waypointschanged (waypoints : list Waypoint)
| waypointsspliced (index nRemoved : Arg) (added : list Arg).

Record Plan := mkPlan {
  draggableWaypoints : bool;
  _waypoints : list Waypoint;
  _map : bool;
  _markers : list (option Marker);
  fired : list PlanEvent
}.

Definition set_waypoints (p : Plan) (w : list Waypoint) : Plan :=
  {| draggableWaypoints := draggableWaypoints p; _waypoints := w; _map := _map p;
     _markers := _markers p; fired := fired p |}.

Definition set_markers (p : Plan) (m : list (option Marker)) : Plan :=
  {| draggableWaypoints := draggableWaypoints p; _waypoints := _waypoints p;
     _map := _map p; _markers := m; fired := fired p |}.

Definition fire (p : Plan) (e : PlanEvent) : Plan :=
  {| draggableWaypoints := draggableWaypoints p; _waypoints := _waypoints p;
     _map := _map p; _markers := _markers p; fired := fired p ++ [e] |}.

(** [arguments[i] && arguments[i].hasOwnProperty('latLng') ? arguments[i]
     : new Waypoint(arguments[i])] *)
Definition toWaypoint (i : Item) : Waypoint :=
  match i with
  | ItemWaypoint w => w
  | ItemLatLng ll => {| latLng := ll; name := None; allowUTurn := false |}
  end.

(** [_updateMarkers]: one entry per waypoint, [null] where it has no position. *)
Definition _updateMarkers (p : Plan) : Plan :=
  if _map p then
    set_markers p
      (map (fun w => match latLng w with
                     | Some ll => Some {| marker_latLng := Some ll;
                                          marker_draggable := draggableWaypoints p |}
                     | None => None
                     end) (_waypoints p))
  else p.

Definition getWaypoints (p : Plan) : list Waypoint := _waypoints p.

(** [_fireChanged]: the spliced event is fired when at least two arguments
    were passed ([arguments.length >= 2]). *)
Definition _fireChanged (p : Plan) (arguments : list Arg) : Plan :=
  let p1 := fire p (waypointschanged (getWaypoints p)) in
  match arguments with
  | index :: nRemoved :: added => fire p1 (waypointsspliced index nRemoved added)
  | _ => p1
  end.

(** [spliceWaypoints()], reading [arguments[0]], [arguments[1]] and the rest.
    [fuel] counts calls as in [PlanTs.spliceWaypoints]; the loop is
    [while (this._waypoints.length < 2) this.spliceWaypoints(this._waypoints.length, 0, null)]. *)
Fixpoint spliceWaypoints (fuel : nat) (p : Plan) (arg0 arg1 : option Z)
    (rest : list Item) {struct fuel} : option Plan :=
  match fuel with
  | O => None
  | S f =>
      let added := map toWaypoint rest in
      let args := ArgNumber arg0 :: ArgNumber arg1 :: map ArgWaypoint added in
      let p1 := set_waypoints p
                  (JS.splice (_waypoints p) (JS.toInteger arg0) (JS.toInteger arg1) added) in
      match enforce f p1 with
      | None => None
      | Some p2 => Some (_fireChanged (_updateMarkers p2) args)
      end
  end
with enforce (fuel : nat) (p : Plan) {struct fuel} : option Plan :=
  if (length (_waypoints p) <? 2)%nat then
    match fuel with
    | O => None
    | S f =>
        match spliceWaypoints f p (Some (Z.of_nat (length (_waypoints p)))) (Some 0)
                [ItemLatLng None] with
        | None => None
        | Some p' => enforce f p'
        end
    end
  else Some p.

(** [setWaypoints(waypoints)] *)
Definition setWaypoints (fuel : nat) (p : Plan) (w : list Item) : option Plan :=
  spliceWaypoints fuel p (Some 0) (Some (Z.of_nat (length (_waypoints p)))) w.

(** [isReady()] *)
Definition isReady (p : Plan) : bool :=
  forallb (fun w => match latLng w with Some _ => true | None => false end) (_waypoints p).

(** The handler of the add button of [createGeocoders]:
    [this.spliceWaypoints(waypoints.length, 0, null)], where [waypoints] is
    the array [this._waypoints] itself. *)
Definition addWaypoint (fuel : nat) (p : Plan) : option Plan :=
  spliceWaypoints fuel p (Some (Z.of_nat (length (_waypoints p)))) (Some 0)
    [ItemLatLng None].

(** The handler of the reverse button of [createGeocoders]:
    [this._waypoints.reverse(); this.setWaypoints(this._waypoints);] *)
Definition reverseWaypoints (fuel : nat) (p : Plan) : option Plan :=
  let p := set_waypoints p (reverse (_waypoints p)) in
  setWaypoints fuel p (map ItemWaypoint (_waypoints p)).

(** The handler of [delete] that [_createGeocoder(i)] registers:
    [if (i > 0 || this._waypoints.length > 2) this.spliceWaypoints(i, 1);
     else this.spliceWaypoints(i, 1, new Waypoint());] *)
Definition deleteWaypoint (fuel : nat) (p : Plan) (i : nat) : option Plan :=
  if (0 <? i)%nat || (2 <? length (_waypoints p))%nat
  then spliceWaypoints fuel p (Some (Z.of_nat i)) (Some 1) []
  else spliceWaypoints fuel p (Some (Z.of_nat i)) (Some 1) [ItemWaypoint emptyWaypoint].

(** [this._waypoints[i]]; [None] is [undefined]. *)
Definition waypointAt (p : Plan) (i : Z) : option Waypoint :=
  if i <? 0 then None else _waypoints p !! Z.to_nat i.

(** What a call of [dragNewWaypoint(e)] that returns leaves behind.  With
    [options.routeWhileDragging] the plan is spliced at once and
    [_hookWaypointEvents(marker, newWpIndex, true)] fires [waypointdragstart]
    for the new waypoint (its handlers, which make the waypoint follow the
    mouse, are not embedded).  Otherwise [_dragNewWaypoint] registers its
    [mouseUp] handler for the index and leaves the waypoints alone. *)
Inductive NewWaypointDrag :=
| RoutedAtOnce (p : Plan) (waypointdragstart : Z * option LatLng)
| AwaitingMouseUp (newWpIndex : Z).

(** [dragNewWaypoint(e)], for [options.routeWhileDragging] and the number of
    [options.dragStyles] (with the default [createMarker]); [None] when it
    throws:  [this._map.dragging] of a plan that is on no map, [prevWp.latLng]
    or [nextWp.latLng] of a waypoint that is not there, for the lines drawn
    in the drag styles. *)
Definition dragNewWaypoint (fuel : nat) (routeWhileDragging : bool) (dragStyles : nat)
    (p : Plan) (afterIndex : Z) (latlng : LatLng) : option NewWaypointDrag :=
  let newWpIndex := afterIndex + 1 in
  if routeWhileDragging then
    p' ← spliceWaypoints fuel p (Some newWpIndex) (Some 0) [ItemLatLng (Some latlng)];
    if _map p' then
      wp ← waypointAt p' newWpIndex;
      Some (RoutedAtOnce p' (newWpIndex, latLng wp))
    else None
  else
    if negb (_map p) then None
    else if (0 <? dragStyles)%nat then
      prevWp ← waypointAt p (newWpIndex - 1);
      nextWp ← waypointAt p newWpIndex;
      Some (AwaitingMouseUp newWpIndex)
    else Some (AwaitingMouseUp newWpIndex).

(** The [mouseUp] handler of [_dragNewWaypoint(newWpIndex, initialLatLng)],
    for the event [e] of the release: the layers of the drag are taken off
    the map and [this.spliceWaypoints(newWpIndex, 0, e.latlng)] is called. *)
Definition mouseUp (fuel : nat) (p : Plan) (newWpIndex : Z) (latlng : LatLng)
    : option Plan :=
  if negb (_map p) then None
  else spliceWaypoints fuel p (Some newWpIndex) (Some 0) [ItemLatLng (Some latlng)].


End PlanDist.

(** ** The routing control ([L.Routing.Control], module 4 of the bundle) *)

Module Control.

Section WithRoute.

(** The routes that a router hands back are opaque to the control. *)
Context {Route : Type}.

Record RoutingError := mkError {
  err_type : option string;
  err_status : Z;
  err_message : string
}.

(** The handlers that the control itself passes as [options.callback]. *)
Inductive OptionsCallback :=
| updateLineCallback           (* [_setupRouteDragging] *)
| zoomEndCallback              (* [_onZoomEnd] *)
| userCallback (id : nat).

Record RouteOptions := mkRouteOptions {
  opt_waypoints : option (list Waypoint);
  opt_geometryOnly : bool;
  opt_callback : option OptionsCallback
}.

(** [options || {}] *)
Definition noOptions : RouteOptions :=
  {| opt_waypoints := None; opt_geometryOnly := false; opt_callback := None |}.

(** What the control does to the outside: events fired, layers cleared,
    requests aborted, handlers called. *)
Inductive Effect :=
| AbortRequest (ts : Z)
| Fire_routingstart (wps : list Waypoint)
| CallOptionsCallback (cb : OptionsCallback) (err : option RoutingError)
    (routes : option (list Route))
| ClearLines
| ClearAlts
| Fire_routingerror (err : RoutingError)
| Fire_routesfound (wps : list Waypoint) (routes : list (nat * Route))
| SetAlternatives (routes : list (nat * Route))
| RouteSelected (route : option (nat * Route)) (alternatives : list (nat * Route)).

Record State := mkState {
  _requestCount : Z;
  _pendingRequest : option Z;     (* the handle of the request in flight *)
  router_abortable : bool;        (* does the router's handle have [abort] *)
  _plan : list Waypoint;
  effects : list Effect           (* oldest first *)
}.

(** The closure handed to [this._router.route]: it captures [ts], [wps] and
    [options]. *)
Record Request := mkRequest {
  ts : Z;
  wps : list Waypoint;
  options : RouteOptions
}.

Inductive Outcome := Returned | Thrown.

Definition emit (st : State) (e : list Effect) : State :=
  {| _requestCount := _requestCount st; _pendingRequest := _pendingRequest st;
     router_abortable := router_abortable st; _plan := _plan st;
     effects := effects st ++ e |}.

Definition set_pending (st : State) (h : option Z) : State :=
  {| _requestCount := _requestCount st; _pendingRequest := h;
     router_abortable := router_abortable st; _plan := _plan st;
     effects := effects st |}.

Definition set_count (st : State) (n : Z) : State :=
  {| _requestCount := n; _pendingRequest := _pendingRequest st;
     router_abortable := router_abortable st; _plan := _plan st;
     effects := effects st |}.

Definition set_plan (st : State) (w : list Waypoint) : State :=
  {| _requestCount := _requestCount st; _pendingRequest := _pendingRequest st;
     router_abortable := router_abortable st; _plan := w;
     effects := effects st |}.

(** [this._plan.isReady()] *)
Definition isReady (w : list Waypoint) : bool :=
  forallb (fun x => match latLng x with Some _ => true | None => false end) w.

(** [route(options)]: the new state and, when the plan is ready, the request
    handed to the router.  (The zoom level that [useZoomParameter] copies into
    the options only travels on to the router and is left out.) *)
Definition route (st : State) (opts : option RouteOptions) : State * option Request :=
  let ts := _requestCount st + 1 in
  let st := set_count st ts in
  let st := match _pendingRequest st with
            | Some h => if router_abortable st
                        then set_pending (emit st [AbortRequest h]) None
                        else st
            | None => st
            end in
  let options := match opts with Some o => o | None => noOptions end in
  if isReady (_plan st) then
    let wps := match opt_waypoints options with
               | Some w => w
               | None => _plan st
               end in
    let st := emit st [Fire_routingstart wps] in
    (set_pending st (Some ts), Some {| ts := ts; wps := wps; options := options |})
  else (st, None).

(** [routes.forEach(function(route, i) { route.routesIndex = i; })] *)
Definition withRoutesIndex (routes : list Route) : list (nat * Route) :=
  imap (fun i r => (i, r)) routes.

(** The callback that [route] passes to the router, for the request [r],
    called with [(err, routes)]. *)
Definition callback (r : Request) (err : option RoutingError)
    (routes : option (list Route)) (st : State) : State * Outcome :=
  let st := set_pending st None in
  match opt_callback (options r) with
  | Some cb => (emit st [CallOptionsCallback cb err routes], Returned)
  | None =>
      if ts r =? _requestCount st then
        let st := emit st [ClearLines; ClearAlts] in
        let is_error := match err with
                        | Some e => negb (bool_decide (err_type e = Some "abort"))
                        | None => false
                        end in
        match err, is_error with
        | Some e, true => (emit st [Fire_routingerror e], Returned)
        | _, _ =>
            match routes with
            | None => (st, Thrown)          (* [routes.forEach] on [undefined] *)
            | Some routes =>
                let routes := withRoutesIndex routes in
                if negb (opt_geometryOnly (options r)) then
                  (emit st [Fire_routesfound (wps r) routes; SetAlternatives routes],
                   Returned)
                else
                  (emit st [RouteSelected (head routes) (tail routes)], Returned)
            end
        end
      else (st, Returned)
  end.

(** What happens to a control over time: [route] is called, the plan
    changes, or the router answers one of the requests. *)
Inductive Action :=
| DoRoute (opts : option RouteOptions)
| PlanChanged (w : list Waypoint)
| Resolve (r : Request) (err : option RoutingError) (routes : option (list Route)).

Definition step (st : State) (a : Action) : State :=
  match a with
  | DoRoute opts => fst (route st opts)
  | PlanChanged w => set_plan st w
  | Resolve r err routes => fst (callback r err routes st)
  end.

Definition run (st : State) (tr : list Action) : State := fold_left step tr st.

Definition isDoRoute (a : Action) : bool :=
  match a with DoRoute _ => true | _ => false end.

(** The handler of [linetouched] that [_hookAltEvents] registers on the line
    of an alternative: [var alts = this._routes.slice(); var selected =
    alts.splice(e.target._route.routesIndex, 1)[0];], the route and the
    alternatives of the [routeselected] event that it fires. *)
Definition altLineTouched (routes : list Route) (routesIndex : Z)
    : option Route * list Route :=
  (head (JS.spliced routes routesIndex 1), JS.splice routes routesIndex 1 []).

End WithRoute.

Arguments RouteOptions : clear implicits.
Arguments Effect : clear implicits.
Arguments State : clear implicits.
Arguments Action : clear implicits.

End Control.

(** ** The polyline codec ([@mapbox/polyline], module 2 of the bundle) *)

Module Polyline.

Definition charCode (c : ascii) : Z := Z.of_nat (nat_of_ascii c).

(** One [do { ... } while (byte >= 0x20)] loop of [decode]: the value read and
    the rest of the string.  Past the end of the string [charCodeAt] is [NaN],
    which adds no bits and ends the loop. *)
Fixpoint read_chunk (s : string) (shift result : Z) : Z * string :=
  match s with
  | EmptyString => (result, EmptyString)
  | String c rest =>
      let byte := charCode c - 63 in
      let result :=
        JS.toInt32 (Z.lor result (JS.toInt32 (Z.shiftl (Z.land byte 31) (shift mod 32)))) in
      if byte >=? 32 then read_chunk rest (shift + 5) result else (result, rest)
  end.

(** [(result & 1) ? ~(result >> 1) : (result >> 1)] *)
Definition change (result : Z) : Z :=
  if Z.land result 1 =? 0 then Z.shiftr result 1 else Z.lnot (Z.shiftr result 1).

(** The [while (index < str.length)] loop; every round consumes at least one
    character, so the length of the string bounds the number of rounds. *)
Fixpoint decode_loop (rounds : nat) (s : string) (lat lng : Z) : list (Z * Z) :=
  match rounds with
  | O => []
  | S n =>
      match s with
      | EmptyString => []
      | _ =>
          let '(r1, s1) := read_chunk s 0 0 in
          let '(r2, s2) := read_chunk s1 0 0 in
          let lat := JS.whole (lat + change r1) in
          let lng := JS.whole (lng + change r2) in
          (lat, lng) :: decode_loop n s2 lat lng
      end
  end.

(** [Math.pow(10, precision || 5)], for a precision that is a whole number
    from -323 to 308, where the power of ten is a double that is neither zero
    nor [Infinity]. *)
Definition factor (precision : Z) : Q :=
  JS.pow10 (if precision =? 0 then 5 else precision).

(** [polyline.decode(str, precision)]: the pairs [[lat / factor, lng / factor]],
    each quotient a double. *)
Definition decode (str : string) (precision : Z) : list (Q * Q) :=
  map (fun '(a, b) => (JS.double (inject_Z a / factor precision),
                       JS.double (inject_Z b / factor precision)))
      (decode_loop (String.length str) str 0 0).

(** [py2_round(value)]: [Math.floor(Math.abs(value) + 0.5) * Math.sign(value)];
    the sum is a double, its floor and the sign are whole numbers and their
    product is exact. *)
Definition py2_round (value : Q) : Z :=
  Qfloor (JS.double (Qabs value + (1 # 2))) * Z.sgn (Qnum value).

(** [String.fromCharCode(n)].  A code unit above 255 has no counterpart among
    the 8-bit characters of [string] and is kept modulo 256; [encode] makes
    such a code unit only from a negative [coordinate], which takes a
    difference of scaled coordinates of 2^30 or more. *)
Definition fromCharCode (n : Z) : ascii := ascii_of_nat (Z.to_nat (n mod 65536)).

(** The loop [while (coordinate >= 0x20) { ...; coordinate >>= 5; }] of
    [encode] and the character added after it.  [coordinate] is a 32-bit
    integer, so the loop makes at most six rounds; [rounds] bounds them. *)
Fixpoint encode_chunks (rounds : nat) (coordinate : Z) : string :=
  if coordinate >=? 32 then
    match rounds with
    | O => EmptyString
    | S n =>
        String (fromCharCode (Z.lor 32 (Z.land coordinate 31) + 63))
               (encode_chunks n (Z.shiftr coordinate 5))
    end
  else String (fromCharCode (coordinate + 63)) EmptyString.

(** [encode(current, previous, factor)], the function of the module that
    encodes one number as its difference to the one before. *)
Definition encode_number (current previous factor : Q) : string :=
  let current := py2_round (JS.double (current * factor)) in
  let previous := py2_round (JS.double (previous * factor)) in
  let difference := JS.whole (current - previous) in
  let coordinate := JS.toInt32 (Z.shiftl (JS.toInt32 difference) 1) in
  let coordinate := if difference <? 0 then Z.lnot coordinate else coordinate in
  encode_chunks 7 coordinate.

(** The loop [for (var i = 1; i < coordinates.length; i++)] of
    [polyline.encode]; [b] is [coordinates[i - 1]]. *)
Fixpoint encode_rest (factor : Q) (b : Q * Q) (coordinates : list (Q * Q)) : string :=
  match coordinates with
  | [] => EmptyString
  | a :: rest =>
      encode_number (fst a) (fst b) factor
        +:+ encode_number (snd a) (snd b) factor
        +:+ encode_rest factor a rest
  end.

(** [polyline.encode(coordinates, precision)] *)
Definition encode (coordinates : list (Q * Q)) (precision : Z) : string :=
  match coordinates with
  | [] => EmptyString
  | c0 :: rest =>
      let factor := factor precision in
      encode_number (fst c0) 0 factor +:+ encode_number (snd c0) 0 factor
        +:+ encode_rest factor c0 rest
  end.


End Polyline.

(** ** Compass points *)

Inductive Compass :=
| north | northeast | east | southeast | south | southwest | west | northwest.

#[global] Instance Compass_eq_dec : EqDecision Compass.
Proof. solve_decision. Defined.

(** The keys ['N'], ['NE'], ... under which the route client names them. *)
Definition abbreviation (c : Compass) : string :=
  match c with
  | north => "N" | northeast => "NE" | east => "E" | southeast => "SE"
  | south => "S" | southwest => "SW" | west => "W" | northwest => "NW"
  end.

(** ** The OSRM v1 route client ([L.Routing.OSRMv1], module 15 of the bundle) *)

Module OSRMv1.

(** A scalar of the parsed JSON response, or [undefined] for a missing field. *)
Inductive JsValue :=
| JsUndefined
| JsNull
| JsBoolean (b : bool)
| JsNumber (q : Q)
| JsString (s : string).

Record Maneuver := mkManeuver {
  type : string;
  modifier : option string;
  bearing_after : option Z;
  exit : option Z
}.

Record Step := mkStep {
  geometry : string;
  maneuver : Maneuver;
  step_distance : Q;
  step_duration : Q;
  step_name : option string;
  step_mode : option string
}.

Record Leg := mkLeg {
  summary : option string;
  steps : list Step
}.

Record ResponseRoute := mkResponseRoute {
  distance : Q;
  duration : Q;
  legs : list Leg;
  route_geometry : option string
}.

Record Via := mkVia {
  location : Q * Q;          (* [lng, lat] *)
  hint : JsValue
}.

(** The parsed response; [waypoints] and [routes] may be missing. *)
Record ServiceResponse := mkServiceResponse {
  code : JsValue;
  resp_waypoints : option (list Via);
  routes : option (list ResponseRoute)
}.

Record Instruction := mkInstruction {
  i_type : string;
  i_distance : Q;
  i_time : Q;
  i_road : option string;
  i_direction : option Compass;
  i_exit : option Z;
  i_index : nat;
  i_mode : option string;
  i_modifier : option string;
  i_text : string
}.

Record Route := mkRoute {
  r_name : string;
  coordinates : list LatLng;
  instructions : list Instruction;
  totalDistance : Q;
  totalTime : Q;
  waypointIndices : option (list nat);      (* set only when there are steps *)
  inputWaypoints : list Waypoint;
  actualWaypoints : list Waypoint;
  isSimplified : bool
}.

(** [_bearingToDirection]: [Math.round(bearing / 45) % 8] indexes the array of
    the eight points.  For a whole number of degrees [Math.round(b / 45)] is
    [floor((2 b + 45) / 90)]; [%] keeps the sign of the dividend, and an index
    outside the array gives [undefined]. *)
Definition _bearingToDirection (bearing : option Z) : option Compass :=
  match bearing with
  | None => None
  | Some b =>
      let oct := Z.rem ((2 * b + 45) / 90) 8 in
      if oct <? 0 then None
      else nth_error [north; northeast; east; southeast; south; southwest; west; northwest]
             (Z.to_nat oct)
  end.

(** [s.split(' ')] *)
Fixpoint split_spaces (s : string) (word : string) : list string :=
  match s with
  | EmptyString => [word]
  | String c rest =>
      if Ascii.eqb c " "%char then word :: split_spaces rest EmptyString
      else split_spaces rest (word +:+ String c EmptyString)
  end.

(** [_camelCase] *)
Definition _camelCase (s : string) : string :=
  fold_left (fun result w => result +:+ JS.upperFirst w) (split_spaces s EmptyString)
            EmptyString.

(** [d.indexOf('left') >= 0] *)
Fixpoint contains_left (d : string) : bool :=
  match d with
  | EmptyString => false
  | String _ rest => String.prefix "left" d || contains_left rest
  end.

(** [_leftOrRight] *)
Definition _leftOrRight (d : string) : string :=
  if contains_left d then "Left" else "Right".

(** The cases ['merge'], ['fork'], ['on ramp'], ['off ramp'], ['end of road']
    of the two [switch] statements. *)
Definition is_ramp_like (t : string) : bool :=
  String.eqb t "merge" || String.eqb t "fork" || String.eqb t "on ramp"
  || String.eqb t "off ramp" || String.eqb t "end of road".

(** [_maneuverToInstructionType]; [None] when it throws (a missing modifier
    reaches [_camelCase]). *)
Definition _maneuverToInstructionType (m : Maneuver) (lastLeg : bool) : option string :=
  if String.eqb (type m) "new name" then Some "Continue"
  else if String.eqb (type m) "depart" then Some "Head"
  else if String.eqb (type m) "arrive" then
    Some (if lastLeg then "DestinationReached" else "WaypointReached")
  else if String.eqb (type m) "roundabout" || String.eqb (type m) "rotary" then
    Some "Roundabout"
  else if is_ramp_like (type m) then Some (_camelCase (type m))
  else _camelCase <$> modifier m.

(** [_maneuverToModifier]: [None] when it throws ([_leftOrRight] of a missing
    modifier), otherwise the possibly [undefined] result. *)
Definition _maneuverToModifier (m : Maneuver) : option (option string) :=
  if is_ramp_like (type m) then
    match modifier m with
    | None => None
    | Some d => Some (Some (_camelCase (_leftOrRight d)))
    end
  else Some (_camelCase <$> modifier m).

Section Converting.

(** [this.options.polylinePrecision] and the function that renders a step:
    [this.options.stepToText] or the text-instruction compiler bound to the
    configured language; [None] when it throws. *)
Variable polylinePrecision : Z.
Variable stepToText : Step -> nat -> nat -> option string.

(** [_decodePolyline] *)
Definition _decodePolyline (routeGeometry : string) : list LatLng :=
  map (fun '(a, b) => {| lat := a; lng := b |})
      (Polyline.decode routeGeometry polylinePrecision).

(** The state of the two loops of [_convertRoute]. *)
Record Acc := mkAcc {
  acc_coordinates : list LatLng;
  acc_instructions : list Instruction;
  acc_waypointIndices : list nat;
  acc_index : nat
}.

(** The body of the inner loop, for step [step] of leg [i]. *)
Definition convertStep (legCount i : nat) (acc : Acc) (step : Step) : option Acc :=
  let geometry := _decodePolyline (geometry step) in
  let coordinates := acc_coordinates acc ++ geometry in
  type ← _maneuverToInstructionType (maneuver step) (bool_decide (i = (legCount - 1)%nat));
  modifier ← _maneuverToModifier (maneuver step);
  text ← stepToText step legCount i;
  let index := acc_index acc in
  let recorded :=
    if negb (String.eqb type "") then
      if (bool_decide (i = 0%nat) && String.eqb (OSRMv1.type (maneuver step)) "depart")
         || String.eqb (OSRMv1.type (maneuver step)) "arrive"
      then acc_waypointIndices acc ++ [index]
      else acc_waypointIndices acc
    else acc_waypointIndices acc in
  let instructions :=
    if negb (String.eqb type "") then
      acc_instructions acc ++
        [{| i_type := type;
            i_distance := step_distance step;
            i_time := step_duration step;
            i_road := step_name step;
            i_direction := _bearingToDirection (bearing_after (maneuver step));
            i_exit := exit (maneuver step);
            i_index := index;
            i_mode := step_mode step;
            i_modifier := modifier;
            i_text := text |}]
    else acc_instructions acc in
  Some {| acc_coordinates := coordinates;
          acc_instructions := instructions;
          acc_waypointIndices := recorded;
          acc_index := (index + length geometry)%nat |}.

Fixpoint convertSteps (legCount i : nat) (acc : Acc) (l : list Step) : option Acc :=
  match l with
  | [] => Some acc
  | step :: l => acc ← convertStep legCount i acc step; convertSteps legCount i acc l
  end.

(** The outer loop, over the legs from leg [i] on. *)
Fixpoint convertLegs (legCount i : nat) (acc : Acc) (l : list Leg) : option Acc :=
  match l with
  | [] => Some acc
  | leg :: l =>
      acc ← convertSteps legCount i acc (steps leg);
      convertLegs legCount (S i) acc l
  end.

(** [leg.summary && leg.summary.charAt(0).toUpperCase() + leg.summary.substring(1)],
    as [Array.prototype.join] prints it. *)
Definition legName (leg : Leg) : string :=
  match summary leg with
  | Some s => JS.upperFirst s
  | None => ""
  end.

Fixpoint join (sep : string) (l : list string) : string :=
  match l with
  | [] => ""
  | [x] => x
  | x :: l => x +:+ sep +:+ join sep l
  end.

(** [_convertRoute]; [None] when it throws.  The fields that [_routeDone]
    fills in afterwards are left empty here. *)
Definition _convertRoute (responseRoute : ResponseRoute) : option Route :=
  match legs responseRoute with
  | [] => None                      (* [responseRoute.legs[0].steps] *)
  | leg0 :: _ =>
      let legCount := length (legs responseRoute) in
      let hasSteps := negb (bool_decide (steps leg0 = [])) in
      acc ← convertLegs legCount 0
              {| acc_coordinates := []; acc_instructions := [];
                 acc_waypointIndices := []; acc_index := 0 |}
              (legs responseRoute);
      coordinates ← (if hasSteps then Some (acc_coordinates acc)
                     else _decodePolyline <$> route_geometry responseRoute);
      Some {| r_name := join ", " (map legName (legs responseRoute));
              coordinates := coordinates;
              instructions := acc_instructions acc;
              totalDistance := distance responseRoute;
              totalTime := duration responseRoute;
              waypointIndices := if hasSteps then Some (acc_waypointIndices acc) else None;
              inputWaypoints := [];
              actualWaypoints := [];
              isSimplified := false |}
  end.

End Converting.

(** *** One call of [route(waypoints, callback, context, options)] *)

Record RoutingOptions := mkRoutingOptions {
  geometryOnly : bool;
  simplifyGeometry : bool
}.

(** What the caller's callback is handed: [(error)] or [(null, routes)]. *)
Inductive CallbackArg :=
| CbError (status : JsValue) (message : option string)
| CbRoutes (alts : list Route).

(** What [JSON.parse(resp.responseText)] makes of the body. *)
Inductive Parsed :=
| SyntaxError (ex : string)
| ParsedNull
| ParsedObject (data : ServiceResponse).

(** What the transport hands to the handler: [(err)] or [(null, resp)]. *)
Inductive Transport :=
| TransportFailed (message : string)
| TransportText (body : Parsed).

Inductive Outcome :=
| Returned
| Thrown (ex : string).

(** The variables that the closures of one call share, the hint table of the
    router, and what has been observed from outside. *)
Record Call := mkCall {
  timedOut : bool;
  timer : bool;                               (* set and neither fired nor cleared *)
  wps : list Waypoint;                        (* the copy of the waypoints *)
  call_options : RoutingOptions;
  _hints : list (LatLng * JsValue);
  invoked : list CallbackArg;                 (* calls of the callback, oldest first *)
  aborted : bool;                             (* [xhr.abort()] was called *)
  uncaught : list string                      (* exceptions that left a handler *)
}.

Section Calling.

Variable polylinePrecision : Z.
Variable stepToText : Step -> nat -> nat -> option string.

(** The caller's callback is any function: [callback_throws a] says whether
    it throws when it is handed [a]. *)
Variable callback_throws : CallbackArg -> option string.

Definition start (waypoints : list Waypoint) (options : RoutingOptions)
    (hints : list (LatLng * JsValue)) : Call :=
  {| timedOut := false; timer := true; wps := waypoints; call_options := options;
     _hints := hints; invoked := []; aborted := false; uncaught := [] |}.

(** [callback.call(context || callback, ...)] *)
Definition invoke (c : Call) (a : CallbackArg) : Call * Outcome :=
  ({| timedOut := timedOut c; timer := timer c; wps := wps c;
      call_options := call_options c; _hints := _hints c;
      invoked := invoked c ++ [a]; aborted := aborted c; uncaught := uncaught c |},
   match callback_throws a with
   | Some ex => Thrown ex
   | None => Returned
   end).

Definition set_hints (c : Call) (h : list (LatLng * JsValue)) : Call :=
  {| timedOut := timedOut c; timer := timer c; wps := wps c;
     call_options := call_options c; _hints := h;
     invoked := invoked c; aborted := aborted c; uncaught := uncaught c |}.

(** [_toWaypoints]; [None] when it throws (more snapped locations than input
    waypoints). *)
Fixpoint _toWaypoints (inputWaypoints : list Waypoint) (vias : list Via)
    : option (list Waypoint) :=
  match vias with
  | [] => Some []
  | via :: vias =>
      match inputWaypoints with
      | [] => None
      | w :: inputWaypoints =>
          rest ← _toWaypoints inputWaypoints vias;
          Some ({| latLng := Some {| lat := snd (location via); lng := fst (location via) |};
                   name := name w; allowUTurn := allowUTurn w |} :: rest)
      end
  end.

(** [_saveHintData]: the table is emptied and then filled from the last
    waypoint to the first; the table so far (in the order of the assignments)
    and whether the loop threw ([waypoints[i]] missing or without a position). *)
Fixpoint saveHints (l : list (Via * option Waypoint)) (hints : list (LatLng * JsValue))
    : list (LatLng * JsValue) * Outcome :=
  match l with
  | [] => (hints, Returned)
  | (via, Some {| latLng := Some loc |}) :: l => saveHints l (hints ++ [(loc, hint via)])
  | _ => (hints, Thrown "TypeError")
  end.

Definition _saveHintData (actualWaypoints : list Via) (waypoints : list Waypoint)
    : list (LatLng * JsValue) * Outcome :=
  saveHints (reverse (imap (fun i via => (via, waypoints !! i)) actualWaypoints)) [].

Fixpoint convertAll (routes : list ResponseRoute) : option (list Route) :=
  match routes with
  | [] => Some []
  | r :: routes =>
      route ← _convertRoute polylinePrecision stepToText r;
      rest ← convertAll routes;
      Some (route :: rest)
  end.

Definition is_Ok (v : JsValue) : bool :=
  match v with
  | JsString s => String.eqb s "Ok"
  | _ => false
  end.

(** The conversions of [_routeDone] up to [_saveHintData]: the snapped
    locations, the waypoints made of them and the converted routes; [None]
    when one of them throws. *)
Definition convertResponse (response : ServiceResponse) (inputWaypoints : list Waypoint)
    : option (list Via * list Waypoint * list Route) :=
  vias ← resp_waypoints response;
  actual ← _toWaypoints inputWaypoints vias;
  routes ← routes response;
  converted ← convertAll routes;
  Some (vias, actual, converted).

(** [_routeDone(response, inputWaypoints, options, callback, context)] *)
Definition _routeDone (response : ServiceResponse) (c : Call) : Call * Outcome :=
  if negb (is_Ok (code response)) then
    invoke c (CbError (code response) None)
  else
    match convertResponse response (wps c) with
    | None => (c, Thrown "TypeError")
    | Some (vias, actual, converted) =>
        let alts :=
          map (fun r =>
                 {| r_name := r_name r; coordinates := coordinates r;
                    instructions := instructions r;
                    totalDistance := totalDistance r; totalTime := totalTime r;
                    waypointIndices := waypointIndices r;
                    inputWaypoints := wps c;
                    actualWaypoints := actual;
                    isSimplified := negb (geometryOnly (call_options c))
                                    || simplifyGeometry (call_options c) |})
              converted in
        match _saveHintData vias (wps c) with
        | (hints, Thrown ex) => (set_hints c hints, Thrown ex)
        | (hints, Returned) => invoke (set_hints c hints) (CbRoutes alts)
        end
    end.

(** The last statement of a handler: an exception of the callback leaves the
    handler. *)
Definition invoke_last (c : Call) (a : CallbackArg) : Call :=
  match invoke c a with
  | (c, Returned) => c
  | (c, Thrown ex) =>
      {| timedOut := timedOut c; timer := timer c; wps := wps c;
         call_options := call_options c; _hints := _hints c;
         invoked := invoked c; aborted := aborted c; uncaught := uncaught c ++ [ex] |}
  end.

(** The function given to [setTimeout]; it runs only while the timer is set. *)
Definition on_timeout (c : Call) : Call :=
  if timer c then
    invoke_last
      {| timedOut := true; timer := false; wps := wps c;
         call_options := call_options c; _hints := _hints c;
         invoked := invoked c; aborted := aborted c; uncaught := uncaught c |}
      (CbError (JsNumber (-1)) (Some "OSRM request timed out."))
  else c.

(** [clearTimeout(timer)] *)
Definition clearTimeout (c : Call) : Call :=
  {| timedOut := timedOut c; timer := false; wps := wps c;
     call_options := call_options c; _hints := _hints c;
     invoked := invoked c; aborted := aborted c; uncaught := uncaught c |}.

(** [xhr.abort()] *)
Definition abort (c : Call) : Call :=
  {| timedOut := timedOut c; timer := timer c; wps := wps c;
     call_options := call_options c; _hints := _hints c;
     invoked := invoked c; aborted := true; uncaught := uncaught c |}.

(** The function given to [corslite]. *)
Definition on_response (t : Transport) (c : Call) : Call :=
  let c := clearTimeout c in
  if negb (timedOut c) then
    match t with
    | TransportText (ParsedObject data) =>
        match _routeDone data c with
        | (c, Returned) => c
        | (c, Thrown ex) => invoke_last c (CbError (JsNumber (-3)) (Some ex))
        end
    | TransportText ParsedNull =>
        invoke_last c (CbError (JsNumber (-3)) (Some "TypeError"))
    | TransportText (SyntaxError ex) =>
        invoke_last c (CbError (JsNumber (-2)) (Some ("Error parsing OSRM response: " +:+ ex)))
    | TransportFailed message =>
        invoke_last c (CbError (JsNumber (-1)) (Some ("HTTP request failed: " +:+ message)))
    end
  else abort c.

(** What can happen after [route] has returned. *)
Inductive Event :=
| TimerFires
| Responds (t : Transport).

Definition handle (c : Call) (e : Event) : Call :=
  match e with
  | TimerFires => on_timeout c
  | Responds t => on_response t c
  end.

Definition execute (c : Call) (events : list Event) : Call := fold_left handle events c.

Definition isResponds (e : Event) : bool :=
  match e with Responds _ => true | TimerFires => false end.

End Calling.

(** *** The hint table between two calls *)

(** [_locationKey] writes the two numbers of a position; two positions have
    the same key when their numbers are the same. *)
Definition same_key (a b : LatLng) : bool :=
  Qeq_bool (lat a) (lat b) && Qeq_bool (lng a) (lng b).

(** [this._hints.locations[this._locationKey(latLng)]]: what was assigned
    last under the key of the position, [undefined] without an assignment. *)
Definition hint_at (hints : list (LatLng * JsValue)) (latLng : LatLng) : JsValue :=
  match last (List.filter (fun e => same_key (fst e) latLng) hints) with
  | Some (_, h) => h
  | None => JsUndefined
  end.

(** Truthiness of a scalar. *)
Definition js_truthy (v : JsValue) : bool :=
  match v with
  | JsUndefined | JsNull => false
  | JsBoolean b => b
  | JsNumber q => negb (Qeq_bool q 0)
  | JsString s => negb (String.eqb s "")
  end.

(** The array [hints] that the loop of [buildRouteUrl] collects for the
    waypoints; [None] when it throws (a waypoint without a position). *)
Fixpoint requestHints (hints : list (LatLng * JsValue)) (waypoints : list Waypoint)
    : option (list JsValue) :=
  match waypoints with
  | [] => Some []
  | wp :: waypoints =>
      latLng ← latLng wp;
      rest ← requestHints hints waypoints;
      let h := hint_at hints latLng in
      Some ((if js_truthy h then h else JsString "") :: rest)
  end.


End OSRMv1.

(** ** The text-instruction compiler ([osrm-text-instructions], modules 18-23
       of the bundle) *)

Module TextInstructions.

(** The language tables are JSON trees. *)
#[local] Unset Elimination Schemes.
Inductive Json :=
| JStr (s : string)
| JObj (fields : list (string * Json)).
#[local] Set Elimination Schemes.

(** [o[key]] on a value that is not [undefined]: the last binding of the key
    counts; a string has none of the keys looked up here. *)
Fixpoint lookup_field (fields : list (string * Json)) (key : string) : option Json :=
  match fields with
  | [] => None
  | (k, v) :: fields =>
      match lookup_field fields key with
      | Some v' => Some v'
      | None => if String.eqb k key then Some v else None
      end
  end.

Definition get (o : Json) (key : string) : option Json :=
  match o with
  | JStr _ => None
  | JObj fields => lookup_field fields key
  end.

(** Property access on a value that may be [undefined]; [None] is the
    [TypeError] of reading a property of [undefined]. *)
Definition prop (o : option Json) (key : string) : option (option Json) :=
  match o with
  | None => None
  | Some o => Some (get o key)
  end.

Definition truthy (v : option Json) : bool :=
  match v with
  | None => false
  | Some (JStr s) => negb (String.eqb s "")
  | Some (JObj _) => true
  end.

(** A language: [instructions[language].meta] and [instructions[language][version]]. *)
Record Language := mkLanguage {
  capitalizeFirstLetter_requested : bool;
  v5 : Json
}.

(** The fields of a step that the parts embedded here read. *)
Record Step := mkStep {
  rotary_name : option string;
  maneuver_exit : option Z;
  lanes : option (list bool)       (* [step.intersections[0].lanes], each [lane.valid] *)
}.

(** [directionFromDegree(language, degree)] for a loaded language, given by
    its [constants.direction] table; [None] when it throws (a degree outside
    0 to 360). *)
Definition directionFromDegree (direction : Compass -> string) (degree : option Z)
    : option string :=
  match degree with
  | None => Some ""
  | Some degree =>
      if (0 <=? degree) && (degree <=? 20) then Some (direction north)
      else if (20 <? degree) && (degree <? 70) then Some (direction northeast)
      else if (70 <=? degree) && (degree <=? 110) then Some (direction east)
      else if (110 <? degree) && (degree <? 160) then Some (direction southeast)
      else if (160 <=? degree) && (degree <=? 200) then Some (direction south)
      else if (200 <? degree) && (degree <? 250) then Some (direction southwest)
      else if (250 <=? degree) && (degree <=? 290) then Some (direction west)
      else if (290 <? degree) && (degree <? 340) then Some (direction northwest)
      else if (340 <=? degree) && (degree <=? 360) then Some (direction north)
      else None
  end.

(** [constants.direction] of [en.json]. *)
Definition direction_en (c : Compass) : string :=
  match c with
  | north => "north" | northeast => "northeast" | east => "east"
  | southeast => "southeast" | south => "south" | southwest => "southwest"
  | west => "west" | northwest => "northwest"
  end.

(** [laneConfig(step)]; [None] when it throws ("No lanes object"). *)
Fixpoint laneRuns (lanes : list bool) (currentLaneValidity : option bool) : string :=
  match lanes with
  | [] => ""
  | valid :: lanes =>
      if bool_decide (currentLaneValidity = Some valid) then laneRuns lanes currentLaneValidity
      else String (if valid then "o" else "x")%char (laneRuns lanes (Some valid))
  end.

Definition laneConfig (step : Step) : option string :=
  match lanes step with
  | None => None
  | Some l => Some (laneRuns l None)
  end.

(** The [switch (type)] of [compile], entered with the instruction object
    chosen so far: the instruction object and the lane instruction after it.
    [table] is [instructions[language][version]]; [None] when it throws. *)
Definition compile_switch (table : Json) (type : string) (step : Step)
    (instructionObject : option Json) : option (option Json * option Json) :=
  if String.eqb type "use lane" then
    config ← laneConfig step;
    constants_lanes ← get table "constants" ≫= (fun c => get c "lanes");
    let laneInstruction := get constants_lanes config in
    if negb (truthy laneInstruction) then
      no_lanes ← prop (get table "use lane") "no_lanes";
      Some (no_lanes, laneInstruction)
    else Some (instructionObject, laneInstruction)
  else if String.eqb type "rotary" || String.eqb type "roundabout" then
    name_exit ← prop instructionObject "name_exit";
    if JS.truthy_string (rotary_name step) && JS.truthy_number (maneuver_exit step)
       && truthy name_exit
    then Some (name_exit, None)
    else
      name ← prop instructionObject "name";
      if JS.truthy_string (rotary_name step) && truthy name
      then Some (name, None)
      else
        exit ← prop instructionObject "exit";
        if JS.truthy_number (maneuver_exit step) && truthy exit
        then Some (exit, None)
        else
          default ← prop instructionObject "default";
          Some (default, None)
  else Some (instructionObject, None).

(** [grammarize(language, name, grammar)]: the bundle is built with the empty
    [grammars] table, so no rule list is ever found and the name comes back. *)
Definition grammarize (language : string) (name : string) (grammar : option string)
    : string := name.

(** [\w] *)
Definition is_word_char (c : ascii) : bool :=
  let n := nat_of_ascii c in
  (((48 <=? n) && (n <=? 57)) || ((65 <=? n) && (n <=? 90)) || (n =? 95)
   || ((97 <=? n) && (n <=? 122)))%nat.

(** The longest run of word characters at the start of [s], and what follows. *)
Fixpoint span_word (s : string) : string * string :=
  match s with
  | EmptyString => (EmptyString, EmptyString)
  | String c rest =>
      if is_word_char c then
        let '(w, rest') := span_word rest in (String c w, rest')
      else (EmptyString, s)
  end.

(** A match of [/\{(\w+)(?::(\w+))?\}/] at the start of [s]: the tag, the
    grammar and the length of the match. *)
Definition match_token (s : string) : option (string * option string * nat) :=
  match s with
  | String "{" r =>
      let '(tag, r1) := span_word r in
      if String.eqb tag "" then None
      else
        match r1 with
        | String "}" _ => Some (tag, None, (2 + String.length tag)%nat)
        | String ":" r2 =>
            let '(grammar, r3) := span_word r2 in
            if String.eqb grammar "" then None
            else
              match r3 with
              | String "}" _ =>
                  Some (tag, Some grammar,
                        (3 + String.length tag + String.length grammar)%nat)
              | _ => None
              end
        | _ => None
        end
  | _ => None
  end.

(** [.replace(/ {2}/g, ' ')] *)
Fixpoint collapse_spaces (s : string) : string :=
  match s with
  | String " " (String " " rest) => String " " (collapse_spaces rest)
  | String c rest => String c (collapse_spaces rest)
  | EmptyString => EmptyString
  end.

(** The members that every plain object, such as the tokens object that
    [compile] builds, inherits from [Object.prototype] (ECMAScript 20.1.3 and
    B.2.2): [tokens[tag]] finds them under these names when the object has no
    property of its own of that name. *)
Definition object_prototype_members : list string :=
  ["constructor"; "hasOwnProperty"; "isPrototypeOf"; "propertyIsEnumerable";
   "toLocaleString"; "toString"; "valueOf"; "__defineGetter__"; "__defineSetter__";
   "__lookupGetter__"; "__lookupSetter__"; "__proto__"].

(** What [tokens[tag]] is when it is not [undefined]: a string of the tokens
    object itself, or the member inherited under the name (a function, and
    the prototype object for [__proto__]). *)
Inductive TokenValue :=
| OwnValue (value : string)
| InheritedMember (name : string).

(** A code unit in the ASCII range. *)
Definition is_ascii (c : ascii) : bool := (nat_of_ascii c <? 128)%nat.

Section Tokenize.

(** [languages.instructions], the tokens object (a plain object whose own
    properties are strings) and [options.formatToken]. *)
Variable instructions : gmap string Language.
Variable language : string.
Variable tokens : gmap string string.
Variable formatToken : option (string -> TokenValue -> string).

(** What the engine does where this embedding does not spell it out:
    [upper_other language first] is [first.toLocaleUpperCase(language)] for a
    string [first] of at most one code unit, outside the ASCII range or for a
    language other than the two of the bundle ([None] is the [RangeError] of a
    string that is no language tag); [member_text name] is the text that
    [String.prototype.replace] makes of [Object.prototype[name]], which for a
    built-in function is left to the engine. *)
Variable upper_other : string -> string -> option string.
Variable member_text : string -> string.

(** [first.toLocaleUpperCase(language)] for [first = string.charAt(0)]: in
    German and English the ASCII letters a to z are raised and the other
    ASCII code units stay. *)
Definition toLocaleUpperCase (first : string) : option string :=
  if String.eqb language "en" || String.eqb language "de" then
    match first with
    | EmptyString => Some EmptyString
    | String c EmptyString =>
        if is_ascii c then Some (String (JS.toUpperCase_ascii c) EmptyString)
        else upper_other language first
    | _ => upper_other language first
    end
  else upper_other language first.

(** [capitalizeFirstLetter(language, string)]:
    [string.charAt(0).toLocaleUpperCase(language) + string.slice(1)]; [None]
    when it throws. *)
Definition capitalizeFirstLetter (s : string) : option string :=
  match s with
  | EmptyString => toLocaleUpperCase EmptyString
  | String c rest =>
      upper ← toLocaleUpperCase (String c EmptyString);
      Some (upper +:+ rest)
  end.

(** [tokens[tag]]; [None] is [undefined]. *)
Definition lookup_token (tag : string) : option TokenValue :=
  match tokens !! tag with
  | Some value => Some (OwnValue value)
  | None =>
      if bool_decide (tag ∈ object_prototype_members) then Some (InheritedMember tag)
      else None
  end.

(** The function given to [instruction.replace]; [startedWithToken] is the
    variable of [tokenize] that it assigns.  [None] when it throws: an
    inherited member has no [charAt] for [capitalizeFirstLetter] to call. *)
Definition replacer (capitalize : bool) (token tag : string) (grammar : option string)
    (offset : nat) (startedWithToken : bool) : option (string * bool) :=
  match lookup_token tag with
  | None => Some (token, startedWithToken)
  | Some (OwnValue value) =>
      let value := grammarize language value grammar in
      '(value, startedWithToken) ←
        (if (offset =? 0)%nat && capitalize
         then value ← capitalizeFirstLetter value; Some (value, true)
         else Some (value, startedWithToken));
      let value := match formatToken with
                   | Some f => f tag (OwnValue value)
                   | None => value
                   end in
      Some (value, startedWithToken)
  | Some (InheritedMember name) =>
      if (offset =? 0)%nat && capitalize then None
      else
        Some (match formatToken with
              | Some f => f tag (InheritedMember name)
              | None => member_text name
              end, startedWithToken)
  end.

(** [instruction.replace(/\{(\w+)(?::(\w+))?\}/g, replacer)]: the scan from
    offset [offset] on; [skip] characters still belong to the match that was
    replaced last. *)
Fixpoint replace_tokens (capitalize : bool) (s : string) (skip offset : nat)
    (startedWithToken : bool) : option (string * bool) :=
  match s with
  | EmptyString => Some (EmptyString, startedWithToken)
  | String c rest =>
      match skip with
      | S k => replace_tokens capitalize rest k (S offset) startedWithToken
      | O =>
          match match_token s with
          | Some (tag, grammar, len) =>
              let token := String.substring 0 len s in
              '(value, startedWithToken) ←
                replacer capitalize token tag grammar offset startedWithToken;
              '(out, startedWithToken) ←
                replace_tokens capitalize rest (len - 1) (S offset) startedWithToken;
              Some (value +:+ out, startedWithToken)
          | None =>
              '(out, startedWithToken) ←
                replace_tokens capitalize rest 0 (S offset) startedWithToken;
              Some (String c out, startedWithToken)
          end
      end
  end.

(** [tokenize(language, instruction, tokens, options)]; [None] when it throws
    (no language code, a language that is not loaded, or an exception of the
    replacer or of [capitalizeFirstLetter]). *)
Definition tokenize (instruction : string) : option string :=
  if String.eqb language "" then None
  else
    profile ← instructions !! language;
    let capitalize := capitalizeFirstLetter_requested profile in
    '(replaced, startedWithToken) ← replace_tokens capitalize instruction 0 0 false;
    let output := collapse_spaces replaced in
    if negb startedWithToken && capitalize
    then capitalizeFirstLetter output
    else Some output.

End Tokenize.

(** The rotary and roundabout entries of [en.json]. *)
Definition phrases (default name destination : string) : Json :=
  JObj [("default", JStr default); ("name", JStr name); ("destination", JStr destination)].

Definition en_rotary_default : Json :=
  JObj [
    ("default", phrases "Enter the roundabout"
                  "Enter the roundabout and exit onto {way_name}"
                  "Enter the roundabout and exit towards {destination}");
    ("name", phrases "Enter {rotary_name}"
               "Enter {rotary_name} and exit onto {way_name}"
               "Enter {rotary_name} and exit towards {destination}");
    ("exit", phrases "Enter the roundabout and take the {exit_number} exit"
               "Enter the roundabout and take the {exit_number} exit onto {way_name}"
               "Enter the roundabout and take the {exit_number} exit towards {destination}");
    ("name_exit", phrases "Enter {rotary_name} and take the {exit_number} exit"
                    "Enter {rotary_name} and take the {exit_number} exit onto {way_name}"
                    "Enter {rotary_name} and take the {exit_number} exit towards {destination}")
  ].

Definition en_roundabout_default : Json :=
  JObj [
    ("exit", phrases "Enter the roundabout and take the {exit_number} exit"
               "Enter the roundabout and take the {exit_number} exit onto {way_name}"
               "Enter the roundabout and take the {exit_number} exit towards {destination}");
    ("default", phrases "Enter the roundabout"
                  "Enter the roundabout and exit onto {way_name}"
                  "Enter the roundabout and exit towards {destination}")
  ].

(** [modes.ferry] of [en.json], the instruction object of a step travelled
    by ferry. *)
Definition en_modes_ferry : Json :=
  phrases "Take the ferry" "Take the ferry {way_name}" "Take the ferry towards {destination}".

(** The rotary and roundabout entries of [de.json]. *)
Definition de_rotary_default : Json :=
  JObj [
    ("default", phrases "In den Kreisverkehr fahren"
                  "Im Kreisverkehr die Ausfahrt auf {way_name} nehmen"
                  "Im Kreisverkehr die Ausfahrt Richtung {destination} nehmen");
    ("name", phrases "In {rotary_name} fahren"
               "In {rotary_name} die Ausfahrt auf {way_name} nehmen"
               "In {rotary_name} die Ausfahrt Richtung {destination} nehmen");
    ("exit", phrases "Im Kreisverkehr die {exit_number} Ausfahrt nehmen"
               "Im Kreisverkehr die {exit_number} Ausfahrt nehmen auf {way_name}"
               "Im Kreisverkehr die {exit_number} Ausfahrt nehmen Richtung {destination}");
    ("name_exit", phrases "In den Kreisverkehr fahren und {exit_number} Ausfahrt nehmen"
                    "In den Kreisverkehr fahren und {exit_number} Ausfahrt nehmen auf {way_name}"
                    "In den Kreisverkehr fahren und {exit_number} Ausfahrt nehmen Richtung {destination}")
  ].

Definition de_roundabout_default : Json :=
  JObj [
    ("exit", phrases "Im Kreisverkehr die {exit_number} Ausfahrt nehmen"
               "Im Kreisverkehr die {exit_number} Ausfahrt nehmen auf {way_name}"
               "Im Kreisverkehr die {exit_number} Ausfahrt nehmen Richtung {destination}");
    ("default", phrases "In den Kreisverkehr fahren"
                  "Im Kreisverkehr die Ausfahrt auf {way_name} nehmen"
                  "Im Kreisverkehr die Ausfahrt Richtung {destination} nehmen")
  ].

(** The two languages of the bundle, as far as the parts embedded here read
    them: both [de.json] and [en.json] ask for the first letter to be
    capitalized; of the [v5] tables only the entries above are written out. *)
Definition en : Language :=
  {| capitalizeFirstLetter_requested := true;
     v5 := JObj [("modes", JObj [("ferry", en_modes_ferry)]);
                 ("rotary", JObj [("default", en_rotary_default)]);
                 ("roundabout", JObj [("default", en_roundabout_default)])] |}.

(** [modes.ferry] of [de.json]. *)
Definition de_modes_ferry : Json :=
  phrases "Fähre nehmen" "Fähre nehmen {way_name}" "Fähre nehmen Richtung {destination}".

Definition de : Language :=
  {| capitalizeFirstLetter_requested := true;
     v5 := JObj [("modes", JObj [("ferry", de_modes_ferry)]);
                 ("rotary", JObj [("default", de_rotary_default)]);
                 ("roundabout", JObj [("default", de_roundabout_default)])] |}.

Definition bundle_instructions : gmap string Language :=
  {[ "de" := de; "en" := en ]}.

End TextInstructions.

(** ** The route line ([L.Routing.Line], module 11 of the bundle) *)

Module Line.

Section WithDistance.

(** [a.distanceTo(b)], the distance of Leaflet in metres. *)
Variable distanceTo : LatLng -> LatLng -> Q.

(** [d < minDist], where [minDist] starts as [Number.MAX_VALUE] ([None]
    here), which every distance is below. *)
Definition below (d : Q) (minDist : option Q) : bool :=
  match minDist with
  | None => true
  | Some m => negb (Qle_bool m d)
  end.

(** The loop of [_findClosestRoutePoint], over the coordinates from the last
    to the first, each with its index. *)
Fixpoint closest (latlng : LatLng) (l : list (nat * LatLng)) (minIndex : option nat)
    (minDist : option Q) : option nat :=
  match l with
  | [] => minIndex
  | (i, c) :: l =>
      let d := distanceTo latlng c in
      if below d minDist then closest latlng l (Some i) (Some d)
      else closest latlng l minIndex minDist
  end.

(** [_findClosestRoutePoint(latlng)]; [None] is [undefined]. *)
Definition _findClosestRoutePoint (coordinates : list LatLng) (latlng : LatLng)
    : option nat :=
  closest latlng (reverse (imap pair coordinates)) None None.

(** [_findWaypointIndices()]; [None] when it throws: a waypoint without a
    position has no [distanceTo], which the loop calls if there is a
    coordinate. *)
Definition _findWaypointIndices (route : OSRMv1.Route) : option (list (option nat)) :=
  mapM (fun wp =>
          match latLng wp with
          | Some latlng => Some (_findClosestRoutePoint (OSRMv1.coordinates route) latlng)
          | None => if bool_decide (OSRMv1.coordinates route = []) then Some None else None
          end)
       (OSRMv1.inputWaypoints route).

(** [_getWaypointIndices()]: [this._route.waypointIndices ||
    this._findWaypointIndices()], which the line computes once and keeps. *)
Definition _getWaypointIndices (route : OSRMv1.Route) : option (list (option nat)) :=
  match OSRMv1.waypointIndices route with
  | Some indices => Some (map Some indices)
  | None => _findWaypointIndices route
  end.

(** [wpIndices[j] > i]: false when one of them is [undefined]. *)
Definition greater (w i : option nat) : bool :=
  match w, i with
  | Some w, Some i => (i <? w)%nat
  | _, _ => false
  end.

(** The loop [while (j >= 0 && wpIndices[j] > i) j--] of
    [_findNearestWpBefore], over the indices from the last to the first, each
    with its place [j]. *)
Fixpoint nearest (i : option nat) (l : list (nat * option nat)) : Z :=
  match l with
  | [] => -1
  | (j, w) :: l => if greater w i then nearest i l else Z.of_nat j
  end.

(** [_findNearestWpBefore(i)] *)
Definition _findNearestWpBefore (wpIndices : list (option nat)) (i : option nat) : Z :=
  nearest i (reverse (imap pair wpIndices)).

(** [_onLineTouched(e)]: the [afterIndex] and the [latlng] of the
    [linetouched] event that is fired; [None] when it throws. *)
Definition _onLineTouched (route : OSRMv1.Route) (latlng : LatLng) : option (Z * LatLng) :=
  let i := _findClosestRoutePoint (OSRMv1.coordinates route) latlng in
  wpIndices ← _getWaypointIndices route;
  Some (_findNearestWpBefore wpIndices i, latlng).

(** The handler of [linetouched] that [_hookEvents] of the control registers
    on the line: [if (e.afterIndex < this.getWaypoints().length - 1)
    this._plan.dragNewWaypoint(e);].  [None] when it throws, [Some None] when
    it does nothing. *)
Definition linetouched (fuel : nat) (routeWhileDragging : bool) (dragStyles : nat)
    (plan : PlanDist.Plan) (e : Z * LatLng) : option (option PlanDist.NewWaypointDrag) :=
  if fst e <? Z.of_nat (length (PlanDist.getWaypoints plan)) - 1
  then Some <$> PlanDist.dragNewWaypoint fuel routeWhileDragging dragStyles plan
                  (fst e) (snd e)
  else Some None.

End WithDistance.

End Line.


(** ** Localization ([src/localization_simple.js], module 13 of the bundle;
       module 12 has the same class with more tables) *)

Module Localization.

(** The values of the language tables: strings, arrays of strings, nested
    tables and the function [formatOrder]; and whatever else a property read
    can give (a number, a built-in function, ...), of which only a name and
    the truthiness are kept. *)
#[local] Unset Elimination Schemes.
Inductive Value :=
| VString (s : string)
| VArray (items : list Value)
| VObject (fields : list (string * Value))
| VFunction (f : Z -> string)
| VOther (name : string) (is_truthy : bool).
#[local] Set Elimination Schemes.

(** Truthiness of a value that may be [undefined]. *)
Definition truthy (v : option Value) : bool :=
  match v with
  | None => false
  | Some (VString s) => negb (String.eqb s "")
  | Some (VOther _ t) => t
  | Some _ => true
  end.

(** The entry of a table under a key (the last one written counts). *)
Fixpoint lookup_field (fields : list (string * Value)) (key : string) : option Value :=
  match fields with
  | [] => None
  | (k, v) :: fields =>
      match lookup_field fields key with
      | Some v' => Some v'
      | None => if String.eqb k key then Some v else None
      end
  end.

(** [/([A-Za-z]+)/.exec(s)[1]]: the first run of letters of [s], as long as it
    goes; [None] when [s] has no letter, where [exec] answers [null] and its
    [[1]] throws. *)
Definition is_letter (c : ascii) : bool :=
  let n := nat_of_ascii c in
  (((65 <=? n) && (n <=? 90)) || ((97 <=? n) && (n <=? 122)))%nat.

Fixpoint take_letters (s : string) : string :=
  match s with
  | EmptyString => EmptyString
  | String c rest => if is_letter c then String c (take_letters rest) else EmptyString
  end.

Fixpoint first_letters (s : string) : option string :=
  match s with
  | EmptyString => None
  | String c rest => if is_letter c then Some (take_letters s) else first_letters rest
  end.

(** What [initialize] is handed: one language code or an array of them. *)
Inductive Langs :=
| OneLanguage (code : string)
| Languages (codes : list string).

Section WithTables.

(** The language tables: the properties [Localization['en']],
    [Localization['de']], ... of the class object. *)
Variable tables : gmap string Value.

(** What the class object and the engine have beside the tables.
    [class_member code] is [Localization[code]] for a code that names no
    table: the class object is a function made by [L.Class.extend], with the
    members that Leaflet gives it ([extend], [include], ...) and those that
    every function has ([bind], [call], [name], ...).  [builtin dict key] is
    [dict[key]] where [dict] is not a table with an entry [key]: the indices
    and the [length] of strings and arrays and the members that values
    inherit.  [Some None] is [undefined]; [None] is a read that throws, as
    the one of [caller] on a function in strict mode does. *)
Variable class_member : string -> option (option Value).
Variable builtin : Value -> string -> option (option Value).

(** [Localization[code]] *)
Definition class_get (code : string) : option (option Value) :=
  match tables !! code with
  | Some v => Some (Some v)
  | None => class_member code
  end.

(** [dict[key]] for a value that is not [undefined]. *)
Definition get (dict : Value) (key : string) : option (option Value) :=
  match dict with
  | VObject fields =>
      match lookup_field fields key with
      | Some v => Some (Some v)
      | None => builtin dict key
      end
  | _ => builtin dict key
  end.

(** The loop of [initialize] from entry [i] on: the entries of [this._langs]
    after it; [None] when it throws. *)
Fixpoint generalize (langs : list string) : option (list string) :=
  match langs with
  | [] => Some []
  | lang :: langs =>
      generalizedCode ← first_letters lang;
      found ← class_get lang;
      lang ← (if negb (truthy found) then
                general ← class_get generalizedCode;
                if truthy general then Some generalizedCode else None
              else Some lang);
      rest ← generalize langs;
      Some (lang :: rest)
  end.

(** [initialize(langs)]: [this._langs]; [None] when it throws. *)
Definition initialize (langs : Langs) : option (list string) :=
  generalize (match langs with
              | OneLanguage code => [code; "en"]
              | Languages codes => codes
              end).

(** The inner loop of [localize],
    [for (j = 0; dict && j < nKeys; j++) { key = keys[j]; value = dict[key]; dict = value; }],
    from key [j] on: the [value] it leaves; [None] when a read throws. *)
Fixpoint walk (dict : option Value) (keys : list string) (value : option Value)
    : option (option Value) :=
  match keys with
  | [] => Some value
  | key :: keys =>
      match dict with
      | Some d => if truthy dict then v ← get d key; walk v keys v else Some value
      | None => Some value
      end
  end.

(** The outer loop of [localize]; [value] is the variable that both loops
    share, which is not reset between the languages.  The function answers
    [undefined] when no language has a truthy value. *)
Fixpoint localize_from (langs : list string) (keys : list string) (value : option Value)
    : option (option Value) :=
  match langs with
  | [] => Some None
  | lang :: langs =>
      dict ← class_get lang;
      value ← walk dict keys value;
      if truthy value then Some value else localize_from langs keys value
  end.

(** [localize(keys)], for the array of keys ([keys] itself, or [[keys]] when
    it is one key); [None] when it throws. *)
Definition localize (_langs : list string) (keys : list string) : option (option Value) :=
  localize_from _langs keys None.

End WithTables.

(** [formatOrder] of the English table. *)
Definition formatOrder_en (n : Z) : string :=
  let i := Z.rem n 10 - 1 in
  match (if i <? 0 then None else nth_error ["st"; "nd"; "rd"] (Z.to_nat i)) with
  | Some suffix => JS.toString n +:+ suffix
  | None => JS.toString n +:+ "th"
  end.

(** [formatOrder] of the German table. *)
Definition formatOrder_de (n : Z) : string := JS.toString n +:+ ".".

(** The two tables of [localization_simple.js]. *)
Definition en : Value :=
  VObject [
    ("directions", VObject [
      ("N", VString "north");
      ("NE", VString "northeast");
      ("E", VString "east");
      ("SE", VString "southeast");
      ("S", VString "south");
      ("SW", VString "southwest");
      ("W", VString "west");
      ("NW", VString "northwest");
      ("SlightRight", VString "slight right");
      ("Right", VString "right");
      ("SharpRight", VString "sharp right");
      ("SlightLeft", VString "slight left");
      ("Left", VString "left");
      ("SharpLeft", VString "sharp left");
      ("Uturn", VString "Turn around")
    ]);
    ("instructions", VObject [
      ("Head", VArray [VString "Head {dir}"; VString " on {road}"]);
      ("Continue", VArray [VString "Continue {dir}"]);
      ("TurnAround", VArray [VString "Turn around"]);
      ("WaypointReached", VArray [VString "Waypoint reached"]);
      ("Roundabout", VArray [VString "Take the {exitStr} exit in the roundabout"; VString " onto {road}"]);
      ("DestinationReached", VArray [VString "Destination reached"]);
      ("Fork", VArray [VString "At the fork, turn {modifier}"; VString " onto {road}"]);
      ("Merge", VArray [VString "Merge {modifier}"; VString " onto {road}"]);
      ("OnRamp", VArray [VString "Turn {modifier} on the ramp"; VString " onto {road}"]);
      ("OffRamp", VArray [VString "Take the ramp on the {modifier}"; VString " onto {road}"]);
      ("EndOfRoad", VArray [VString "Turn {modifier} at the end of the road"; VString " onto {road}"]);
      ("Onto", VString "onto {road}")
    ]);
    ("formatOrder", VFunction formatOrder_en);
    ("ui", VObject [
      ("startPlaceholder", VString "Start");
      ("viaPlaceholder", VString "Via {viaNumber}");
      ("endPlaceholder", VString "End");
      ("exclude", VString "Exclude");
      ("ferry", VString "ferries");
      ("toll", VString "toll roads");
      ("motorway", VString "motorways")
    ]);
    ("units", VObject [
      ("meters", VString "m");
      ("kilometers", VString "km");
      ("yards", VString "yd");
      ("miles", VString "mi");
      ("hours", VString "h");
      ("minutes", VString "min");
      ("seconds", VString "s")
    ])
  ].

Definition de : Value :=
  VObject [
    ("directions", VObject [
      ("N", VString "Norden");
      ("NE", VString "Nordosten");
      ("E", VString "Osten");
      ("SE", VString "Südosten");
      ("S", VString "Süden");
      ("SW", VString "Südwesten");
      ("W", VString "Westen");
      ("NW", VString "Nordwesten");
      ("SlightRight", VString "leicht rechts");
      ("Right", VString "rechts");
      ("SharpRight", VString "scharf rechts");
      ("SlightLeft", VString "leicht links");
      ("Left", VString "links");
      ("SharpLeft", VString "scharf links");
      ("Uturn", VString "Wenden")
    ]);
    ("instructions", VObject [
      ("Head", VArray [VString "Richtung {dir}"; VString " auf {road}"]);
      ("Continue", VArray [VString "Geradeaus Richtung {dir}"; VString " auf {road}"]);
      ("SlightRight", VArray [VString "Leicht rechts abbiegen"; VString " auf {road}"]);
      ("Right", VArray [VString "Rechts abbiegen"; VString " auf {road}"]);
      ("SharpRight", VArray [VString "Scharf rechts abbiegen"; VString " auf {road}"]);
      ("TurnAround", VArray [VString "Wenden"]);
      ("SharpLeft", VArray [VString "Scharf links abbiegen"; VString " auf {road}"]);
      ("Left", VArray [VString "Links abbiegen"; VString " auf {road}"]);
      ("SlightLeft", VArray [VString "Leicht links abbiegen"; VString " auf {road}"]);
      ("WaypointReached", VArray [VString "Zwischenhalt erreicht"]);
      ("Roundabout", VArray [VString "Nehmen Sie die {exitStr} Ausfahrt im Kreisverkehr"; VString " auf {road}"]);
      ("DestinationReached", VArray [VString "Sie haben ihr Ziel erreicht"]);
      ("Fork", VArray [VString "An der Kreuzung {modifier}"; VString " auf {road}"]);
      ("Merge", VArray [VString "Fahren Sie {modifier} weiter"; VString " auf {road}"]);
      ("OnRamp", VArray [VString "Fahren Sie {modifier} auf die Auffahrt"; VString " auf {road}"]);
      ("OffRamp", VArray [VString "Nehmen Sie die Ausfahrt {modifier}"; VString " auf {road}"]);
      ("EndOfRoad", VArray [VString "Fahren Sie {modifier} am Ende der Straße"; VString " auf {road}"]);
      ("Onto", VString "auf {road}")
    ]);
    ("formatOrder", VFunction formatOrder_de);
    ("ui", VObject [
      ("startPlaceholder", VString "Start");
      ("viaPlaceholder", VString "Via {viaNumber}");
      ("endPlaceholder", VString "Ziel");
      ("exclude", VString "Vermeide");
      ("ferry", VString "Fähren");
      ("toll", VString "Mautstraßen");
      ("motorway", VString "Autobahnen")
    ])
  ].

Definition simple_tables : gmap string Value := {[ "de" := de; "en" := en ]}.

End Localization.


(** ** The formatter ([L.Routing.Formatter], module 6 of the bundle) *)

Module Formatter.


(** The names of the units that [formatTime] reads from the option
    [unitNames] or from the localization. *)
Record UnitNames := mkUnitNames {
  hours : string;
  minutes : string;
  seconds : string
}.

(** [formatTime(t)] *)
Definition formatTime (un : UnitNames) (t : Q) : string :=
  let t := JS.round (t / 30) * 30 in
  if 86400 <? t then
    JS.toString (JS.round (inject_Z t / 3600)) +:+ " " +:+ hours un
  else if 3600 <? t then
    JS.toString (Qfloor (inject_Z t / 3600)) +:+ " " +:+ hours un +:+ " "
      +:+ JS.toString (JS.round (inject_Z (Z.rem t 3600) / 60)) +:+ " " +:+ minutes un
  else if 300 <? t then
    JS.toString (JS.round (inject_Z t / 60)) +:+ " " +:+ minutes un
  else if 60 <? t then
    JS.toString (Qfloor (inject_Z t / 60)) +:+ " " +:+ minutes un
      +:+ (if negb (Z.rem t 60 =? 0)
           then " " +:+ JS.toString (Z.rem t 60) +:+ " " +:+ seconds un
           else "")
  else JS.toString t +:+ " " +:+ seconds un.

(** [getIconName(instr, i)]; [None] is [undefined]. *)
Definition getIconName (instr : OSRMv1.Instruction) (i : nat) : option string :=
  let type := OSRMv1.i_type instr in
  let by_type :=
    if String.eqb type "Head" then (if (i =? 0)%nat then Some "depart" else None)
    else if String.eqb type "WaypointReached" then Some "via"
    else if String.eqb type "Roundabout" then Some "enter-roundabout"
    else if String.eqb type "DestinationReached" then Some "arrive"
    else None in
  match by_type with
  | Some icon => Some icon
  | None =>
      match OSRMv1.i_modifier instr with
      | None => None
      | Some modifier =>
          if String.eqb modifier "Straight" then Some "continue"
          else if String.eqb modifier "SlightRight" then Some "bear-right"
          else if String.eqb modifier "Right" then Some "turn-right"
          else if String.eqb modifier "SharpRight" then Some "sharp-right"
          else if String.eqb modifier "TurnAround" || String.eqb modifier "Uturn"
          then Some "u-turn"
          else if String.eqb modifier "SharpLeft" then Some "sharp-left"
          else if String.eqb modifier "Left" then Some "turn-left"
          else if String.eqb modifier "SlightLeft" then Some "bear-left"
          else None
      end
  end.

End Formatter.


(** ** Specification-level definitions, following the words of the spec *)

(** "if the resulting length < 2, synthesize empty waypoints appended until
    length = 2" *)
Definition pad_to_two (l : list Waypoint) : list Waypoint :=
  l ++ replicate (2 - length l) emptyWaypoint.

(** Bearings: the eight 45-degree sectors centred on the compass points
    (a point owns the bearings nearer to it than to its neighbours). *)
Definition centred_sector (b : Z) : Compass :=
  if b <=? 22 then north
  else if b <=? 67 then northeast
  else if b <=? 112 then east
  else if b <=? 157 then southeast
  else if b <=? 202 then south
  else if b <=? 247 then southwest
  else if b <=? 292 then west
  else if b <=? 337 then northwest
  else north.

(** Bearings in the text instructions: 40 degrees around each cardinal point,
    bounds included, and the 50 degrees between them for the others. *)
Definition worded_sector (b : Z) : Compass :=
  if b <=? 20 then north
  else if b <=? 69 then northeast
  else if b <=? 110 then east
  else if b <=? 159 then southeast
  else if b <=? 200 then south
  else if b <=? 249 then southwest
  else if b <=? 290 then west
  else if b <=? 339 then northwest
  else north.

(** "recorded exactly at steps whose maneuver is a depart on the first leg or
    any arrive maneuver" *)
Definition is_waypoint_step (legIndex : nat) (step : OSRMv1.Step) : bool :=
  (bool_decide (legIndex = 0%nat)
   && String.eqb (OSRMv1.type (OSRMv1.maneuver step)) "depart")
  || String.eqb (OSRMv1.type (OSRMv1.maneuver step)) "arrive".

(** The steps of the legs in route order, each with the index of its leg,
    the first leg having index [i]. *)
Fixpoint steps_from (i : nat) (legs : list OSRMv1.Leg) : list (nat * OSRMv1.Step) :=
  match legs with
  | [] => []
  | leg :: legs => map (pair i) (OSRMv1.steps leg) ++ steps_from (S i) legs
  end.

(** "the running coordinate-count offset": each step with the number of
    coordinates that the steps before it have contributed, counting from [from]. *)
Fixpoint with_offsets (polylinePrecision : Z) (from : nat) (l : list (nat * OSRMv1.Step))
    : list (nat * (nat * OSRMv1.Step)) :=
  match l with
  | [] => []
  | (i, step) :: l =>
      (from, (i, step))
        :: with_offsets polylinePrecision
             (from + length (OSRMv1._decodePolyline polylinePrecision (OSRMv1.geometry step)))%nat
             l
  end.

Definition recorded_offsets (polylinePrecision : Z) (from i : nat) (legs : list OSRMv1.Leg)
    : list nat :=
  map fst (List.filter (fun x => is_waypoint_step (fst (snd x)) (snd (snd x)))
             (with_offsets polylinePrecision from (steps_from i legs))).

(** The number of coordinates that a list of steps contributes. *)
Definition coordinate_count (polylinePrecision : Z) (l : list (nat * OSRMv1.Step)) : nat :=
  length (concat (map (fun x => OSRMv1._decodePolyline polylinePrecision
                                   (OSRMv1.geometry (snd x))) l)).


(** The four phrase variants of a roundabout or rotary step. *)
Inductive Variant := NamedAndNumbered | ExitNumberOnly | NamedOnly | Generic.

Definition variant_key (v : Variant) : string :=
  match v with
  | NamedAndNumbered => "name_exit"
  | ExitNumberOnly => "exit"
  | NamedOnly => "name"
  | Generic => "default"
  end.

(** A variant can be used when the step has what it mentions and the
    instruction object offers it. *)
Definition usable (step : TextInstructions.Step) (o : TextInstructions.Json) (v : Variant)
    : bool :=
  match v with
  | NamedAndNumbered =>
      JS.truthy_string (TextInstructions.rotary_name step)
      && JS.truthy_number (TextInstructions.maneuver_exit step)
      && TextInstructions.truthy (TextInstructions.get o "name_exit")
  | ExitNumberOnly =>
      JS.truthy_number (TextInstructions.maneuver_exit step)
      && TextInstructions.truthy (TextInstructions.get o "exit")
  | NamedOnly =>
      JS.truthy_string (TextInstructions.rotary_name step)
      && TextInstructions.truthy (TextInstructions.get o "name")
  | Generic => true
  end.

(** The first usable variant of a preference order, the generic one if none. *)
Fixpoint preferred (order : list Variant) (step : TextInstructions.Step)
    (o : TextInstructions.Json) : Variant :=
  match order with
  | [] => Generic
  | v :: order => if usable step o v then v else preferred order step o
  end.

(** "preferring named+numbered > exit-number-only > named-only > generic" *)
Definition spec_order : list Variant :=
  [NamedAndNumbered; ExitNumberOnly; NamedOnly; Generic].

(** The order in which [compile] tests them. *)
Definition compile_order : list Variant :=
  [NamedAndNumbered; NamedOnly; ExitNumberOnly; Generic].

(** [s] without its first [n] characters. *)
Fixpoint drop_string (n : nat) (s : string) : string :=
  match n, s with
  | O, _ => s
  | S k, String _ rest => drop_string k rest
  | S _, EmptyString => EmptyString
  end.


Section Rendering.

Variable tokens : gmap string string.
Variable formatToken : option (string -> TextInstructions.TokenValue -> string).

Definition formatted (tag value : string) : string :=
  match formatToken with
  | Some f => f tag (TextInstructions.OwnValue value)
  | None => value
  end.

(** "replace each {tag} placeholder using the assembled context; unknown
    tokens pass through unchanged": the text after the first [skip] characters
    of [s], which belong to a placeholder that has been dealt with. *)
Fixpoint substitute (s : string) (skip : nat) : string :=
  match s with
  | EmptyString => EmptyString
  | String c rest =>
      match skip with
      | S k => substitute rest k
      | O =>
          match TextInstructions.match_token s with
          | Some (tag, _, len) =>
              match tokens !! tag with
              | Some value => formatted tag value
              | None => String.substring 0 len s
              end +:+ substitute rest (len - 1)
          | None => String c (substitute rest 0)
          end
      end
  end.

(** "if the template begins with a token, capitalize the substituted value
    instead of the literal template text; otherwise capitalize the first
    letter of the final rendered string, only when the active language profile
    requests auto-capitalization" *)
Definition render (capitalize : bool) (template : string) : string :=
  if capitalize then
    match TextInstructions.match_token template with
    | Some (tag, _, len) =>
        match tokens !! tag with
        | Some value =>
            TextInstructions.collapse_spaces
              (formatted tag (JS.upperFirst value) +:+ substitute template len)
        | None => JS.upperFirst (TextInstructions.collapse_spaces (substitute template 0))
        end
    | None => JS.upperFirst (TextInstructions.collapse_spaces (substitute template 0))
    end
  else TextInstructions.collapse_spaces (substitute template 0).

(** The tags of the placeholders that the scan of a template meets, and the
    templates in which none of them names a member that the tokens object
    only inherits. *)
Fixpoint placeholder_tags (s : string) (skip : nat) : list string :=
  match s with
  | EmptyString => []
  | String c rest =>
      match skip with
      | S k => placeholder_tags rest k
      | O =>
          match TextInstructions.match_token s with
          | Some (tag, _, len) => tag :: placeholder_tags rest (len - 1)
          | None => placeholder_tags rest 0
          end
      end
  end.

Definition no_inherited_tag (template : string) : Prop :=
  Forall (fun tag => is_Some (tokens !! tag)
                     \/ tag ∉ TextInstructions.object_prototype_members)
         (placeholder_tags template 0).

(** The string whose first letter [render] capitalizes. *)
Definition capitalized (template : string) : string :=
  match TextInstructions.match_token template with
  | Some (tag, _, _) =>
      match tokens !! tag with
      | Some value => value
      | None => TextInstructions.collapse_spaces (substitute template 0)
      end
  | None => TextInstructions.collapse_spaces (substitute template 0)
  end.

(** A string that is empty or starts with an ASCII code unit. *)
Definition ascii_first (s : string) : bool :=
  match s with
  | EmptyString => true
  | String c _ => TextInstructions.is_ascii c
  end.

End Rendering.


(** ** Data for the examples *)

Definition berlin : Waypoint :=
  {| latLng := Some {| lat := 52.52; lng := 13.405 |}; name := Some "Berlin";
     allowUTurn := false |}.

Definition potsdam : Waypoint :=
  {| latLng := Some {| lat := 52.39; lng := 13.065 |}; name := Some "Potsdam";
     allowUTurn := false |}.

Definition leipzig : Waypoint :=
  {| latLng := Some {| lat := 51.34; lng := 12.375 |}; name := Some "Leipzig";
     allowUTurn := false |}.

(** A TypeScript plan as the constructor leaves [this.waypoints] before it
    calls [setWaypoints], and one with two waypoints on a map. *)
Definition ts_new : PlanTs.Plan :=
  {| PlanTs.options := {| PlanTs.draggableWaypoints := true;
                          PlanTs.routeWhileDragging := false |};
     PlanTs.waypoints := []; PlanTs._map := false; PlanTs.markers := [];
     PlanTs.fired := [] |}.

Definition ts_two : PlanTs.Plan :=
  {| PlanTs.options := {| PlanTs.draggableWaypoints := true;
                          PlanTs.routeWhileDragging := false |};
     PlanTs.waypoints := [berlin; potsdam]; PlanTs._map := true;
     PlanTs.markers := []; PlanTs.fired := [] |}.

(** The same two waypoints in a plan of the bundle. *)
Definition dist_two : PlanDist.Plan :=
  {| PlanDist.draggableWaypoints := true; PlanDist._waypoints := [berlin; potsdam];
     PlanDist._map := true; PlanDist._markers := []; PlanDist.fired := [] |}.

(** A plan of the bundle as [initialize] leaves [this._waypoints] before it
    calls [setWaypoints]. *)
Definition dist_new : PlanDist.Plan :=
  {| PlanDist.draggableWaypoints := true; PlanDist._waypoints := [];
     PlanDist._map := false; PlanDist._markers := []; PlanDist.fired := [] |}.


(** A control with a ready plan and no request made yet; the request that the
    drag handler makes ([geometryOnly], its own callback); the control after
    that request and after a following plain [route()]. *)
Definition control_idle : Control.State OSRMv1.Route :=
  {| Control._requestCount := 0; Control._pendingRequest := None;
     Control.router_abortable := true; Control._plan := [berlin; potsdam];
     Control.effects := [] |}.

Definition drag_options : Control.RouteOptions :=
  {| Control.opt_waypoints := None; Control.opt_geometryOnly := true;
     Control.opt_callback := Some Control.updateLineCallback |}.

Definition drag_request : Control.Request :=
  {| Control.ts := 1; Control.wps := [berlin; potsdam]; Control.options := drag_options |}.

Definition control_after_drag_request : Control.State OSRMv1.Route :=
  fst (Control.route control_idle (Some drag_options)).

Definition control_after_second_request : Control.State OSRMv1.Route :=
  fst (Control.route control_after_drag_request None).


(** A [stepToText] option that names the maneuver, a callback that throws
    whatever it is handed, and the body of a "NoRoute" answer. *)
Definition maneuver_text (step : OSRMv1.Step) (legCount legIndex : nat) : option string :=
  Some (OSRMv1.type (OSRMv1.maneuver step)).

Definition throwing_callback (a : OSRMv1.CallbackArg) : option string :=
  Some "Error: boom".

Definition returning_callback (a : OSRMv1.CallbackArg) : option string := None.

Definition no_route_response : OSRMv1.ServiceResponse :=
  {| OSRMv1.code := OSRMv1.JsString "NoRoute"; OSRMv1.resp_waypoints := None;
     OSRMv1.routes := None |}.

Definition fresh_call : OSRMv1.Call :=
  OSRMv1.start [berlin; potsdam]
    {| OSRMv1.geometryOnly := false; OSRMv1.simplifyGeometry := false |} [].


(** A route as OSRM answers for two waypoints: one leg, a [depart] step whose
    polyline holds three points and an [arrive] step whose polyline holds the
    last point twice. *)
Definition depart_step : OSRMv1.Step :=
  {| OSRMv1.geometry := "_p~iF~ps|U_ulLnnqC_mqNvxq`@";
     OSRMv1.maneuver := {| OSRMv1.type := "depart"; OSRMv1.modifier := None;
                           OSRMv1.bearing_after := Some 44; OSRMv1.exit := None |};
     OSRMv1.step_distance := 1200; OSRMv1.step_duration := 90;
     OSRMv1.step_name := Some "Main St"; OSRMv1.step_mode := Some "driving" |}.

Definition arrive_step : OSRMv1.Step :=
  {| OSRMv1.geometry := "_t~fGfzxbW??";
     OSRMv1.maneuver := {| OSRMv1.type := "arrive"; OSRMv1.modifier := None;
                           OSRMv1.bearing_after := Some 0; OSRMv1.exit := None |};
     OSRMv1.step_distance := 0; OSRMv1.step_duration := 0;
     OSRMv1.step_name := Some "Main St"; OSRMv1.step_mode := Some "driving" |}.

Definition two_step_route : OSRMv1.ResponseRoute :=
  {| OSRMv1.distance := 1200; OSRMv1.duration := 90;
     OSRMv1.legs := [ {| OSRMv1.summary := Some "main St";
                         OSRMv1.steps := [depart_step; arrive_step] |} ];
     OSRMv1.route_geometry := None |}.


(** A step into a named rotary with a known exit. *)
Definition dupont_circle_step : TextInstructions.Step :=
  {| TextInstructions.rotary_name := Some "Dupont Circle";
     TextInstructions.maneuver_exit := Some 2;
     TextInstructions.lanes := None |}.


(** The tokens of the example: a left turn onto Main St. *)
Definition left_onto_main_st : gmap string string :=
  {[ "modifier" := "left"; "way_name" := "Main St" ]}.

(** ** Auxiliary definitions for the properties of the other functions *)

(** The pair of whole numbers that [encode] makes of a coordinate pair,
    [py2_round(c * factor)] of each with the product a double, and the numbers
    whose differences the 32-bit operations of [encode] hold without
    wrapping. *)
Definition scaled (factor : Q) (c : Q * Q) : Z * Z :=
  (Polyline.py2_round (JS.double (fst c * factor)),
   Polyline.py2_round (JS.double (snd c * factor))).

(** A whole number within half a unit, and 2^-22, of a number. *)
Definition near_half (n : Z) (x : Q) : Prop :=
  (Qabs (inject_Z n - x) <= (1 # 2) + (1 # 4194304))%Q.

(** The pair that [decode] makes of a pair of whole numbers. *)
Definition quotients (factor : Q) (p : Z * Z) : Q * Q :=
  (JS.double (inject_Z (fst p) / factor), JS.double (inject_Z (snd p) / factor)).

Definition in_reach (z : Z) : Prop := - 2 ^ 29 <= z < 2 ^ 29.

(** The example of the format's description: three points, five decimals. *)
Definition three_points : list (Q * Q) :=
  [(38.5, -120.2); (40.7, -120.95); (43.252, -126.453)]%Q.


(** A route line of three points between two waypoints, as the route client
    hands it on, and a distance to measure it with (the squared distance in
    the plane, which orders points as the distance does). *)
Definition straight_route : OSRMv1.Route :=
  {| OSRMv1.r_name := "Main St";
     OSRMv1.coordinates := [ {| lat := 52.52; lng := 13.405 |};
                             {| lat := 52.45; lng := 13.25 |};
                             {| lat := 52.39; lng := 13.065 |} ];
     OSRMv1.instructions := [];
     OSRMv1.totalDistance := 1200; OSRMv1.totalTime := 90;
     OSRMv1.waypointIndices := Some [0; 2]%nat;
     OSRMv1.inputWaypoints := [berlin; potsdam];
     OSRMv1.actualWaypoints := [berlin; potsdam];
     OSRMv1.isSimplified := true |}.

Definition planar_distance (a b : LatLng) : Q :=
  ((lat a - lat b) * (lat a - lat b) + (lng a - lng b) * (lng a - lng b))%Q.

Definition near_the_middle : LatLng := {| lat := 52.46; lng := 13.26 |}.

Definition leipzig_position : LatLng := {| lat := 51.34; lng := 12.375 |}.


(** The value at the end of a path of keys from [dict], or the first value
    on the way that is not truthy; and the value that the first language with
    a truthy value at the path has there, [undefined] if none has.  [None]
    when a read throws before. *)
Fixpoint at_path (builtin : Localization.Value -> string -> option (option Localization.Value))
    (dict : option Localization.Value) (keys : list string)
    : option (option Localization.Value) :=
  match keys with
  | [] => Some dict
  | key :: keys =>
      match dict with
      | Some d =>
          if Localization.truthy dict
          then v ← Localization.get builtin d key; at_path builtin v keys
          else Some dict
      | None => Some None
      end
  end.

Fixpoint first_truthy (tables : gmap string Localization.Value)
    (class_member : string -> option (option Localization.Value))
    (builtin : Localization.Value -> string -> option (option Localization.Value))
    (langs : list string) (keys : list string) : option (option Localization.Value) :=
  match langs with
  | [] => Some None
  | lang :: langs =>
      dict ← Localization.class_get tables class_member lang;
      v ← at_path builtin dict keys;
      if Localization.truthy v then Some v
      else first_truthy tables class_member builtin langs keys
  end.

(** A code under which the class object has something truthy, and a code
    that makes [initialize] throw: it has no letter, or reading it throws, or
    neither it nor its letters give something truthy. *)
Definition is_member (tables : gmap string Localization.Value)
    (class_member : string -> option (option Localization.Value)) (code : string) : Prop :=
  exists v, Localization.class_get tables class_member code = Some v /\
            Localization.truthy v = true.

Definition unservable (tables : gmap string Localization.Value)
    (class_member : string -> option (option Localization.Value)) (code : string) : Prop :=
  match Localization.first_letters code with
  | None => True
  | Some letters =>
      match Localization.class_get tables class_member code with
      | None => True
      | Some v =>
          Localization.truthy v = false /\
          match Localization.class_get tables class_member letters with
          | None => True
          | Some g => Localization.truthy g = false
          end
      end
  end.

(** An example of what a class object and an engine have beside the tables. *)
Definition sample_class_member (code : string) : option (option Localization.Value) :=
  if bool_decide (code ∈ ["extend"; "include"; "mergeOptions"; "addInitHook"; "prototype";
                          "bind"; "call"; "apply"; "toString"; "constructor"])
  then Some (Some (Localization.VOther code true))
  else if bool_decide (code ∈ ["caller"; "arguments"]) then None
  else Some None.

Definition sample_builtin (dict : Localization.Value) (key : string)
    : option (option Localization.Value) :=
  match dict with
  | Localization.VString s =>
      if String.eqb key "length"
      then Some (Some (Localization.VOther "number" (negb (String.eqb s ""))))
      else Some None
  | Localization.VFunction _ =>
      if String.eqb key "caller" then None else Some None
  | _ => Some None
  end.

(** A language code is served by itself or by its first run of letters. *)
Definition serves (code served : string) : Prop :=
  served = code \/ Localization.first_letters code = Some served.


(** How often the validity changes from one lane to the next, and strings
    in which no character is followed by the same one. *)
Fixpoint changes (lanes : list bool) : nat :=
  match lanes with
  | a :: (b :: _) as rest => ((if Bool.eqb a b then 0 else 1) + changes rest)%nat
  | _ => 0%nat
  end.

Fixpoint alternates (s : string) : bool :=
  match s with
  | String a (String b _ as rest) => negb (Ascii.eqb a b) && alternates rest
  | _ => true
  end.

(** Strings of code units in the ASCII range, among which [toUpperCase]
    raises the letters a to z and leaves the others. *)
Fixpoint all_ascii (s : string) : bool :=
  match s with
  | EmptyString => true
  | String c rest => TextInstructions.is_ascii c && all_ascii rest
  end.

(** The number of spaces of a string. *)
Fixpoint count_spaces (s : string) : nat :=
  match s with
  | EmptyString => 0%nat
  | String c rest => ((if Ascii.eqb c " "%char then 1 else 0) + count_spaces rest)%nat
  end.

(** An instruction points at a step in a line: it carries the step's
    distance, time and road, and the line has the step's coordinates from the
    instruction's index on. *)
Definition points_at (polylinePrecision : Z) (coordinates : list LatLng)
    (ins : OSRMv1.Instruction) (step : OSRMv1.Step) : Prop :=
  OSRMv1.i_distance ins = OSRMv1.step_distance step /\
  OSRMv1.i_time ins = OSRMv1.step_duration step /\
  OSRMv1.i_road ins = OSRMv1.step_name step /\
  let geometry := OSRMv1._decodePolyline polylinePrecision (OSRMv1.geometry step) in
  take (length geometry) (drop (OSRMv1.i_index ins) coordinates) = geometry.


(** The state of the loops of [_convertRoute] counts the coordinates it has,
    and its instructions point at steps met so far. *)
Definition pointing (polylinePrecision : Z) (met : OSRMv1.Step -> Prop) (acc : OSRMv1.Acc)
    : Prop :=
  OSRMv1.acc_index acc = length (OSRMv1.acc_coordinates acc) /\
  Forall (fun ins => exists step, met step /\
            points_at polylinePrecision (OSRMv1.acc_coordinates acc) ins step)
         (OSRMv1.acc_instructions acc).


(** The plan [p'] has the waypoints of [p] and one more at index [k], at the
    position [latlng] and between two of them: the first and the last
    waypoint are those of [p]. *)
Definition inserted_between (p p' : PlanDist.Plan) (k : Z) (latlng : LatLng) : Prop :=
  1 <= k < Z.of_nat (length (PlanDist._waypoints p)) /\
  PlanDist._waypoints p' =
    take (Z.to_nat k) (PlanDist._waypoints p)
      ++ {| latLng := Some latlng; name := None; allowUTurn := false |}
      :: drop (Z.to_nat k) (PlanDist._waypoints p) /\
  head (PlanDist._waypoints p') = head (PlanDist._waypoints p) /\
  last (PlanDist._waypoints p') = last (PlanDist._waypoints p).

(** ** Proof automation *)

(** Replaces each comparison of the goal by its value, found by [lia]. *)
Ltac settle_comparisons :=
  repeat match goal with
         | |- context [(?x <=? ?y)] =>
             first [ rewrite (proj2 (Z.leb_le x y)) by lia
                   | rewrite (proj2 (Z.leb_gt x y)) by lia ]
         | |- context [(?x <? ?y)] =>
             first [ rewrite (proj2 (Z.ltb_lt x y)) by lia
                   | rewrite (proj2 (Z.ltb_ge x y)) by lia ]
         end.

(** * Properties *)

Section SpliceFacts.
Context {A : Type}.
Implicit Types l items : list A.

Lemma splice_at_end_nothing l :
  JS.splice l (Z.of_nat (length l)) 0 [] = l.
Proof.
  unfold JS.splice.
  replace (Z.of_nat (length l) <? 0) with false by (symmetry; apply Z.ltb_ge; lia).
  rewrite Z.min_id, Z.sub_diag. cbn [Z.max Z.min Z.compare].
  rewrite Z.add_0_r, Nat2Z.id. cbn [app].
  apply take_drop.
Qed.

Lemma splice_at_end_one l x :
  JS.splice l (Z.of_nat (length l)) 0 [x] = l ++ [x].
Proof.
  unfold JS.splice.
  replace (Z.of_nat (length l) <? 0) with false by (symmetry; apply Z.ltb_ge; lia).
  rewrite Z.min_id, Z.sub_diag. cbn [Z.max Z.min Z.compare].
  rewrite Z.add_0_r, Nat2Z.id.
  rewrite firstn_all, drop_all. reflexivity.
Qed.

(** A splice over the whole list replaces it. *)
Lemma splice_all l items : JS.splice l 0 (Z.of_nat (length l)) items = items.
Proof.
  unfold JS.splice. cbn [Z.ltb Z.compare].
  rewrite Z.min_l, Z.sub_0_r, Z.max_l, Z.min_id by lia.
  rewrite Z.add_0_l, Nat2Z.id, drop_all. cbn. apply app_nil_r.
Qed.

End SpliceFacts.

(** ** [src/plan.ts]: the splice primitive *)

Lemma ts_waypoints_fireChanged p a b c :
  PlanTs.waypoints (PlanTs.fireChanged (PlanTs.updateMarkers p) a b c) = PlanTs.waypoints p.
Proof.
  unfold PlanTs.fireChanged, PlanTs.updateMarkers.
  destruct a as [i|]; [destruct (JS.truthy_number (Some i))|];
    destruct (PlanTs._map p); reflexivity.
Qed.

(** The loop guard holds again after each round, because the call made in the
    loop body inserts nothing: neither the loop nor a call that enters it
    comes back, whatever the bound on the number of calls. *)
Lemma ts_enforce_never_returns fuel :
  (forall p, (length (PlanTs.waypoints p) < 2)%nat -> PlanTs.enforce fuel p = None) /\
  (forall p start dc items,
      (length (JS.splice (PlanTs.waypoints p) start dc items) < 2)%nat ->
      PlanTs.spliceWaypoints fuel p start dc items = None).
Proof.
  induction fuel as [|f [IHe IHs]]; split; intros.
  - cbn [PlanTs.enforce]. now rewrite (proj2 (Nat.ltb_lt _ _) H).
  - reflexivity.
  - cbn [PlanTs.enforce]. rewrite (proj2 (Nat.ltb_lt _ _) H).
    rewrite IHs; [reflexivity|]. now rewrite splice_at_end_nothing.
  - cbn [PlanTs.spliceWaypoints]. rewrite IHe; [reflexivity | exact H].
Qed.

Lemma ts_enforce_returns fuel p :
  (2 <= length (PlanTs.waypoints p))%nat -> PlanTs.enforce fuel p = Some p.
Proof.
  intros H. destruct fuel; cbn [PlanTs.enforce];
    now rewrite (proj2 (Nat.ltb_ge _ _) H).
Qed.

(** A call whose splice leaves at least two waypoints returns after one call:
    markers are rebuilt and the events are fired on the spliced list. *)
Lemma ts_spliceWaypoints_returns fuel p start dc items :
  (2 <= length (JS.splice (PlanTs.waypoints p) start dc items))%nat ->
  PlanTs.spliceWaypoints (S fuel) p start dc items =
  Some (PlanTs.fireChanged
          (PlanTs.updateMarkers
             (PlanTs.set_waypoints p (JS.splice (PlanTs.waypoints p) start dc items)))
          (Some start) (Some dc) items).
Proof.
  intros H. cbn [PlanTs.spliceWaypoints]. now rewrite ts_enforce_returns.
Qed.

(** Whenever a call of the TypeScript plan does return, at least two waypoints
    are left. *)
Lemma ts_spliceWaypoints_floor fuel p start dc items p' :
  PlanTs.spliceWaypoints fuel p start dc items = Some p' ->
  (2 <= length (PlanTs.waypoints p'))%nat.
Proof.
  intros H.
  destruct (Nat.lt_ge_cases (length (JS.splice (PlanTs.waypoints p) start dc items)) 2)
    as [Hlt|Hge].
  - now rewrite (proj2 (ts_enforce_never_returns fuel) _ _ _ _ Hlt) in H.
  - destruct fuel as [|f]; [discriminate|].
    rewrite ts_spliceWaypoints_returns in H by exact Hge.
    apply (inj Some) in H. subst p'.
    rewrite ts_waypoints_fireChanged. exact Hge.
Qed.

(** ** The bundle's plan: the splice primitive *)

Lemma pad_to_two_length l : (2 <= length (pad_to_two l))%nat.
Proof. unfold pad_to_two. rewrite length_app, length_replicate. lia. Qed.

Lemma pad_to_two_id l : (2 <= length l)%nat -> pad_to_two l = l.
Proof.
  intros H. unfold pad_to_two.
  replace (2 - length l)%nat with 0%nat by lia. apply app_nil_r.
Qed.

Lemma pad_to_two_snoc l :
  (length l < 2)%nat -> pad_to_two (l ++ [emptyWaypoint]) = pad_to_two l.
Proof.
  destruct l as [|a [|b l]]; cbn; intros H; try reflexivity; lia.
Qed.

Lemma dist_waypoints_fireChanged p args :
  PlanDist._waypoints (PlanDist._fireChanged (PlanDist._updateMarkers p) args)
  = PlanDist._waypoints p.
Proof.
  unfold PlanDist._fireChanged, PlanDist._updateMarkers.
  destruct args as [|a [|b args]]; destruct (PlanDist._map p); reflexivity.
Qed.

Lemma dist_enforce_returns fuel p :
  (2 <= length (PlanDist._waypoints p))%nat -> PlanDist.enforce fuel p = Some p.
Proof.
  intros H. destruct fuel; cbn [PlanDist.enforce];
    now rewrite (proj2 (Nat.ltb_ge _ _) H).
Qed.

Lemma dist_spliceWaypoints_S f p arg0 arg1 rest :
  PlanDist.spliceWaypoints (S f) p arg0 arg1 rest =
  match PlanDist.enforce f
          (PlanDist.set_waypoints p
             (JS.splice (PlanDist._waypoints p) (JS.toInteger arg0) (JS.toInteger arg1)
                (map PlanDist.toWaypoint rest))) with
  | None => None
  | Some p2 =>
      Some (PlanDist._fireChanged (PlanDist._updateMarkers p2)
              (PlanDist.ArgNumber arg0 :: PlanDist.ArgNumber arg1
                 :: map PlanDist.ArgWaypoint (map PlanDist.toWaypoint rest)))
  end.
Proof. reflexivity. Qed.

Lemma dist_enforce_S f p :
  (length (PlanDist._waypoints p) < 2)%nat ->
  PlanDist.enforce (S f) p =
  match PlanDist.spliceWaypoints f p (Some (Z.of_nat (length (PlanDist._waypoints p))))
          (Some 0) [PlanDist.ItemLatLng None] with
  | None => None
  | Some p' => PlanDist.enforce f p'
  end.
Proof.
  intros H. cbn [PlanDist.enforce]. now rewrite (proj2 (Nat.ltb_lt _ _) H).
Qed.

(** The loop of the bundle: each round appends one empty waypoint, so two
    calls per missing waypoint are enough for it to come back. *)
Lemma dist_enforce_pads n : forall p k,
  (2 - length (PlanDist._waypoints p) <= n)%nat ->
  exists p', PlanDist.enforce (2 * n + k) p = Some p' /\
             PlanDist._waypoints p' = pad_to_two (PlanDist._waypoints p).
Proof.
  induction n as [|n IH]; intros p k Hn.
  - exists p. rewrite dist_enforce_returns by lia.
    now rewrite pad_to_two_id by lia.
  - destruct (Nat.lt_ge_cases (length (PlanDist._waypoints p)) 2) as [Hlt|Hge].
    + replace (2 * S n + k)%nat with (S (S (2 * n + k))) by lia.
      rewrite dist_enforce_S, dist_spliceWaypoints_S by exact Hlt.
      cbn [JS.toInteger map PlanDist.toWaypoint].
      rewrite splice_at_end_one.
      destruct (IH (PlanDist.set_waypoints p (PlanDist._waypoints p ++ [emptyWaypoint])) k)
        as (p2 & E2 & W2).
      { cbn. rewrite length_app. cbn. lia. }
      fold emptyWaypoint. rewrite E2.
      eexists. split.
      * apply dist_enforce_returns. rewrite dist_waypoints_fireChanged, W2.
        apply pad_to_two_length.
      * rewrite dist_waypoints_fireChanged, W2.
        cbn [PlanDist._waypoints PlanDist.set_waypoints].
        now apply pad_to_two_snoc.
    + exists p. rewrite dist_enforce_returns by lia.
      now rewrite pad_to_two_id by lia.
Qed.

(** Every call of the bundle's [spliceWaypoints] returns (five nested calls
    are always enough), and it leaves the spliced list padded to two. *)
Lemma dist_spliceWaypoints_pads fuel p arg0 arg1 rest :
  (5 <= fuel)%nat ->
  exists p', PlanDist.spliceWaypoints fuel p arg0 arg1 rest = Some p' /\
    PlanDist._waypoints p' =
      pad_to_two (JS.splice (PlanDist._waypoints p) (JS.toInteger arg0) (JS.toInteger arg1)
                    (map PlanDist.toWaypoint rest)) /\
    (2 <= length (PlanDist._waypoints p'))%nat.
Proof.
  intros Hf. destruct fuel as [|f]; [lia|].
  rewrite dist_spliceWaypoints_S.
  set (p1 := PlanDist.set_waypoints p _).
  destruct (dist_enforce_pads 2 p1 (f - 4)) as (p2 & E2 & W2); [lia|].
  replace (2 * 2 + (f - 4))%nat with f in E2 by lia.
  rewrite E2. eexists. split; [reflexivity|].
  rewrite dist_waypoints_fireChanged, W2. split; [reflexivity|].
  apply pad_to_two_length.
Qed.

(** Calls of the bundle's [spliceWaypoints] and rounds of its loop only add
    to the events fired. *)
Lemma dist_fired_extends fuel :
  (forall p p', PlanDist.enforce fuel p = Some p' ->
                exists more, PlanDist.fired p' = PlanDist.fired p ++ more) /\
  (forall p arg0 arg1 rest p',
      PlanDist.spliceWaypoints fuel p arg0 arg1 rest = Some p' ->
      exists more, PlanDist.fired p' = PlanDist.fired p ++ more).
Proof.
  induction fuel as [|f [IHe IHs]]; split.
  - intros p p'. cbn [PlanDist.enforce].
    destruct (length (PlanDist._waypoints p) <? 2)%nat; [discriminate|].
    intros [= <-]. exists []. now rewrite app_nil_r.
  - discriminate.
  - intros p p'. cbn [PlanDist.enforce].
    destruct (length (PlanDist._waypoints p) <? 2)%nat.
    + destruct (PlanDist.spliceWaypoints f p _ _ _) as [p1|] eqn:E1; [|discriminate].
      intros E2. destruct (IHs _ _ _ _ _ E1) as [m1 H1].
      destruct (IHe _ _ E2) as [m2 H2].
      exists (m1 ++ m2). now rewrite H2, H1, app_assoc.
    + intros [= <-]. exists []. now rewrite app_nil_r.
  - intros p arg0 arg1 rest p'. rewrite dist_spliceWaypoints_S.
    destruct (PlanDist.enforce f _) as [p2|] eqn:E2; [|discriminate].
    intros H. apply (inj Some) in H. subst p'.
    destruct (IHe _ _ E2) as [m2 H2]. cbn in H2.
    unfold PlanDist._fireChanged, PlanDist._updateMarkers.
    destruct (PlanDist._map p2); cbn; rewrite H2, <- !app_assoc; eexists; reflexivity.
Qed.

(** The events of a call of the bundle's [spliceWaypoints]: whatever the loop
    fired, then the changed event and the spliced event. *)
Lemma dist_spliceWaypoints_events fuel p arg0 arg1 rest :
  (5 <= fuel)%nat ->
  exists p' earlier,
    PlanDist.spliceWaypoints fuel p arg0 arg1 rest = Some p' /\
    PlanDist.fired p' =
      PlanDist.fired p ++ earlier ++
        [PlanDist.waypointschanged (PlanDist._waypoints p');
         PlanDist.waypointsspliced (PlanDist.ArgNumber arg0) (PlanDist.ArgNumber arg1)
           (map PlanDist.ArgWaypoint (map PlanDist.toWaypoint rest))].
Proof.
  intros Hf. destruct fuel as [|f]; [lia|].
  rewrite dist_spliceWaypoints_S.
  set (p1 := PlanDist.set_waypoints p _).
  destruct (dist_enforce_pads 2 p1 (f - 4)) as (p2 & E2 & W2); [lia|].
  replace (2 * 2 + (f - 4))%nat with f in E2 by lia.
  rewrite E2.
  destruct (proj1 (dist_fired_extends f) _ _ E2) as [earlier He].
  eexists _, earlier. split; [reflexivity|].
  unfold PlanDist._fireChanged, PlanDist._updateMarkers.
  destruct (PlanDist._map p2); cbn; rewrite He, <- !app_assoc; reflexivity.
Qed.

(** The events of a call of the TypeScript [spliceWaypoints] that returns. *)
Lemma ts_spliceWaypoints_events fuel p start dc items :
  (2 <= length (JS.splice (PlanTs.waypoints p) start dc items))%nat ->
  PlanTs.fired <$> PlanTs.spliceWaypoints (S fuel) p start dc items =
  Some (PlanTs.fired p
          ++ PlanTs.waypointschanged (JS.splice (PlanTs.waypoints p) start dc items)
          :: (if start =? 0 then []
              else [PlanTs.waypointsspliced start (Some dc) items])).
Proof.
  intros H. rewrite ts_spliceWaypoints_returns by exact H.
  unfold PlanTs.fireChanged, PlanTs.updateMarkers, JS.truthy_number.
  cbn [PlanTs._map PlanTs.set_waypoints].
  destruct (PlanTs._map p), (start =? 0); cbn; rewrite <- ?app_assoc; reflexivity.
Qed.

(** In [src/plan.ts], removing the second of two waypoints,
    [spliceWaypoints(1, 1)], never returns: no bound on the number of calls is
    enough, because the call made to restore the floor inserts nothing.  The
    bundle's plan answers the same call with the remaining waypoint followed
    by one synthesized empty waypoint. *)
Lemma ts_floor_not_restored :
  (forall fuel, PlanTs.spliceWaypoints fuel ts_two 1 1 [] = None) /\
  PlanDist._waypoints <$> PlanDist.spliceWaypoints 5 dist_two (Some 1) (Some 1) []
  = Some [berlin; emptyWaypoint].
Proof.
  split.
  - intros fuel. apply (proj2 (ts_enforce_never_returns fuel)). vm_compute. lia.
  - reflexivity.
Qed.

(** C1 (the floor of two waypoints).  The bundle's plan keeps the floor:
    every call of its [spliceWaypoints] and [setWaypoints] returns, with the
    spliced list padded with synthesized empty waypoints up to two.  The plan
    of [src/plan.ts] does not: a call returns exactly when the splice itself
    leaves two waypoints or more, with the spliced list as it is, and a call
    whose splice leaves fewer appends nothing and never returns, whatever the
    bound on the number of nested calls.  So [new Plan([berlin])], that is
    [setWaypoints([berlin])] on the empty list, and [spliceWaypoints(1, 1)] on
    two waypoints never return there, where the bundle answers both with the
    one waypoint followed by a synthesized empty waypoint. *)
Theorem ts_splice_does_not_pad :
  (forall fuel, PlanTs.setWaypoints fuel ts_new [berlin] = None) /\
  (forall fuel, PlanTs.spliceWaypoints fuel ts_two 1 1 [] = None) /\
  PlanDist._waypoints <$> PlanDist.setWaypoints 5 dist_new [PlanDist.ItemWaypoint berlin]
    = Some [berlin; emptyWaypoint] /\
  PlanDist._waypoints <$> PlanDist.spliceWaypoints 5 dist_two (Some 1) (Some 1) []
    = Some [berlin; emptyWaypoint] /\
  (forall fuel pt start dc items,
     PlanTs.waypoints <$> PlanTs.spliceWaypoints (S fuel) pt start dc items =
       if (length (JS.splice (PlanTs.waypoints pt) start dc items) <? 2)%nat
       then None
       else Some (JS.splice (PlanTs.waypoints pt) start dc items)) /\
  (forall fuel pd arg0 arg1 rest,
     exists pd',
       PlanDist.spliceWaypoints (5 + fuel) pd arg0 arg1 rest = Some pd' /\
       PlanDist._waypoints pd' =
         pad_to_two (JS.splice (PlanDist._waypoints pd) (JS.toInteger arg0)
                       (JS.toInteger arg1) (map PlanDist.toWaypoint rest)) /\
       (2 <= length (PlanDist._waypoints pd'))%nat) /\
  (forall fuel pd rest,
     exists pd',
       PlanDist.setWaypoints (5 + fuel) pd rest = Some pd' /\
       PlanDist._waypoints pd' = pad_to_two (map PlanDist.toWaypoint rest) /\
       (2 <= length (PlanDist._waypoints pd'))%nat).
Proof.
  split; [|split; [|split; [|split; [|split; [|split]]]]].
  - intros fuel. unfold PlanTs.setWaypoints.
    apply (proj2 (ts_enforce_never_returns fuel)). vm_compute. lia.
  - intros fuel. apply (proj2 (ts_enforce_never_returns fuel)). vm_compute. lia.
  - reflexivity.
  - reflexivity.
  - intros fuel pt start dc items.
    destruct (Nat.ltb_spec (length (JS.splice (PlanTs.waypoints pt) start dc items)) 2)
      as [Hlt|Hge].
    + now rewrite (proj2 (ts_enforce_never_returns (S fuel)) _ _ _ _ Hlt).
    + rewrite ts_spliceWaypoints_returns by exact Hge.
      cbn [fmap option_fmap option_map]. now rewrite ts_waypoints_fireChanged.
  - intros fuel pd arg0 arg1 rest. apply dist_spliceWaypoints_pads. lia.
  - intros fuel pd rest. unfold PlanDist.setWaypoints.
    destruct (dist_spliceWaypoints_pads (5 + fuel) pd (Some 0)
                (Some (Z.of_nat (length (PlanDist._waypoints pd)))) rest)
      as (pd' & E & W & L); [lia|].
    exists pd'. cbn [JS.toInteger] in W. rewrite splice_all in W. auto.
Qed.

(** C2 (termination of the call that restores the floor).  In [src/plan.ts],
    [new Plan([])] calls [setWaypoints([])] on the empty list, and that call
    does not return within any number of nested calls. *)
Theorem ts_setWaypoints_empty_never_returns :
  forall fuel, PlanTs.setWaypoints fuel ts_new [] = None.
Proof.
  intros fuel. unfold PlanTs.setWaypoints.
  apply (proj2 (ts_enforce_never_returns fuel)). vm_compute. lia.
Qed.

(** C8, as stated, fails on the bundle: there a splice whose first argument
    is index 0 fires the spliced event after the changed event. *)
Lemma dist_splice_at_zero_fires_spliced :
  PlanDist.fired <$>
    PlanDist.spliceWaypoints 5 dist_two (Some 0) (Some 0) [PlanDist.ItemWaypoint leipzig]
  = Some [PlanDist.waypointschanged [leipzig; berlin; potsdam];
          PlanDist.waypointsspliced (PlanDist.ArgNumber (Some 0)) (PlanDist.ArgNumber (Some 0))
            [PlanDist.ArgWaypoint leipzig]].
Proof. reflexivity. Qed.

(** C8 (the events of a splice), as amended.  When the splice leaves at
    least two waypoints, the TypeScript plan fires the changed event and then
    the spliced event exactly when the start index is not 0; the bundle's plan
    decides on the number of arguments instead, so every call of its
    [spliceWaypoints] ends with the changed event followed by the spliced
    event, whatever the start index. *)
Theorem splice_events fuel (pt : PlanTs.Plan) (pd : PlanDist.Plan) start dc items :
  (2 <= length (JS.splice (PlanTs.waypoints pt) start dc items))%nat ->
  PlanTs.fired <$> PlanTs.spliceWaypoints (S fuel) pt start dc items =
    Some (PlanTs.fired pt
            ++ PlanTs.waypointschanged (JS.splice (PlanTs.waypoints pt) start dc items)
            :: (if start =? 0 then []
                else [PlanTs.waypointsspliced start (Some dc) items]))
  /\ exists pd' earlier,
       PlanDist.spliceWaypoints (5 + fuel) pd (Some start) (Some dc)
         (map PlanDist.ItemWaypoint items) = Some pd' /\
       PlanDist.fired pd' =
         PlanDist.fired pd ++ earlier ++
           [PlanDist.waypointschanged (PlanDist._waypoints pd');
            PlanDist.waypointsspliced (PlanDist.ArgNumber (Some start))
              (PlanDist.ArgNumber (Some dc)) (map PlanDist.ArgWaypoint items)].
Proof.
  intros H. split.
  - now apply ts_spliceWaypoints_events.
  - destruct (dist_spliceWaypoints_events (5 + fuel) pd (Some start) (Some dc)
                (map PlanDist.ItemWaypoint items)) as (pd' & earlier & E & F); [lia|].
    exists pd', earlier. split; [exact E|].
    rewrite F. now rewrite !map_map.
Qed.

Lemma splice_events_witness :
  PlanTs.fired <$> PlanTs.spliceWaypoints 1 ts_two 0 0 [leipzig] =
    Some [PlanTs.waypointschanged [leipzig; berlin; potsdam]]
  /\ PlanTs.fired <$> PlanTs.spliceWaypoints 1 ts_two 1 0 [leipzig] =
    Some [PlanTs.waypointschanged [berlin; leipzig; potsdam];
          PlanTs.waypointsspliced 1 (Some 0) [leipzig]].
Proof.
  split.
  - apply (splice_events 0 ts_two dist_two 0 0 [leipzig]). vm_compute. lia.
  - apply (splice_events 0 ts_two dist_two 1 0 [leipzig]). vm_compute. lia.
Defined.

(** ** The routing control: requests and their counter *)

Section ControlFacts.

Context {Route : Type}.
Implicit Types (st : Control.State Route) (tr : list (Control.Action Route)).

Lemma route_increments st opts :
  Control._requestCount (fst (Control.route st opts)) = Control._requestCount st + 1.
Proof.
  destruct st as [c [h|] [|] p e]; unfold Control.route; cbn;
    destruct (forallb _ p); reflexivity.
Qed.

Lemma route_tags st opts st' r :
  Control.route st opts = (st', Some r) ->
  Control.ts r = Control._requestCount st + 1 /\
  Control.options r = match opts with Some o => o | None => Control.noOptions end.
Proof.
  destruct st as [c [h|] [|] p e]; unfold Control.route; cbn;
    destruct (forallb _ p); intros [= <- <-]; cbn; auto.
Qed.

Lemma callback_keeps_count r err routes st :
  Control._requestCount (fst (Control.callback r err routes st)) = Control._requestCount st.
Proof.
  unfold Control.callback.
  destruct (Control.opt_callback _); [reflexivity|].
  cbn [Control.set_pending Control._requestCount].
  destruct (Control.ts r =? Control._requestCount st); [|reflexivity].
  destruct err as [e|]; [destruct (negb _)|]; try reflexivity;
    destruct routes; try reflexivity; destruct (negb _); reflexivity.
Qed.

(** The counter counts the calls of [route]: nothing else changes it. *)
Lemma run_counts tr : forall st,
  Control._requestCount (Control.run st tr) =
  Control._requestCount st + Z.of_nat (length (List.filter Control.isDoRoute tr)).
Proof.
  induction tr as [|a tr IH]; intros st; cbn [Control.run fold_left].
  - cbn. lia.
  - fold (Control.run (Control.step st a) tr). rewrite IH.
    destruct a as [opts|w|r err routes]; cbn [Control.step List.filter Control.isDoRoute].
    + rewrite route_increments. cbn [length]. lia.
    + cbn. lia.
    + rewrite callback_keeps_count. lia.
Qed.

Lemma no_route_in tr :
  existsb Control.isDoRoute tr = false -> List.filter Control.isDoRoute tr = [].
Proof.
  induction tr as [|a tr IH]; [reflexivity|]. cbn.
  destruct (Control.isDoRoute a); [discriminate|]. exact IH.
Qed.

Lemma some_route_in tr :
  existsb Control.isDoRoute tr = true -> (0 < length (List.filter Control.isDoRoute tr))%nat.
Proof.
  induction tr as [|a tr IH]; [discriminate|]. cbn.
  destruct (Control.isDoRoute a); cbn; [lia|]. exact IH.
Qed.

(** C3 (stale responses), as amended.  Every call of [route] raises the
    counter by one and tags its request with the new value.  When the callback
    of a request made without [options.callback] fires, the control looks at
    the counter: after any later call of [route] the answer is dropped (the
    control only forgets the pending handle), and otherwise the lines are
    cleared and the answer is worked on.  When the callback of a request made
    with [options.callback] fires, the control forgets the pending handle and
    hands the answer to that callback, whatever the counter has become. *)
Theorem stale_response_discarded st opts st1 r tr err routes :
  Control.route st opts = (st1, Some r) ->
  Control.ts r = Control._requestCount st + 1 /\
  Control._requestCount st1 = Control.ts r /\
  Control._requestCount (Control.run st1 tr)
    = Control.ts r + Z.of_nat (length (List.filter Control.isDoRoute tr)) /\
  match Control.opt_callback (Control.options r) with
  | Some cb =>
      Control.callback r err routes (Control.run st1 tr)
      = (Control.emit (Control.set_pending (Control.run st1 tr) None)
           [Control.CallOptionsCallback cb err routes],
         Control.Returned)
  | None =>
      if existsb Control.isDoRoute tr
      then Control.callback r err routes (Control.run st1 tr)
           = (Control.set_pending (Control.run st1 tr) None, Control.Returned)
      else exists more,
           Control.effects (fst (Control.callback r err routes (Control.run st1 tr)))
           = Control.effects (Control.run st1 tr)
               ++ Control.ClearLines :: Control.ClearAlts :: more
  end.
Proof.
  intros Hr.
  pose proof (route_tags _ _ _ _ Hr) as [Hts _].
  pose proof (route_increments st opts) as Hinc. rewrite Hr in Hinc. cbn in Hinc.
  pose proof (run_counts tr st1) as Hrun.
  split; [exact Hts|]. split; [lia|]. split; [lia|].
  unfold Control.callback.
  destruct (Control.opt_callback (Control.options r)) as [cb|]; [reflexivity|].
  cbn [Control.set_pending Control._requestCount].
  destruct (existsb Control.isDoRoute tr) eqn:Hex.
  - apply some_route_in in Hex.
    replace (Control.ts r =? _) with false; [reflexivity|].
    symmetry. apply Z.eqb_neq. lia.
  - rewrite (no_route_in _ Hex) in Hrun. cbn in Hrun.
    replace (Control.ts r =? _) with true by (symmetry; apply Z.eqb_eq; lia).
    destruct err as [e|]; [destruct (negb _)|];
      try (destruct routes as [rs|]; [destruct (negb _)|]);
      cbn; rewrite <- ?app_assoc; eexists; reflexivity.
Qed.

End ControlFacts.

Lemma stale_response_discarded_witness :
  Control.callback (Route := OSRMv1.Route)
    {| Control.ts := 1; Control.wps := [berlin; potsdam]; Control.options := Control.noOptions |}
    None (Some [])
    (Control.run (fst (Control.route control_idle None)) [Control.DoRoute None])
  = (Control.set_pending
       (Control.run (fst (Control.route control_idle None)) [Control.DoRoute None]) None,
     Control.Returned).
Proof.
  exact (proj2 (proj2 (proj2
           (stale_response_discarded control_idle None _ _ [Control.DoRoute None]
              None (Some []) eq_refl)))).
Defined.

(** C3, as stated, fails for a request made with [options.callback]: the
    drag handler's request is followed by another request, and its answer is
    still handed to its callback, which draws the line. *)
Lemma stale_drag_response_reaches_its_callback :
  Control.route control_idle (Some drag_options)
    = (control_after_drag_request, Some drag_request) /\
  Control.ts drag_request <> Control._requestCount control_after_second_request /\
  Control.effects
    (fst (Control.callback drag_request None (Some []) control_after_second_request))
  = Control.effects control_after_second_request
      ++ [Control.CallOptionsCallback Control.updateLineCallback None (Some [])].
Proof.
  split; [reflexivity|]. split; [vm_compute; discriminate|reflexivity].
Qed.

(** ** The route client: one call of [route] *)

Section CallFacts.

Variable polylinePrecision : Z.
Variable stepToText : OSRMv1.Step -> nat -> nat -> option string.
Variable callback_throws : OSRMv1.CallbackArg -> option string.

#[local] Abbreviation invoke := (OSRMv1.invoke callback_throws).
#[local] Abbreviation invoke_last := (OSRMv1.invoke_last callback_throws).
#[local] Abbreviation _routeDone := (OSRMv1._routeDone polylinePrecision stepToText callback_throws).
#[local] Abbreviation on_response := (OSRMv1.on_response polylinePrecision stepToText callback_throws).
#[local] Abbreviation on_timeout := (OSRMv1.on_timeout callback_throws).
#[local] Abbreviation handle := (OSRMv1.handle polylinePrecision stepToText callback_throws).
#[local] Abbreviation execute := (OSRMv1.execute polylinePrecision stepToText callback_throws).

Lemma invoke_adds c a :
  OSRMv1.invoked (fst (invoke c a)) = OSRMv1.invoked c ++ [a] /\
  OSRMv1.timedOut (fst (invoke c a)) = OSRMv1.timedOut c /\
  OSRMv1.timer (fst (invoke c a)) = OSRMv1.timer c.
Proof. now cbn. Qed.

Lemma invoke_last_adds c a :
  OSRMv1.invoked (invoke_last c a) = OSRMv1.invoked c ++ [a] /\
  OSRMv1.timedOut (invoke_last c a) = OSRMv1.timedOut c /\
  OSRMv1.timer (invoke_last c a) = OSRMv1.timer c.
Proof. unfold OSRMv1.invoke_last. cbn. now destruct (callback_throws a). Qed.

(** [_routeDone] calls the callback at most once, as its last action, and
    changes neither the timer nor the flag. *)
Lemma routeDone_calls response c :
  let c' := fst (_routeDone response c) in
  OSRMv1.timedOut c' = OSRMv1.timedOut c /\ OSRMv1.timer c' = OSRMv1.timer c /\
  ((OSRMv1.invoked c' = OSRMv1.invoked c /\
    exists ex, snd (_routeDone response c) = OSRMv1.Thrown ex) \/
   (exists a, OSRMv1.invoked c' = OSRMv1.invoked c ++ [a] /\
              snd (_routeDone response c) =
                match callback_throws a with
                | Some ex => OSRMv1.Thrown ex
                | None => OSRMv1.Returned
                end /\
              match a with
              | OSRMv1.CbError status _ =>
                  status = OSRMv1.code response /\ OSRMv1.is_Ok (OSRMv1.code response) = false
              | OSRMv1.CbRoutes _ => OSRMv1.is_Ok (OSRMv1.code response) = true
              end)).
Proof.
  cbv zeta. unfold OSRMv1._routeDone.
  destruct (OSRMv1.is_Ok (OSRMv1.code response)) eqn:Hok; cbn [negb].
  - destruct (OSRMv1.convertResponse _ _ _ _) as [[[vias actual] converted]|];
      [|cbn; do 2 (split; [reflexivity|]); left; eauto].
    destruct (OSRMv1._saveHintData _ _) as [hints [|ex]];
      cbn; do 2 (split; [reflexivity|]); [right|left; eauto].
    eexists. split; [reflexivity|]. split; [reflexivity|]. reflexivity.
  - cbn. do 2 (split; [reflexivity|]). right.
    eexists. split; [reflexivity|]. split; [reflexivity|]. split; reflexivity.
Qed.

(** What one answer of the transport does to a call that has not timed out:
    the callback is called once, and once more with status -3 if that call
    threw inside [_routeDone]. *)
Lemma on_response_calls t c :
  OSRMv1.timedOut c = false ->
  OSRMv1.timedOut (on_response t c) = false /\ OSRMv1.timer (on_response t c) = false /\
  exists a again,
    OSRMv1.invoked (on_response t c) = OSRMv1.invoked c ++ a :: again /\
    (again = [] \/
     exists ex, callback_throws a = Some ex /\
                again = [OSRMv1.CbError (OSRMv1.JsNumber (-3)) (Some ex)]).
Proof.
  intros Hto. unfold OSRMv1.on_response.
  cbn [OSRMv1.clearTimeout OSRMv1.timedOut]. rewrite Hto. cbn [negb].
  set (c0 := OSRMv1.clearTimeout c).
  assert (H0 : OSRMv1.timedOut c0 = false /\ OSRMv1.timer c0 = false
               /\ OSRMv1.invoked c0 = OSRMv1.invoked c) by (now cbn).
  destruct H0 as (T0 & M0 & I0). fold c0.
  assert (Hlast : forall a,
    OSRMv1.timedOut (invoke_last c0 a) = false /\ OSRMv1.timer (invoke_last c0 a) = false /\
    exists a' again,
      OSRMv1.invoked (invoke_last c0 a) = OSRMv1.invoked c ++ a' :: again /\
      (again = [] \/
       exists ex, callback_throws a' = Some ex /\
                  again = [OSRMv1.CbError (OSRMv1.JsNumber (-3)) (Some ex)])).
  { intros a. destruct (invoke_last_adds c0 a) as (I & T & M).
    rewrite T, M, I, I0. repeat split; auto. exists a, []. auto. }
  destruct t as [message | [ex | | data]]; try apply Hlast.
  destruct (routeDone_calls data c0) as (T & M & Hcalls). cbv zeta in *.
  destruct (_routeDone data c0) as [c1 o] eqn:E. cbn [fst snd] in *.
  destruct Hcalls as [(I & ex & ->) | (a & I & -> & _)].
  - destruct (invoke_last_adds c1 (OSRMv1.CbError (OSRMv1.JsNumber (-3)) (Some ex)))
      as (I' & T' & M').
    rewrite T', M', I', T, M, I, I0. repeat split; auto. eexists _, []. auto.
  - destruct (callback_throws a) as [ex|] eqn:Ha.
    + destruct (invoke_last_adds c1 (OSRMv1.CbError (OSRMv1.JsNumber (-3)) (Some ex)))
        as (I' & T' & M').
      rewrite T', M', I', T, M, I, I0, <- app_assoc. repeat split; auto.
      exists a. eexists. split; [reflexivity|]. right. eauto.
    + rewrite T, M, I, I0. repeat split; auto. exists a, []. auto.
Qed.

(** Once the timer has fired, nothing calls the callback any more, and an
    answer of the transport aborts the request. *)
Lemma handle_after_timeout c e :
  OSRMv1.timedOut c = true -> OSRMv1.timer c = false ->
  OSRMv1.timedOut (handle c e) = true /\ OSRMv1.timer (handle c e) = false /\
  OSRMv1.invoked (handle c e) = OSRMv1.invoked c /\
  OSRMv1.aborted (handle c e) = OSRMv1.aborted c || OSRMv1.isResponds e.
Proof.
  intros T M. destruct e as [|t]; cbn [OSRMv1.handle OSRMv1.isResponds].
  - unfold OSRMv1.on_timeout. rewrite M. rewrite orb_false_r. auto.
  - unfold OSRMv1.on_response. cbn [OSRMv1.clearTimeout OSRMv1.timedOut].
    rewrite T. cbn. rewrite orb_true_r. auto.
Qed.

Lemma execute_after_timeout events : forall c,
  OSRMv1.timedOut c = true -> OSRMv1.timer c = false ->
  OSRMv1.invoked (execute c events) = OSRMv1.invoked c /\
  OSRMv1.aborted (execute c events) = OSRMv1.aborted c || existsb OSRMv1.isResponds events.
Proof.
  induction events as [|e events IH]; intros c T M; cbn [OSRMv1.execute fold_left existsb].
  - now rewrite orb_false_r.
  - destruct (handle_after_timeout c e T M) as (T' & M' & I' & A').
    fold (execute (handle c e) events).
    destruct (IH _ T' M') as (I & A). rewrite I, A, I', A'. now rewrite orb_assoc.
Qed.

(** If no answer arrives before the timer fires, the callback is called
    exactly once, with the timeout error of status -1, and an answer that
    arrives afterwards aborts the request without another call. *)
Lemma timeout_reported_once waypoints options hints events :
  OSRMv1.invoked (execute (OSRMv1.start waypoints options hints)
                          (OSRMv1.TimerFires :: events))
  = [OSRMv1.CbError (OSRMv1.JsNumber (-1)) (Some "OSRM request timed out.")] /\
  OSRMv1.aborted (execute (OSRMv1.start waypoints options hints)
                          (OSRMv1.TimerFires :: events))
  = existsb OSRMv1.isResponds events.
Proof.
  cbn [OSRMv1.execute fold_left OSRMv1.handle].
  set (c := on_timeout _).
  assert (H : OSRMv1.timedOut c = true /\ OSRMv1.timer c = false /\
              OSRMv1.invoked c = [OSRMv1.CbError (OSRMv1.JsNumber (-1))
                                    (Some "OSRM request timed out.")] /\
              OSRMv1.aborted c = false).
  { subst c. unfold OSRMv1.on_timeout, OSRMv1.start, OSRMv1.invoke_last. cbn.
    destruct (callback_throws _); cbn; auto. }
  destruct H as (T & M & I & A).
  destruct (execute_after_timeout events c T M) as (I' & A').
  fold (execute c events). now rewrite I', A', I, A.
Qed.

(** A timer that was cleared does nothing, so without an answer of the
    transport nothing happens to such a call. *)
Lemma execute_cleared events : forall c,
  OSRMv1.timer c = false -> existsb OSRMv1.isResponds events = false ->
  execute c events = c.
Proof.
  induction events as [|e events IH]; intros c M H; [reflexivity|].
  cbn [OSRMv1.execute fold_left]. fold (execute (handle c e) events).
  destruct e as [|t]; [|discriminate]. cbn in H.
  cbn [OSRMv1.handle]. unfold OSRMv1.on_timeout. rewrite M. now apply IH.
Qed.

(** With a callback that returns normally and a transport that answers at
    most once, the callback is called at most once. *)
Lemma at_most_once_if_callback_returns events : forall c,
  (forall a, callback_throws a = None) ->
  OSRMv1.timedOut c = false ->
  (length (List.filter OSRMv1.isResponds events) <= 1)%nat ->
  (length (OSRMv1.invoked (execute c events)) <= S (length (OSRMv1.invoked c)))%nat.
Proof.
  induction events as [|e events IH]; intros c Hret T Hone; [cbn; lia|].
  cbn [OSRMv1.execute fold_left]. fold (execute (handle c e) events).
  destruct e as [|t]; cbn [OSRMv1.handle List.filter OSRMv1.isResponds length] in *.
  - unfold OSRMv1.on_timeout. destruct (OSRMv1.timer c) eqn:M; [|now apply IH].
    set (c' := invoke_last _ _).
    assert (H : OSRMv1.timedOut c' = true /\ OSRMv1.timer c' = false /\
                length (OSRMv1.invoked c') = S (length (OSRMv1.invoked c))).
    { subst c'. unfold OSRMv1.invoke_last. cbn. rewrite Hret. cbn.
      rewrite length_app. cbn. repeat split; lia. }
    destruct H as (T' & M' & L').
    destruct (execute_after_timeout events c' T' M') as (I & _). rewrite I. lia.
  - destruct (on_response_calls t c T) as (T' & M' & a & again & I & Hagain).
    rewrite execute_cleared; [| exact M' |].
    + rewrite I. destruct Hagain as [-> | (ex & Hex & _)].
      * rewrite length_app. cbn. lia.
      * now rewrite Hret in Hex.
    + destruct (existsb OSRMv1.isResponds events) eqn:Hex; [|reflexivity].
      exfalso. clear - Hone Hex.
      induction events as [|e events IH]; [discriminate|].
      cbn in *. destruct (OSRMv1.isResponds e); cbn in *; [lia|]. now apply IH.
Qed.

End CallFacts.

(** C4, as stated, fails for a callback that throws: it is called twice
    for one answer.  [_routeDone] hands it the error of a "NoRoute" answer,
    the exception is caught by the handler around [_routeDone], and the handler
    calls the callback again with status -3. *)
Lemma throwing_callback_called_twice :
  OSRMv1.invoked
    (OSRMv1.execute 5 maneuver_text throwing_callback fresh_call
       [OSRMv1.Responds (OSRMv1.TransportText (OSRMv1.ParsedObject no_route_response))])
  = [OSRMv1.CbError (OSRMv1.JsString "NoRoute") None;
     OSRMv1.CbError (OSRMv1.JsNumber (-3)) (Some "Error: boom")].
Proof. reflexivity. Qed.

(** C4 (calls of the callback), as amended.  In an execution of one call of
    [route] in which the transport answers at most once: if the timer fires
    first, the callback is called exactly once, with the timeout error of
    status -1, and an answer that arrives later aborts the request without
    another call; in every case the callback is called at most once, except
    that a callback which throws while it is handed the outcome of a parsed
    answer is called once more, with status -3 and the exception. *)
Theorem callback_calls polylinePrecision stepToText callback_throws
    waypoints options hints events :
  (length (List.filter OSRMv1.isResponds events) <= 1)%nat ->
  (forall later, events = OSRMv1.TimerFires :: later ->
     OSRMv1.invoked
       (OSRMv1.execute polylinePrecision stepToText callback_throws
          (OSRMv1.start waypoints options hints) events)
     = [OSRMv1.CbError (OSRMv1.JsNumber (-1)) (Some "OSRM request timed out.")] /\
     OSRMv1.aborted
       (OSRMv1.execute polylinePrecision stepToText callback_throws
          (OSRMv1.start waypoints options hints) events)
     = existsb OSRMv1.isResponds later) /\
  (OSRMv1.invoked
     (OSRMv1.execute polylinePrecision stepToText callback_throws
        (OSRMv1.start waypoints options hints) events) = [] \/
   exists a,
     OSRMv1.invoked
       (OSRMv1.execute polylinePrecision stepToText callback_throws
          (OSRMv1.start waypoints options hints) events) = [a] \/
     exists ex,
       callback_throws a = Some ex /\
       OSRMv1.invoked
         (OSRMv1.execute polylinePrecision stepToText callback_throws
            (OSRMv1.start waypoints options hints) events)
       = [a; OSRMv1.CbError (OSRMv1.JsNumber (-3)) (Some ex)]).
Proof.
  intros Hone. split.
  - intros later ->. apply timeout_reported_once.
  - destruct events as [|[|t] later].
    + now left.
    + right. eexists. left. apply timeout_reported_once.
    + right. cbn [OSRMv1.execute fold_left OSRMv1.handle].
      destruct (on_response_calls polylinePrecision stepToText callback_throws t
                  (OSRMv1.start waypoints options hints) eq_refl)
        as (_ & M & a & again & I & Hagain).
      fold (OSRMv1.execute polylinePrecision stepToText callback_throws
              (OSRMv1.on_response polylinePrecision stepToText callback_throws t
                 (OSRMv1.start waypoints options hints)) later).
      rewrite execute_cleared; [| exact M |].
      * exists a. rewrite I. cbn [OSRMv1.start OSRMv1.invoked app].
        destruct Hagain as [-> | (ex & Hex & ->)]; [now left | right; eauto].
      * cbn [List.filter OSRMv1.isResponds length] in Hone.
        destruct (existsb OSRMv1.isResponds later) eqn:Hex; [|reflexivity].
        exfalso. clear - Hone Hex.
        induction later as [|e later IH]; [discriminate|].
        cbn in *. destruct (OSRMv1.isResponds e); cbn in *; [lia|]. now apply IH.
Qed.

Lemma callback_calls_witness :
  OSRMv1.invoked
    (OSRMv1.execute 5 maneuver_text returning_callback fresh_call
       [OSRMv1.TimerFires;
        OSRMv1.Responds (OSRMv1.TransportText (OSRMv1.ParsedObject no_route_response))])
  = [OSRMv1.CbError (OSRMv1.JsNumber (-1)) (Some "OSRM request timed out.")] /\
  OSRMv1.aborted
    (OSRMv1.execute 5 maneuver_text returning_callback fresh_call
       [OSRMv1.TimerFires;
        OSRMv1.Responds (OSRMv1.TransportText (OSRMv1.ParsedObject no_route_response))])
  = true.
Proof.
  refine (proj1 (callback_calls 5 maneuver_text returning_callback [berlin; potsdam]
                   {| OSRMv1.geometryOnly := false; OSRMv1.simplifyGeometry := false |} []
                   [OSRMv1.TimerFires;
                    OSRMv1.Responds
                      (OSRMv1.TransportText (OSRMv1.ParsedObject no_route_response))]
                   _) _ eq_refl).
  cbn. lia.
Defined.

(** C5 (answers that are not "Ok").  When the handler is given a parsed
    answer whose code is not the string "Ok" (and the call has not timed out),
    the callback is called with an error whose status is that code and without
    routes; the only further call is the one with status -3 made if the
    callback threw.  No routes are handed over. *)
Theorem not_Ok_is_an_error polylinePrecision stepToText callback_throws response c :
  OSRMv1.timedOut c = false ->
  OSRMv1.code response <> OSRMv1.JsString "Ok" ->
  OSRMv1.invoked
    (OSRMv1.on_response polylinePrecision stepToText callback_throws
       (OSRMv1.TransportText (OSRMv1.ParsedObject response)) c)
  = OSRMv1.invoked c
      ++ OSRMv1.CbError (OSRMv1.code response) None
      :: match callback_throws (OSRMv1.CbError (OSRMv1.code response) None) with
         | Some ex => [OSRMv1.CbError (OSRMv1.JsNumber (-3)) (Some ex)]
         | None => []
         end.
Proof.
  intros T Hcode.
  assert (Hok : OSRMv1.is_Ok (OSRMv1.code response) = false).
  { destruct (OSRMv1.code response) as [| |b|q|s]; try reflexivity.
    cbn. apply String.eqb_neq. congruence. }
  unfold OSRMv1.on_response, OSRMv1._routeDone.
  cbn [OSRMv1.clearTimeout OSRMv1.timedOut]. rewrite T, Hok. cbn [negb].
  unfold OSRMv1.invoke_last. cbn.
  destruct (callback_throws (OSRMv1.CbError (OSRMv1.code response) None)) as [ex|]; cbn.
  - destruct (callback_throws _); cbn; now rewrite <- app_assoc.
  - reflexivity.
Qed.

Lemma not_Ok_is_an_error_witness :
  OSRMv1.invoked
    (OSRMv1.on_response 5 maneuver_text returning_callback
       (OSRMv1.TransportText (OSRMv1.ParsedObject no_route_response)) fresh_call)
  = [OSRMv1.CbError (OSRMv1.JsString "NoRoute") None].
Proof.
  apply (not_Ok_is_an_error 5 maneuver_text returning_callback no_route_response fresh_call).
  - reflexivity.
  - discriminate.
Defined.

(** Routes reach the callback only from an answer whose code is "Ok". *)
Lemma routes_only_when_Ok polylinePrecision stepToText callback_throws events :
  forall c alts,
  In (OSRMv1.CbRoutes alts)
     (OSRMv1.invoked (OSRMv1.execute polylinePrecision stepToText callback_throws c events)) ->
  In (OSRMv1.CbRoutes alts) (OSRMv1.invoked c) \/
  exists data,
    In (OSRMv1.Responds (OSRMv1.TransportText (OSRMv1.ParsedObject data))) events /\
    OSRMv1.code data = OSRMv1.JsString "Ok".
Proof.
  induction events as [|e events IH]; intros c alts H; [now left|].
  cbn [OSRMv1.execute fold_left] in H.
  apply IH in H. destruct H as [H | (data & Hin & Hok)];
    [|right; exists data; split; [now right | exact Hok]].
  destruct e as [|t]; cbn [OSRMv1.handle] in H.
  - unfold OSRMv1.on_timeout in H. destruct (OSRMv1.timer c); [|now left].
    destruct (invoke_last_adds callback_throws
                {| OSRMv1.timedOut := true; OSRMv1.timer := false; OSRMv1.wps := OSRMv1.wps c;
                   OSRMv1.call_options := OSRMv1.call_options c;
                   OSRMv1._hints := OSRMv1._hints c; OSRMv1.invoked := OSRMv1.invoked c;
                   OSRMv1.aborted := OSRMv1.aborted c; OSRMv1.uncaught := OSRMv1.uncaught c |}
                (OSRMv1.CbError (OSRMv1.JsNumber (-1)) (Some "OSRM request timed out.")))
      as (I & _).
    rewrite I in H. apply in_app_or in H. destruct H as [H|[H|[]]]; [now left|discriminate].
  - unfold OSRMv1.on_response in H.
    cbn [OSRMv1.clearTimeout OSRMv1.timedOut] in H.
    destruct (OSRMv1.timedOut c); cbn [negb] in H; [now left|].
    set (c0 := OSRMv1.clearTimeout c) in *.
    assert (Hlast : forall status message,
               In (OSRMv1.CbRoutes alts)
                  (OSRMv1.invoked
                     (OSRMv1.invoke_last callback_throws c0 (OSRMv1.CbError status message))) ->
               In (OSRMv1.CbRoutes alts) (OSRMv1.invoked c)).
    { intros status message Hi.
      destruct (invoke_last_adds callback_throws c0 (OSRMv1.CbError status message)) as (I & _).
      rewrite I in Hi. apply in_app_or in Hi. destruct Hi as [Hi|[Hi|[]]]; [exact Hi|discriminate]. }
    destruct t as [message | [ex | | data]]; try (left; eapply Hlast; exact H).
    destruct (routeDone_calls polylinePrecision stepToText callback_throws data c0)
      as (_ & _ & Hcalls). cbv zeta in Hcalls.
    destruct (OSRMv1._routeDone _ _ _ data c0) as [c1 o]. cbn [fst snd] in Hcalls.
    assert (H1 : In (OSRMv1.CbRoutes alts) (OSRMv1.invoked c1)).
    { destruct o as [|ex]; [exact H|].
      destruct (invoke_last_adds callback_throws c1
                  (OSRMv1.CbError (OSRMv1.JsNumber (-3)) (Some ex))) as (I & _).
      rewrite I in H. apply in_app_or in H. destruct H as [H|[H|[]]]; [exact H|discriminate]. }
    destruct Hcalls as [(I & _) | (a & I & _ & Ha)].
    + left. now rewrite I in H1.
    + rewrite I in H1. apply in_app_or in H1. destruct H1 as [H1|[H1|[]]]; [now left|].
      subst a. right. exists data. split; [now left|].
      destruct (OSRMv1.code data) as [| |b|q|s]; try discriminate.
      cbn in Ha. apply String.eqb_eq in Ha. now subst s.
Qed.

(** ** Bearings and compass points *)

Lemma checked_on_range (P : Z -> bool) (n : nat) :
  forallb P (map Z.of_nat (seq 0 n)) = true ->
  forall b, 0 <= b < Z.of_nat n -> P b = true.
Proof.
  intros H b Hb. rewrite forallb_forall in H. apply H.
  apply in_map_iff. exists (Z.to_nat b). split; [lia|].
  apply in_seq. lia.
Qed.

(** C6, as stated, fails at 44 degrees: both the route client and the text
    instructions put it in the northeast. *)
Lemma bearing_44_is_not_north :
  OSRMv1._bearingToDirection (Some 44) <> Some north /\
  TextInstructions.directionFromDegree TextInstructions.direction_en (Some 44)
    <> Some "north".
Proof. split; vm_compute; discriminate. Qed.

(** C6 (bearing to compass point), as amended.  For a bearing of 0 to 360
    degrees the route client picks the point whose 45-degree sector, centred
    on the point, holds the bearing (22 and less north, 23 to 67 northeast,
    ..., 338 and more north again); the text instructions pick by the table
    of [directionFromDegree] (0 to 20 north, 21 to 69 northeast, 70 to 110
    east, ..., 340 to 360 north). *)
Theorem bearing_sectors (direction : Compass -> string) (b : Z) :
  0 <= b <= 360 ->
  OSRMv1._bearingToDirection (Some b) = Some (centred_sector b) /\
  TextInstructions.directionFromDegree direction (Some b)
    = Some (direction (worded_sector b)).
Proof.
  intros Hb. split.
  - assert (H : forallb (fun b => bool_decide (OSRMv1._bearingToDirection (Some b)
                                                = Some (centred_sector b)))
                        (map Z.of_nat (seq 0 361)) = true) by (vm_compute; reflexivity).
    pose proof (checked_on_range _ 361 H b ltac:(lia)) as Hb'. cbv beta in Hb'.
    exact (bool_decide_eq_true_1 _ Hb').
  - unfold TextInstructions.directionFromDegree, worded_sector.
    assert (Hcases : b <= 20 \/ 21 <= b <= 69 \/ 70 <= b <= 110 \/ 111 <= b <= 159 \/
                     160 <= b <= 200 \/ 201 <= b <= 249 \/ 250 <= b <= 290 \/
                     291 <= b <= 339 \/ 340 <= b) by lia.
    decompose [or] Hcases; settle_comparisons; reflexivity.
Qed.

Lemma bearing_sectors_witness :
  (OSRMv1._bearingToDirection (Some 0) = Some north /\
   OSRMv1._bearingToDirection (Some 44) = Some northeast /\
   OSRMv1._bearingToDirection (Some 46) = Some northeast /\
   OSRMv1._bearingToDirection (Some 359) = Some north) /\
  (TextInstructions.directionFromDegree TextInstructions.direction_en (Some 0)
     = Some "north" /\
   TextInstructions.directionFromDegree TextInstructions.direction_en (Some 44)
     = Some "northeast" /\
   TextInstructions.directionFromDegree TextInstructions.direction_en (Some 46)
     = Some "northeast" /\
   TextInstructions.directionFromDegree TextInstructions.direction_en (Some 359)
     = Some "north").
Proof.
  pose proof (bearing_sectors TextInstructions.direction_en 0 ltac:(lia)) as [A0 B0].
  pose proof (bearing_sectors TextInstructions.direction_en 44 ltac:(lia)) as [A1 B1].
  pose proof (bearing_sectors TextInstructions.direction_en 46 ltac:(lia)) as [A2 B2].
  pose proof (bearing_sectors TextInstructions.direction_en 359 ltac:(lia)) as [A3 B3].
  exact (conj (conj A0 (conj A1 (conj A2 A3))) (conj B0 (conj B1 (conj B2 B3)))).
Defined.

(** ** The polyline codec: the bound on the rounds is never reached *)

Lemma read_chunk_shorter s : forall shift result,
  (String.length (snd (Polyline.read_chunk s shift result)) <= String.length s)%nat /\
  (s <> "" ->
   (String.length (snd (Polyline.read_chunk s shift result)) < String.length s)%nat).
Proof.
  induction s as [|c rest IH]; intros shift result; cbn [Polyline.read_chunk].
  - split; [cbn; lia | congruence].
  - destruct (Polyline.charCode c - 63 >=? 32).
    + destruct (IH (shift + 5)
                  (JS.toInt32
                     (Z.lor result
                        (JS.toInt32 (Z.shiftl (Z.land (Polyline.charCode c - 63) 31)
                                       (shift mod 32)))))) as [Hle _].
      cbn [String.length]. split; [lia | intros _; lia].
    + cbn [snd String.length]. split; [lia | intros _; lia].
Qed.

(** Any number of rounds from the length of the string on decodes alike. *)
Lemma decode_loop_enough n : forall m s lat lng,
  (String.length s <= n)%nat -> (String.length s <= m)%nat ->
  Polyline.decode_loop n s lat lng = Polyline.decode_loop m s lat lng.
Proof.
  induction n as [|n IH]; intros m s lat lng Hn Hm.
  - destruct s; [|cbn in Hn; lia]. now destruct m.
  - destruct s as [|c rest]; [now destruct m|].
    destruct m as [|m]; [cbn in Hm; lia|].
    cbn [Polyline.decode_loop].
    pose proof (read_chunk_shorter (String c rest) 0 0) as [_ H1].
    destruct (Polyline.read_chunk (String c rest) 0 0) as [r1 s1].
    pose proof (read_chunk_shorter s1 0 0) as [H2 _].
    destruct (Polyline.read_chunk s1 0 0) as [r2 s2].
    cbn [snd] in *. specialize (H1 ltac:(congruence)).
    cbn [String.length] in *. f_equal. apply IH; lia.
Qed.

(** ** Converting a route: where the waypoints lie on the line *)

Section ConvertFacts.

Variable polylinePrecision : Z.
Variable stepToText : OSRMv1.Step -> nat -> nat -> option string.

#[local] Abbreviation decoded :=
  (fun step => OSRMv1._decodePolyline polylinePrecision (OSRMv1.geometry step)).
#[local] Abbreviation convertStep := (OSRMv1.convertStep polylinePrecision stepToText).
#[local] Abbreviation convertSteps := (OSRMv1.convertSteps polylinePrecision stepToText).
#[local] Abbreviation convertLegs := (OSRMv1.convertLegs polylinePrecision stepToText).
#[local] Abbreviation _convertRoute := (OSRMv1._convertRoute polylinePrecision stepToText).

(** The type of a [depart] or [arrive] step is never the empty string, so the
    guard [if (type)] lets these steps through. *)
Lemma waypoint_step_has_type i step lastLeg :
  is_waypoint_step i step = true ->
  exists ty, OSRMv1._maneuverToInstructionType (OSRMv1.maneuver step) lastLeg = Some ty /\
             String.eqb ty "" = false.
Proof.
  unfold is_waypoint_step, OSRMv1._maneuverToInstructionType.
  intros H. apply orb_true_iff in H. destruct H as [H|H].
  - apply andb_true_iff in H. destruct H as [_ H].
    apply String.eqb_eq in H. rewrite H. cbn. eauto.
  - apply String.eqb_eq in H. rewrite H. cbn. destruct lastLeg; eauto.
Qed.

(** What one round of the inner loop does to the running state. *)
Lemma convertStep_records legCount i acc step acc' :
  convertStep legCount i acc step = Some acc' ->
  OSRMv1.acc_index acc' = (OSRMv1.acc_index acc + length (decoded step))%nat /\
  OSRMv1.acc_coordinates acc' = OSRMv1.acc_coordinates acc ++ decoded step /\
  OSRMv1.acc_waypointIndices acc' =
    OSRMv1.acc_waypointIndices acc
      ++ (if is_waypoint_step i step then [OSRMv1.acc_index acc] else []).
Proof.
  unfold OSRMv1.convertStep. intros H.
  destruct (OSRMv1._maneuverToInstructionType _ _) as [ty|] eqn:Ety; [|discriminate].
  destruct (OSRMv1._maneuverToModifier _) as [m|]; [|discriminate].
  destruct (stepToText _ _ _) as [text|]; [|discriminate].
  cbn in H. injection H as <-. cbn. split; [reflexivity|]. split; [reflexivity|].
  destruct (is_waypoint_step i step) eqn:Hw.
  - destruct (waypoint_step_has_type i step (bool_decide (i = (legCount - 1)%nat)) Hw)
      as (ty' & Ety' & Hne).
    rewrite Ety in Ety'. injection Ety' as <-. rewrite Hne. cbn [negb].
    unfold is_waypoint_step in Hw. now rewrite Hw.
  - unfold is_waypoint_step in Hw. rewrite Hw.
    rewrite app_nil_r. now destruct (negb _).
Qed.

Lemma with_offsets_app from l1 l2 :
  with_offsets polylinePrecision from (l1 ++ l2) =
  with_offsets polylinePrecision from l1
    ++ with_offsets polylinePrecision (from + coordinate_count polylinePrecision l1)%nat l2.
Proof.
  revert from. induction l1 as [|[i step] l1 IH]; intros from.
  - cbn. now rewrite Nat.add_0_r.
  - cbn [app with_offsets]. rewrite IH. cbn [app]. do 3 f_equal.
    unfold coordinate_count. cbn [map concat snd]. rewrite length_app. lia.
Qed.

Lemma convertSteps_records legCount i l : forall acc acc',
  convertSteps legCount i acc l = Some acc' ->
  OSRMv1.acc_index acc' =
    (OSRMv1.acc_index acc + coordinate_count polylinePrecision (map (pair i) l))%nat /\
  OSRMv1.acc_waypointIndices acc' =
    OSRMv1.acc_waypointIndices acc
      ++ map fst (List.filter (fun x => is_waypoint_step (fst (snd x)) (snd (snd x)))
                    (with_offsets polylinePrecision (OSRMv1.acc_index acc) (map (pair i) l))).
Proof.
  induction l as [|step l IH]; intros acc acc' H.
  - injection H as <-. cbn. now rewrite Nat.add_0_r, app_nil_r.
  - cbn [OSRMv1.convertSteps] in H.
    destruct (convertStep legCount i acc step) as [acc1|] eqn:E1; [|discriminate].
    cbn in H. apply IH in H. destruct H as (Hi & Hw).
    apply convertStep_records in E1. destruct E1 as (Hi1 & _ & Hw1).
    split.
    + rewrite Hi, Hi1. unfold coordinate_count. cbn [map concat snd].
      rewrite length_app. lia.
    + rewrite Hw, Hw1, Hi1, <- app_assoc. f_equal.
      cbn [map with_offsets List.filter fst snd].
      now destruct (is_waypoint_step i step).
Qed.

Lemma convertLegs_records legCount l : forall i acc acc',
  convertLegs legCount i acc l = Some acc' ->
  OSRMv1.acc_waypointIndices acc' =
    OSRMv1.acc_waypointIndices acc
      ++ recorded_offsets polylinePrecision (OSRMv1.acc_index acc) i l.
Proof.
  induction l as [|leg l IH]; intros i acc acc' H.
  - injection H as <-. unfold recorded_offsets. cbn. now rewrite app_nil_r.
  - cbn [OSRMv1.convertLegs] in H.
    destruct (convertSteps legCount i acc (OSRMv1.steps leg)) as [acc1|] eqn:E1;
      [|discriminate].
    cbn in H. apply IH in H. apply convertSteps_records in E1. destruct E1 as (Hi1 & Hw1).
    rewrite H, Hw1, Hi1, <- app_assoc. f_equal.
    unfold recorded_offsets. cbn [steps_from].
    now rewrite with_offsets_app, List.filter_app, map_app.
Qed.

(** Conversion goes through for the steps that the service sends: a step
    needs a modifier unless its type is one that is named without it, and the
    configured [stepToText] has to render it. *)
Lemma convertStep_returns legCount i acc step :
  is_Some (OSRMv1.modifier (OSRMv1.maneuver step))
  \/ In (OSRMv1.type (OSRMv1.maneuver step))
        ["new name"; "depart"; "arrive"; "roundabout"; "rotary"] ->
  is_Some (stepToText step legCount i) ->
  is_Some (convertStep legCount i acc step).
Proof.
  intros Hm [text Htext]. unfold OSRMv1.convertStep. rewrite Htext.
  assert (Hty : is_Some (OSRMv1._maneuverToInstructionType (OSRMv1.maneuver step)
                           (bool_decide (i = (legCount - 1)%nat)))
                /\ is_Some (OSRMv1._maneuverToModifier (OSRMv1.maneuver step))).
  { unfold OSRMv1._maneuverToInstructionType, OSRMv1._maneuverToModifier.
    destruct Hm as [[d Hd] | Hin].
    - rewrite Hd. cbn. split; repeat case_match; eauto.
    - cbn in Hin. decompose [or] Hin; try contradiction;
        match goal with H : _ = OSRMv1.type _ |- _ => rewrite <- H end;
        cbn; split; repeat case_match; eauto. }
  destruct Hty as [[ty ->] [[m|] ->]]; cbn; eauto.
Qed.

Lemma convertSteps_returns legCount i l : forall acc,
  Forall (fun step =>
            (is_Some (OSRMv1.modifier (OSRMv1.maneuver step))
             \/ In (OSRMv1.type (OSRMv1.maneuver step))
                   ["new name"; "depart"; "arrive"; "roundabout"; "rotary"])
            /\ is_Some (stepToText step legCount i)) l ->
  is_Some (convertSteps legCount i acc l).
Proof.
  induction l as [|step l IH]; intros acc Hl; [cbn; eauto|].
  apply Forall_cons in Hl. destruct Hl as [[Hm Ht] Hl].
  cbn [OSRMv1.convertSteps].
  destruct (convertStep_returns legCount i acc step Hm Ht) as [acc1 ->].
  cbn. now apply IH.
Qed.

Lemma convertLegs_returns legCount l : forall i acc,
  (forall j leg step, l !! j = Some leg -> In step (OSRMv1.steps leg) ->
     (is_Some (OSRMv1.modifier (OSRMv1.maneuver step))
      \/ In (OSRMv1.type (OSRMv1.maneuver step))
            ["new name"; "depart"; "arrive"; "roundabout"; "rotary"])
     /\ is_Some (stepToText step legCount (i + j)%nat)) ->
  is_Some (convertLegs legCount i acc l).
Proof.
  induction l as [|leg l IH]; intros i acc Hl; [cbn; eauto|].
  cbn [OSRMv1.convertLegs].
  destruct (convertSteps_returns legCount i (OSRMv1.steps leg) acc) as [acc1 ->].
  { apply Forall_forall. intros step Hin. apply list_elem_of_In in Hin.
    specialize (Hl 0%nat leg step eq_refl Hin). now rewrite Nat.add_0_r in Hl. }
  cbn. apply IH. intros j leg' step Hj Hin.
  specialize (Hl (S j) leg' step Hj Hin).
  now replace (i + S j)%nat with (S i + j)%nat in Hl by lia.
Qed.

(** A route with at least one leg, with steps in its first leg or an overview
    geometry, and with steps as above, is converted. *)
Lemma convertRoute_returns route :
  OSRMv1.legs route <> [] ->
  (forall leg0, head (OSRMv1.legs route) = Some leg0 -> OSRMv1.steps leg0 = [] ->
                is_Some (OSRMv1.route_geometry route)) ->
  (forall j leg step, OSRMv1.legs route !! j = Some leg -> In step (OSRMv1.steps leg) ->
     (is_Some (OSRMv1.modifier (OSRMv1.maneuver step))
      \/ In (OSRMv1.type (OSRMv1.maneuver step))
            ["new name"; "depart"; "arrive"; "roundabout"; "rotary"])
     /\ is_Some (stepToText step (length (OSRMv1.legs route)) j)) ->
  is_Some (_convertRoute route).
Proof.
  intros Hlegs Hgeo Hsteps. unfold OSRMv1._convertRoute.
  destruct (OSRMv1.legs route) as [|leg0 legs] eqn:El; [congruence|].
  destruct (convertLegs_returns (length (leg0 :: legs)) (leg0 :: legs) 0%nat
              {| OSRMv1.acc_coordinates := []; OSRMv1.acc_instructions := [];
                 OSRMv1.acc_waypointIndices := []; OSRMv1.acc_index := 0 |})
    as [acc ->]; [exact Hsteps|].
  cbn [mbind option_bind].
  destruct (bool_decide (OSRMv1.steps leg0 = [])) eqn:Hb; cbn [negb].
  - apply bool_decide_eq_true in Hb.
    destruct (Hgeo leg0 eq_refl Hb) as [g ->]. cbn. eauto.
  - cbn. eauto.
Qed.

End ConvertFacts.

(** C7, as stated, fails on a route as OSRM answers it: the [arrive] step
    brings two coordinates of its own, so the index recorded for it (3) is
    that of its first coordinate and not the last index of the line (4). *)
Lemma arrive_index_is_not_last :
  (fun r => (OSRMv1.waypointIndices r, length (OSRMv1.coordinates r)))
    <$> OSRMv1._convertRoute 5 maneuver_text two_step_route
  = Some (Some [0; 3]%nat, 5%nat) /\
  OSRMv1.waypointIndices <$> OSRMv1._convertRoute 5 maneuver_text two_step_route
  <> Some (Some [0; 5 - 1]%nat).
Proof. split; [reflexivity | vm_compute; discriminate]. Qed.

(** C7 (waypoint indices), as amended.  A converted route carries waypoint
    indices when its first leg has steps, and they are the coordinate counts
    reached before each step that is a [depart] on the first leg or an
    [arrive] on any leg, in route order.  For one leg with the steps
    [depart, arrive] that the configured [stepToText] can render, the route
    has two instructions and the indices [0, N], where N is the number of
    coordinates of the [depart] step, the index of the first coordinate of
    the [arrive] step. *)
Theorem waypoint_indices_recorded polylinePrecision stepToText :
  (forall route r,
      OSRMv1._convertRoute polylinePrecision stepToText route = Some r ->
      OSRMv1.waypointIndices r =
        match OSRMv1.legs route with
        | [] => None
        | leg0 :: _ =>
            if bool_decide (OSRMv1.steps leg0 = []) then None
            else Some (recorded_offsets polylinePrecision 0 0 (OSRMv1.legs route))
        end) /\
  (forall dep arr summary distance duration geometry text1 text2,
      OSRMv1.type (OSRMv1.maneuver dep) = "depart" ->
      OSRMv1.type (OSRMv1.maneuver arr) = "arrive" ->
      stepToText dep 1%nat 0%nat = Some text1 ->
      stepToText arr 1%nat 0%nat = Some text2 ->
      exists r,
        OSRMv1._convertRoute polylinePrecision stepToText
          {| OSRMv1.distance := distance; OSRMv1.duration := duration;
             OSRMv1.legs := [ {| OSRMv1.summary := summary; OSRMv1.steps := [dep; arr] |} ];
             OSRMv1.route_geometry := geometry |} = Some r /\
        length (OSRMv1.instructions r) = 2%nat /\
        OSRMv1.waypointIndices r =
          Some [0%nat;
                length (OSRMv1._decodePolyline polylinePrecision (OSRMv1.geometry dep))] /\
        OSRMv1.coordinates r =
          OSRMv1._decodePolyline polylinePrecision (OSRMv1.geometry dep)
            ++ OSRMv1._decodePolyline polylinePrecision (OSRMv1.geometry arr)).
Proof.
  split.
  - intros route r. unfold OSRMv1._convertRoute.
    destruct (OSRMv1.legs route) as [|leg0 legs] eqn:El; [discriminate|].
    destruct (OSRMv1.convertLegs _ _ _ _ _ (leg0 :: legs)) as [acc|] eqn:E; [|discriminate].
    cbn [mbind option_bind].
    destruct (bool_decide (OSRMv1.steps leg0 = [])); cbn [negb].
    + destruct (OSRMv1.route_geometry route); [|discriminate].
      cbn. now intros [= <-].
    + cbn. intros [= <-]. cbn. f_equal.
      apply (convertLegs_records polylinePrecision stepToText) in E. exact E.
  - intros dep arr summary distance duration geometry text1 text2 Hd Ha H1 H2.
    unfold OSRMv1._convertRoute, OSRMv1.convertLegs, OSRMv1.convertSteps, OSRMv1.convertStep.
    cbn [OSRMv1.legs OSRMv1.steps length OSRMv1.maneuver].
    unfold OSRMv1._maneuverToInstructionType, OSRMv1._maneuverToModifier, OSRMv1.is_ramp_like.
    rewrite Hd, Ha, H1, H2. cbn.
    eexists. split; [reflexivity|]. cbn. auto.
Qed.

Lemma waypoint_indices_recorded_witness :
  exists r,
    OSRMv1._convertRoute 5 maneuver_text two_step_route = Some r /\
    length (OSRMv1.instructions r) = 2%nat /\
    OSRMv1.waypointIndices r = Some [0; 3]%nat /\
    OSRMv1.waypointIndices r = Some (recorded_offsets 5 0 0 (OSRMv1.legs two_step_route)).
Proof.
  destruct (proj2 (waypoint_indices_recorded 5 maneuver_text)
              depart_step arrive_step (Some "main St") 1200%Q 90%Q None "depart" "arrive"
              eq_refl eq_refl eq_refl eq_refl) as (r & E & L & W & _).
  exists r. split; [exact E|]. split; [exact L|]. split; [exact W|].
  exact (proj1 (waypoint_indices_recorded 5 maneuver_text) two_step_route r E).
Defined.

(** ** Text instructions: roundabouts and rotaries *)

(** For a roundabout or rotary step [compile] goes on with one of four
    variants of the instruction object: the first usable one in the order in
    which it tests them. *)
Lemma roundabout_variant table type step o :
  type = "rotary" \/ type = "roundabout" ->
  TextInstructions.compile_switch table type step (Some o)
  = Some (TextInstructions.get o (variant_key (preferred compile_order step o)), None).
Proof.
  intros [-> | ->]; unfold TextInstructions.compile_switch; cbn [String.eqb Ascii.eqb
    Bool.eqb orb TextInstructions.prop mbind option_bind];
    unfold compile_order, preferred, usable;
    destruct (JS.truthy_string _), (JS.truthy_number _),
      (TextInstructions.truthy (TextInstructions.get o "name_exit")),
      (TextInstructions.truthy (TextInstructions.get o "name")),
      (TextInstructions.truthy (TextInstructions.get o "exit")); reflexivity.
Qed.

(** The order of the tests and the order of the specification choose alike on
    every instruction object that offers the named-and-numbered phrase
    whenever it offers the other two. *)
Lemma orders_agree step o :
  (TextInstructions.truthy (TextInstructions.get o "name") = true ->
   TextInstructions.truthy (TextInstructions.get o "exit") = true ->
   TextInstructions.truthy (TextInstructions.get o "name_exit") = true) ->
  preferred spec_order step o = preferred compile_order step o.
Proof.
  unfold spec_order, compile_order, preferred, usable. intros H.
  destruct (JS.truthy_string _), (JS.truthy_number _),
    (TextInstructions.truthy (TextInstructions.get o "name_exit")),
    (TextInstructions.truthy (TextInstructions.get o "name")),
    (TextInstructions.truthy (TextInstructions.get o "exit")); try reflexivity.
  discriminate (H eq_refl eq_refl).
Qed.

(** An entry of a table that has the one key [k]. *)
Lemma get_one_entry k (x : TextInstructions.Json) key o :
  TextInstructions.get (TextInstructions.JObj [(k, x)]) key = Some o -> o = x.
Proof.
  cbn. destruct (String.eqb k key); congruence.
Qed.

(** The instruction objects that the tables of the bundle hold for a
    roundabout or rotary step: the entries of [modes], which come first, and
    those of the table of the type. *)
Lemma bundle_objects language profile type key o :
  TextInstructions.bundle_instructions !! language = Some profile ->
  type = "rotary" \/ type = "roundabout" ->
  TextInstructions.get (TextInstructions.v5 profile) "modes"
    ≫= (fun t => TextInstructions.get t key) = Some o \/
  TextInstructions.get (TextInstructions.v5 profile) type
    ≫= (fun t => TextInstructions.get t key) = Some o ->
  o ∈ [TextInstructions.en_rotary_default; TextInstructions.en_roundabout_default;
       TextInstructions.en_modes_ferry; TextInstructions.de_rotary_default;
       TextInstructions.de_roundabout_default; TextInstructions.de_modes_ferry].
Proof.
  intros Hl Ht Ho. unfold TextInstructions.bundle_instructions in Hl.
  apply lookup_insert_Some in Hl as [[_ <-]|[_ Hl]];
    [|apply lookup_singleton_Some in Hl as [_ <-]];
    destruct Ht as [-> | ->]; destruct Ho as [Ho|Ho];
    apply get_one_entry in Ho; subst o; set_solver.
Qed.

(** C9 (roundabout and rotary phrases).  For a roundabout or rotary step and
    every instruction object that the tables of the bundle ([de.json] and
    [en.json]) hold for it, [compile] goes on with one of the four variants
    of the object, the first usable one in the order named-and-numbered, exit
    number only, named only, generic; a variant is usable when the step has
    what it mentions and the object offers it.  ([compile] tests the named
    variant before the numbered one; every object of the tables that offers
    both also offers the variant that is both, so the two orders choose
    alike.) *)
Theorem roundabout_variant_order language profile type key step o :
  TextInstructions.bundle_instructions !! language = Some profile ->
  type = "rotary" \/ type = "roundabout" ->
  TextInstructions.get (TextInstructions.v5 profile) "modes"
    ≫= (fun t => TextInstructions.get t key) = Some o \/
  TextInstructions.get (TextInstructions.v5 profile) type
    ≫= (fun t => TextInstructions.get t key) = Some o ->
  TextInstructions.compile_switch (TextInstructions.v5 profile) type step (Some o)
  = Some (TextInstructions.get o (variant_key (preferred spec_order step o)), None).
Proof.
  intros Hl Ht Ho. rewrite (roundabout_variant _ _ _ _ Ht).
  pose proof (bundle_objects _ _ _ _ _ Hl Ht Ho) as Hin.
  rewrite orders_agree; [reflexivity|].
  repeat (apply elem_of_cons in Hin as [->|Hin]; [vm_compute; congruence|]).
  now apply elem_of_nil in Hin.
Qed.

Lemma roundabout_variant_order_witness :
  TextInstructions.compile_switch (TextInstructions.v5 TextInstructions.en) "rotary"
    dupont_circle_step (Some TextInstructions.en_rotary_default)
  = Some (Some (TextInstructions.phrases "Enter {rotary_name} and take the {exit_number} exit"
                  "Enter {rotary_name} and take the {exit_number} exit onto {way_name}"
                  "Enter {rotary_name} and take the {exit_number} exit towards {destination}"),
          None).
Proof.
  apply (roundabout_variant_order "en" TextInstructions.en "rotary" "default"
           dupont_circle_step TextInstructions.en_rotary_default).
  - reflexivity.
  - left. reflexivity.
  - right. reflexivity.
Defined.

(** ** Text instructions: tokens and capitals *)

Lemma string_app_nil_r (s : string) : s +:+ "" = s.
Proof.
  induction s as [|c s IH]; [reflexivity|].
  change (String c s +:+ "") with (String c (s +:+ "")). now rewrite IH.
Qed.

Lemma substring_drop n : forall s, String.substring 0 n s +:+ drop_string n s = s.
Proof.
  induction n as [|n IH]; intros [|c s]; try reflexivity.
  change (String c (String.substring 0 n s +:+ drop_string n s) = String c s).
  f_equal. apply IH.
Qed.

(** A match of the token pattern is never empty. *)
Lemma match_token_length s tag grammar len :
  TextInstructions.match_token s = Some (tag, grammar, len) -> exists k, len = S k.
Proof.
  unfold TextInstructions.match_token.
  destruct s as [|c r]; [discriminate|].
  destruct (Ascii.eqb_spec c "{"%char) as [->|Hc].
  - destruct (TextInstructions.span_word r) as [t r1].
    destruct (String.eqb t ""); [discriminate|].
    destruct r1 as [|c1 r2]; [discriminate|].
    destruct (Ascii.eqb_spec c1 "}"%char) as [->|H1]; [intros [= _ _ <-]; eauto|].
    destruct (Ascii.eqb_spec c1 ":"%char) as [->|H2].
    + destruct (TextInstructions.span_word r2) as [g r3].
      destruct (String.eqb g ""); [discriminate|].
      destruct r3 as [|c3 r4]; [discriminate|].
      destruct (Ascii.eqb_spec c3 "}"%char) as [->|H3]; [intros [= _ _ <-]; eauto|].
      destruct c3 as [[] [] [] [] [] [] [] []]; try discriminate; now contradict H3.
    + destruct c1 as [[] [] [] [] [] [] [] []]; try discriminate;
        (now contradict H1) || (now contradict H2).
  - destruct c as [[] [] [] [] [] [] [] []]; try discriminate; now contradict Hc.
Qed.

Section TokenizeFacts.

Variable instructions : gmap string TextInstructions.Language.
Variable language : string.
Variable tokens : gmap string string.
Variable formatToken : option (string -> TextInstructions.TokenValue -> string).
Variable upper_other : string -> string -> option string.
Variable member_text : string -> string.

#[local] Abbreviation replace_tokens :=
  (TextInstructions.replace_tokens language tokens formatToken upper_other member_text).
#[local] Abbreviation replacer :=
  (TextInstructions.replacer language tokens formatToken upper_other member_text).
#[local] Abbreviation tokenize :=
  (TextInstructions.tokenize instructions language tokens formatToken upper_other
     member_text).
#[local] Abbreviation plain_tag :=
  (fun tag => is_Some (tokens !! tag) \/ tag ∉ TextInstructions.object_prototype_members).

(** A tag that names no member which is only inherited is looked up among
    the tokens. *)
Lemma lookup_plain_tag tag :
  plain_tag tag ->
  TextInstructions.lookup_token tokens tag = TextInstructions.OwnValue <$> tokens !! tag.
Proof.
  unfold TextInstructions.lookup_token. intros [[v Hv]|Hn].
  - now rewrite Hv.
  - destruct (tokens !! tag); [reflexivity|]. now rewrite bool_decide_eq_false_2.
Qed.

(** In German and English a string that starts with an ASCII code unit is
    capitalized by raising a letter from a to z. *)
Lemma capitalize_ascii s :
  language = "en" \/ language = "de" ->
  ascii_first s = true ->
  TextInstructions.capitalizeFirstLetter language upper_other s = Some (JS.upperFirst s).
Proof.
  intros Hl Hs. unfold TextInstructions.capitalizeFirstLetter,
    TextInstructions.toLocaleUpperCase.
  assert (Hk : String.eqb language "en" || String.eqb language "de" = true)
    by (destruct Hl as [-> | ->]; reflexivity).
  rewrite Hk. destruct s as [|c rest]; [reflexivity|].
  cbn [ascii_first] in Hs. rewrite Hs. reflexivity.
Qed.

(** Away from the start of the template, or when the language asks for no
    capital, the scan is the plain substitution and leaves the flag alone. *)
Lemma replace_tokens_plain capitalize s : forall skip offset startedWithToken,
  offset <> 0%nat \/ capitalize = false ->
  Forall plain_tag (placeholder_tags s skip) ->
  replace_tokens capitalize s skip offset startedWithToken
  = Some (substitute tokens formatToken s skip, startedWithToken).
Proof.
  induction s as [|c rest IH]; intros skip offset started Hplain Htags; [reflexivity|].
  cbn [TextInstructions.replace_tokens substitute placeholder_tags] in *.
  destruct skip as [|k]; [|apply IH; [left; lia|exact Htags]].
  destruct (TextInstructions.match_token (String c rest)) as [[[tag grammar] len]|].
  - apply Forall_cons in Htags as [Htag Htags].
    unfold TextInstructions.replacer, TextInstructions.grammarize, formatted.
    rewrite (lookup_plain_tag _ Htag).
    assert (Hcap : (offset =? 0)%nat && capitalize = false).
    { destruct Hplain as [H| ->]; [|apply andb_false_r].
      now rewrite (proj2 (Nat.eqb_neq offset 0) H). }
    destruct (tokens !! tag) as [value|]; cbn [fmap option_fmap option_map];
      rewrite ?Hcap; cbn [mbind option_bind];
      rewrite IH by (first [left; lia | exact Htags]); reflexivity.
  - rewrite IH by (first [left; lia | exact Htags]). reflexivity.
Qed.

(** The scan from the start of the template, for a language that asks for a
    capital. *)
Lemma replace_tokens_start template :
  language = "en" \/ language = "de" ->
  no_inherited_tag tokens template ->
  ascii_first (capitalized tokens formatToken template) = true ->
  exists replaced startedWithToken,
    replace_tokens true template 0 0 false = Some (replaced, startedWithToken) /\
    TextInstructions.collapse_spaces replaced
    = (if startedWithToken then render tokens formatToken true template
       else TextInstructions.collapse_spaces (substitute tokens formatToken template 0)) /\
    (startedWithToken = false ->
     render tokens formatToken true template
     = JS.upperFirst
         (TextInstructions.collapse_spaces (substitute tokens formatToken template 0)) /\
     capitalized tokens formatToken template
     = TextInstructions.collapse_spaces (substitute tokens formatToken template 0)).
Proof.
  intros Hl Htags Hascii. unfold no_inherited_tag in Htags.
  destruct template as [|c rest]; [cbn; eauto 6|].
  unfold render, capitalized in *.
  cbn [TextInstructions.replace_tokens substitute placeholder_tags] in *.
  destruct (TextInstructions.match_token (String c rest)) as [[[tag grammar] len]|] eqn:Em.
  - destruct (match_token_length _ _ _ _ Em) as [k ->].
    apply Forall_cons in Htags as [Htag Htags].
    unfold TextInstructions.replacer, TextInstructions.grammarize.
    rewrite (lookup_plain_tag _ Htag).
    destruct (tokens !! tag) as [value|]; cbn [fmap option_fmap option_map Nat.eqb andb].
    + rewrite (capitalize_ascii _ Hl Hascii). cbn [mbind option_bind].
      rewrite replace_tokens_plain by (first [left; lia | exact Htags]).
      cbn [mbind option_bind Nat.sub]. rewrite Nat.sub_0_r in *.
      eexists _, _. split; [reflexivity|]. split; [reflexivity|discriminate].
    + cbn [mbind option_bind].
      rewrite replace_tokens_plain by (first [left; lia | exact Htags]).
      cbn [mbind option_bind]. eexists _, _. split; [reflexivity|]. auto.
  - rewrite replace_tokens_plain by (first [left; lia | exact Htags]).
    cbn [mbind option_bind]. eexists _, _. split; [reflexivity|]. auto.
Qed.

(** With no token known, the substitution changes nothing. *)
Lemma substitute_nothing_known s : forall skip,
  (forall tag, tokens !! tag = None) ->
  substitute tokens formatToken s skip = drop_string skip s.
Proof.
  induction s as [|c rest IH]; intros skip Hnone; [now destruct skip|].
  cbn [substitute]. destruct skip as [|k]; [|now apply IH].
  destruct (TextInstructions.match_token (String c rest)) as [[[tag grammar] len]|] eqn:Em.
  - destruct (match_token_length _ _ _ _ Em) as [k ->].
    rewrite Hnone, IH by exact Hnone. cbn [Nat.sub]. rewrite Nat.sub_0_r.
    change (String c (String.substring 0 k rest +:+ drop_string k rest) = String c rest).
    now rewrite substring_drop.
  - rewrite IH by exact Hnone. reflexivity.
Qed.

(** For the two languages of the bundle, a template in which no placeholder
    names a member that the tokens only inherit, and where the letter to be
    capitalized is an ASCII one, [tokenize] returns what the specification
    describes: every placeholder with a value replaced, every other
    placeholder left as it is, the capital on the value that replaces a
    placeholder at the start and otherwise on the first letter of the
    result, when the language asks for it. *)
Lemma tokenize_is_render profile template :
  language = "en" \/ language = "de" ->
  instructions !! language = Some profile ->
  no_inherited_tag tokens template ->
  ascii_first (capitalized tokens formatToken template) = true ->
  tokenize template
  = Some (render tokens formatToken
            (TextInstructions.capitalizeFirstLetter_requested profile) template).
Proof.
  intros Hl Hp Htags Hascii. unfold TextInstructions.tokenize.
  assert (Hne : String.eqb language "" = false)
    by (destruct Hl as [-> | ->]; reflexivity).
  rewrite Hne, Hp. cbn [mbind option_bind].
  destruct (TextInstructions.capitalizeFirstLetter_requested profile).
  - destruct (replace_tokens_start template Hl Htags Hascii)
      as (replaced & started & E & H1 & H2).
    rewrite E. cbn [mbind option_bind]. destruct started; cbn [negb andb].
    + now rewrite H1.
    + destruct (H2 eq_refl) as [H3 H4]. rewrite H1, H3.
      apply capitalize_ascii; [exact Hl|]. now rewrite <- H4.
  - rewrite replace_tokens_plain by (first [now right | exact Htags]). reflexivity.
Qed.

End TokenizeFacts.

(** The example of the specification: with the tokens [modifier = "left"] and
    [way_name = "Main St"], the English template [{modifier} onto {way_name}]
    is rendered as [Left onto Main St]; a placeholder whose tag is not known
    stays as it is. *)
Lemma left_onto_main_st_renders upper_other member_text :
  TextInstructions.tokenize TextInstructions.bundle_instructions "en" left_onto_main_st None
    upper_other member_text "{modifier} onto {way_name}"
  = Some "Left onto Main St" /\
  TextInstructions.tokenize TextInstructions.bundle_instructions "en" left_onto_main_st None
    upper_other member_text "Take {street}"
  = Some "Take {street}".
Proof. split; reflexivity. Qed.


(** * Properties of the other functions *)

(** ** Doubles: the nearest double and its distance *)

(** Some doubles: a tenth and a third; 2^53 + 1, which lies halfway between
    two doubles and goes to the even one; 10^23, which is no double; and the
    least double, 2^-1074, with the half of it that goes to zero. *)
Example double_values :
  JS.double (1 # 10) = (3602879701896397 # 36028797018963968)%Q /\
  JS.double (1 # 3) = (6004799503160661 # 18014398509481984)%Q /\
  JS.double (inject_Z (2 ^ 53 + 1)) = inject_Z (2 ^ 53) /\
  JS.pow10 23 = inject_Z 99999999999999991611392 /\
  JS.double (JS.pow2 (-1074)) = Qred (JS.pow2 (-1074)) /\
  JS.double (JS.pow2 (-1075)) = 0%Q.
Proof. repeat split; vm_compute; reflexivity. Qed.

Lemma pow2_pos k : (0 < JS.pow2 k)%Q.
Proof. apply Qpower_0_lt. reflexivity. Qed.

Lemma pow2_add a b : (JS.pow2 (a + b) == JS.pow2 a * JS.pow2 b)%Q.
Proof. apply Qpower_plus. discriminate. Qed.

Lemma pow2_inv k : (JS.pow2 (- k) * JS.pow2 k == 1)%Q.
Proof.
  rewrite <- pow2_add. replace (- k + k) with 0 by lia. reflexivity.
Qed.

Lemma pow2_Z k : 0 <= k -> (JS.pow2 k == inject_Z (2 ^ k))%Q.
Proof. intros H. unfold JS.pow2. now rewrite Zpower_Qpower. Qed.

Lemma pow2_le a b : a <= b -> (JS.pow2 a <= JS.pow2 b)%Q.
Proof. intros H. apply Qpower_le_compat_l; [exact H|]. discriminate. Qed.

Lemma pow2_lt_inv a b : (JS.pow2 a < JS.pow2 b)%Q -> a < b.
Proof.
  intros H. destruct (Z.lt_ge_cases a b) as [|Hge]; [assumption|].
  apply pow2_le in Hge. lra.
Qed.

Lemma pow2_sub a b :
  0 <= a -> 0 <= b -> (JS.pow2 (a - b) * inject_Z (2 ^ b) == inject_Z (2 ^ a))%Q.
Proof.
  intros Ha Hb. rewrite <- !pow2_Z by assumption. rewrite <- pow2_add.
  now replace (a - b + b) with a by lia.
Qed.

Lemma round_half_even_near y :
  (Qabs (inject_Z (JS.round_half_even y) - y) <= 1 # 2)%Q.
Proof.
  unfold JS.round_half_even.
  pose proof (Qfloor_le y) as H1. pose proof (Qlt_floor y) as H2.
  rewrite inject_Z_plus in H2. change (inject_Z 1) with 1%Q in H2.
  set (f := Qfloor y) in *. clearbody f.
  destruct (Qcompare_spec (y - inject_Z f) (1 # 2)) as [E|E|E].
  - assert (E' : (y == inject_Z f + (1 # 2))%Q) by (rewrite <- E; ring).
    assert (Ha : (y <= inject_Z f + (1 # 2))%Q) by (rewrite E'; apply Qle_refl).
    assert (Hb : (inject_Z f + (1 # 2) <= y)%Q) by (rewrite E'; apply Qle_refl).
    clear E E'.
    destruct (Z.even f); [|rewrite inject_Z_plus; change (inject_Z 1) with 1%Q];
      apply Qabs_Qle_condition; split; lra.
  - apply Qabs_Qle_condition; split; lra.
  - rewrite inject_Z_plus; change (inject_Z 1) with 1%Q.
    apply Qabs_Qle_condition; split; lra.
Qed.

Lemma round_half_even_Z z : JS.round_half_even (inject_Z z) = z.
Proof.
  unfold JS.round_half_even. rewrite Qfloor_Z.
  replace (Qcompare (inject_Z z - inject_Z z) (1 # 2)) with Lt; [reflexivity|].
  symmetry. apply Qlt_alt.
  setoid_replace (inject_Z z - inject_Z z)%Q with 0%Q using relation Qeq by ring. reflexivity.
Qed.

Lemma round_half_even_comp x y : (x == y)%Q -> JS.round_half_even x = JS.round_half_even y.
Proof.
  intros H. unfold JS.round_half_even. rewrite (Qfloor_comp _ _ H).
  assert (E : (x - inject_Z (Qfloor y) == y - inject_Z (Qfloor y))%Q) by now rewrite H.
  now rewrite (Qcompare_comp _ _ E _ _ (Qeq_refl _)).
Qed.

Lemma pow2_frac a b j n d :
  0 <= a -> 0 <= b ->
  ((JS.pow2 (a - b + j) <= n # d)%Q <->
   (JS.pow2 j * inject_Z (2 ^ a * Zpos d) <= inject_Z (n * 2 ^ b))%Q) /\
  ((n # d < JS.pow2 (a - b + j))%Q <->
   (inject_Z (n * 2 ^ b) < JS.pow2 j * inject_Z (2 ^ a * Zpos d))%Q).
Proof.
  intros Ha Hb.
  assert (HB : 0 < 2 ^ b) by (apply Z.pow_pos_nonneg; lia).
  assert (Hz : (0 < inject_Z (2 ^ b) * inject_Z (Zpos d))%Q).
  { rewrite <- inject_Z_mult. change 0%Q with (inject_Z 0). rewrite <- Zlt_Qlt. lia. }
  assert (E1 : (JS.pow2 (a - b + j) * (inject_Z (2 ^ b) * inject_Z (Zpos d))
                == JS.pow2 j * inject_Z (2 ^ a * Zpos d))%Q).
  { replace (a - b + j) with (j + (a - b)) by lia.
    rewrite pow2_add, inject_Z_mult, <- (pow2_sub a b) by lia. ring. }
  assert (E2 : ((n # d) * (inject_Z (2 ^ b) * inject_Z (Zpos d)) == inject_Z (n * 2 ^ b))%Q).
  { rewrite inject_Z_mult. unfold Qeq, Qmult, inject_Z. cbn [Qnum Qden].
    rewrite !Pos2Z.inj_mul. ring. }
  split.
  - rewrite <- (Qmult_le_r _ _ _ Hz), E1, E2. reflexivity.
  - rewrite <- (Qmult_lt_r _ _ _ Hz), E1, E2. reflexivity.
Qed.

(** [JS.ilog2 x] is the exponent of the binade of [x]. *)
Lemma ilog2_spec x :
  ~ (x == 0)%Q -> (JS.pow2 (JS.ilog2 x) <= Qabs x /\ Qabs x < JS.pow2 (JS.ilog2 x + 1))%Q.
Proof.
  intros Hx. destruct x as [n d].
  assert (Hn : 0 < Z.abs n).
  { destruct (Z.eq_dec n 0) as [->|]; [|lia]. exfalso. apply Hx. reflexivity. }
  unfold JS.ilog2. cbn [Qnum Qden Qabs].
  pose proof (Z.log2_spec _ Hn) as Ha.
  pose proof (Z.log2_spec (Zpos d) ltac:(lia)) as Hb.
  pose proof (Z.log2_nonneg (Z.abs n)) as Ha0.
  pose proof (Z.log2_nonneg (Zpos d)) as Hb0.
  set (a := Z.log2 (Z.abs n)) in *. set (b := Z.log2 (Zpos d)) in *.
  rewrite !Z.pow_succ_r in * by lia.
  assert (HA : 0 < 2 ^ a) by (apply Z.pow_pos_nonneg; lia).
  assert (HB : 0 < 2 ^ b) by (apply Z.pow_pos_nonneg; lia).
  set (m := Z.abs n) in *. clearbody m.
  destruct (Z.leb_spec (2 ^ a * Z.pos d) (m * 2 ^ b)) as [Ht|Ht].
  - split.
    + replace (a - b) with (a - b + 0) by lia.
      apply (pow2_frac a b 0 m d Ha0 Hb0).
      change (JS.pow2 0) with 1%Q. rewrite Qmult_1_l. now rewrite <- Zle_Qle.
    + apply (pow2_frac a b 1 m d Ha0 Hb0).
      change (JS.pow2 1) with (inject_Z 2). rewrite <- inject_Z_mult, <- Zlt_Qlt. nia.
  - split.
    + replace (a - b - 1) with (a - b + - 1) by lia.
      apply (pow2_frac a b (- 1) m d Ha0 Hb0).
      apply (Qmult_le_r _ _ (inject_Z 2)); [reflexivity|].
      setoid_replace (JS.pow2 (- 1) * inject_Z (2 ^ a * Z.pos d) * inject_Z 2)%Q
        with (inject_Z (2 ^ a * Z.pos d)) using relation Qeq
        by (change (JS.pow2 (- 1)) with (1 # 2)%Q; field).
      rewrite <- inject_Z_mult, <- Zle_Qle. nia.
    + replace (a - b - 1 + 1) with (a - b + 0) by lia.
      apply (pow2_frac a b 0 m d Ha0 Hb0).
      change (JS.pow2 0) with 1%Q. rewrite Qmult_1_l. now rewrite <- Zlt_Qlt.
Qed.

Lemma ilog2_unique x k :
  (JS.pow2 k <= Qabs x)%Q -> (Qabs x < JS.pow2 (k + 1))%Q -> JS.ilog2 x = k.
Proof.
  intros H1 H2.
  assert (Hx : ~ (x == 0)%Q).
  { intros E. rewrite E in H1. pose proof (pow2_pos k) as Hp.
    change (Qabs 0) with 0%Q in H1. lra. }
  destruct (ilog2_spec x Hx) as [H3 H4].
  assert (k < JS.ilog2 x + 1) by (apply pow2_lt_inv; lra).
  assert (JS.ilog2 x < k + 1) by (apply pow2_lt_inv; lra).
  lia.
Qed.

Lemma ilog2_comp x y : ~ (y == 0)%Q -> (x == y)%Q -> JS.ilog2 x = JS.ilog2 y.
Proof.
  intros Hy E. destruct (ilog2_spec y Hy) as [H1 H2].
  apply ilog2_unique; now rewrite E.
Qed.

Lemma Qred_inject_Z z : Qred (inject_Z z) = inject_Z z.
Proof.
  unfold Qred, inject_Z.
  pose proof (Z.ggcd_gcd z 1) as Hg. pose proof (Z.ggcd_correct_divisors z 1) as Hd.
  destruct (Z.ggcd z 1) as [g [a b]]. cbn [fst snd] in *.
  rewrite Z.gcd_1_r in Hg. subst g. destruct Hd as [Hz Hb].
  f_equal; [lia|]. replace b with 1 by lia. reflexivity.
Qed.

Lemma double_zero x : (x == 0)%Q -> JS.double x = 0%Q.
Proof. intros E. unfold JS.double. apply Qeq_bool_iff in E. now rewrite E. Qed.

Lemma double_not_zero x :
  ~ (x == 0)%Q ->
  JS.double x = Qred (inject_Z (JS.round_half_even (x * JS.pow2 (- (Z.max (JS.ilog2 x) (-1022) - 52))))
                   * JS.pow2 (Z.max (JS.ilog2 x) (-1022) - 52)).
Proof.
  intros Hx. unfold JS.double. destruct (Qeq_bool x 0) eqn:E; [|reflexivity].
  apply Qeq_bool_iff in E. contradiction.
Qed.

(** [JS.double] depends on the value of the rational, not on the fraction that
    writes it. *)
Lemma double_comp x y : (x == y)%Q -> JS.double x = JS.double y.
Proof.
  intros E. destruct (Qeq_dec y 0) as [Hy|Hy].
  - rewrite (double_zero y Hy). apply double_zero. now rewrite E.
  - assert (Hx : ~ (x == 0)%Q) by now rewrite E.
    rewrite (double_not_zero x Hx), (double_not_zero y Hy).
    rewrite (ilog2_comp x y Hy E). apply Qred_complete.
    set (q := Z.max (JS.ilog2 y) (-1022) - 52).
    assert (E' : (x * JS.pow2 (- q) == y * JS.pow2 (- q))%Q) by now rewrite E.
    now rewrite (round_half_even_comp _ _ E').
Qed.

(** A number is less than half a unit in the last place away from its
    JS.double: the relative error is at most 2^-53 in the normal range. *)
Lemma double_rel x :
  (JS.pow2 (-1022) <= Qabs x)%Q -> (Qabs (JS.double x - x) <= Qabs x * JS.pow2 (-53))%Q.
Proof.
  intros Hn.
  assert (Hx : ~ (x == 0)%Q).
  { intros E. rewrite E in Hn. pose proof (pow2_pos (-1022)) as Hp.
    change (Qabs 0) with 0%Q in Hn. lra. }
  destruct (ilog2_spec x Hx) as [H1 H2].
  assert (He : -1022 <= JS.ilog2 x).
  { assert (-1022 < JS.ilog2 x + 1) by (apply pow2_lt_inv; lra). lia. }
  rewrite (double_not_zero x Hx), Qred_correct.
  rewrite Z.max_l by exact He.
  set (q := JS.ilog2 x - 52).
  pose proof (round_half_even_near (x * JS.pow2 (- q))) as Hr.
  set (r := inject_Z (JS.round_half_even (x * JS.pow2 (- q)))) in *. clearbody r.
  pose proof (pow2_pos q) as Hq.
  assert (E : (r * JS.pow2 q - x == (r - x * JS.pow2 (- q)) * JS.pow2 q)%Q).
  { setoid_replace ((r - x * JS.pow2 (- q)) * JS.pow2 q)%Q
      with (r * JS.pow2 q - x * (JS.pow2 (- q) * JS.pow2 q))%Q using relation Qeq by ring.
    rewrite pow2_inv. ring. }
  rewrite E, Qabs_Qmult, (Qabs_pos (JS.pow2 q)) by lra.
  assert (Hh : (JS.pow2 q * (1 # 2) == JS.pow2 (JS.ilog2 x) * JS.pow2 (- 53))%Q).
  { rewrite <- pow2_add. change (1 # 2)%Q with (JS.pow2 (- 1)). rewrite <- pow2_add.
    unfold q. now replace (JS.ilog2 x - 52 + - 1) with (JS.ilog2 x + - 53) by lia. }
  pose proof (pow2_pos (- 53)) as H53.
  apply Qle_trans with ((1 # 2) * JS.pow2 q)%Q.
  - apply Qmult_le_compat_r; lra.
  - rewrite Qmult_comm, Hh. apply Qmult_le_compat_r; lra.
Qed.

(** Whole numbers below 2^53 are doubles. *)
Lemma double_int z : Z.abs z < 2 ^ 53 -> JS.double (inject_Z z) = inject_Z z.
Proof.
  intros Hz. destruct (Z.eq_dec z 0) as [->|Hz0]; [reflexivity|].
  assert (Hx : ~ (inject_Z z == 0)%Q).
  { intros E. apply (proj1 (inject_Z_injective z 0)) in E. lia. }
  destruct (ilog2_spec _ Hx) as [H1 H2].
  assert (Habs : (Qabs (inject_Z z) == inject_Z (Z.abs z))%Q) by reflexivity.
  rewrite Habs in H1, H2.
  assert (He : 0 <= JS.ilog2 (inject_Z z) <= 52).
  { split.
    - assert (0 < JS.ilog2 (inject_Z z) + 1); [|lia].
      apply pow2_lt_inv. change (JS.pow2 0) with (inject_Z 1).
      apply Qle_lt_trans with (inject_Z (Z.abs z)); [|exact H2].
      rewrite <- Zle_Qle. lia.
    - assert (JS.ilog2 (inject_Z z) < 53); [|lia].
      apply pow2_lt_inv. apply Qle_lt_trans with (inject_Z (Z.abs z)); [exact H1|].
      rewrite (pow2_Z 53) by lia. now rewrite <- Zlt_Qlt. }
  rewrite (double_not_zero _ Hx). rewrite Z.max_l by lia.
  set (q := JS.ilog2 (inject_Z z) - 52) in *.
  transitivity (Qred (inject_Z z)); [|apply Qred_inject_Z]. apply Qred_complete.
  assert (E : (inject_Z z * JS.pow2 (- q) == inject_Z (z * 2 ^ (- q)))%Q).
  { rewrite inject_Z_mult, (pow2_Z (- q)) by lia. reflexivity. }
  rewrite (round_half_even_comp _ _ E), round_half_even_Z.
  rewrite inject_Z_mult, <- (pow2_Z (- q)) by lia.
  rewrite <- Qmult_assoc, pow2_inv. ring.
Qed.

(** ** The polyline codec: encoding and decoding *)

Lemma string_length_append (s t : string) :
  String.length (s +:+ t) = (String.length s + String.length t)%nat.
Proof.
  induction s as [|c s IH]; [reflexivity|].
  change (String c s +:+ t) with (String c (s +:+ t)).
  cbn [String.length]. now rewrite IH.
Qed.

Lemma charCode_fromCharCode n :
  0 <= n < 256 -> Polyline.charCode (Polyline.fromCharCode n) = n.
Proof.
  intros H. unfold Polyline.charCode, Polyline.fromCharCode.
  rewrite Z.mod_small by lia. rewrite nat_ascii_embedding by lia. lia.
Qed.

Lemma toInt32_small z : - 2 ^ 31 <= z < 2 ^ 31 -> JS.toInt32 z = z.
Proof. intros H. unfold JS.toInt32. rewrite Z.mod_small by lia. lia. Qed.

Lemma lor_disjoint a b k :
  0 <= k -> 0 <= a < 2 ^ k -> Z.lor a (b * 2 ^ k) = a + b * 2 ^ k.
Proof.
  intros Hk Ha.
  assert (H : Z.land a (b * 2 ^ k) = 0).
  { rewrite <- Z.shiftl_mul_pow2 by lia. apply Z.bits_inj'. intros n Hn.
    rewrite Z.land_spec, Z.bits_0.
    destruct (Z.lt_ge_cases n k) as [Hlt|Hge].
    - rewrite Z.shiftl_spec_low by lia. apply andb_false_r.
    - rewrite <- (Z.mod_small a (2 ^ k)) by lia.
      rewrite Z.mod_pow2_bits_high by lia. reflexivity. }
  rewrite (Z.add_nocarry_lxor _ _ H). symmetry. now apply Z.lxor_lor.
Qed.

Lemma land_31 v : Z.land v 31 = v mod 32.
Proof. change 31 with (Z.ones 5). rewrite Z.land_ones by lia. reflexivity. Qed.

Lemma read_encode_chunks rounds : forall v shift acc rest,
  0 <= shift <= 30 -> 0 <= v < 2 ^ (31 - shift) -> v < 2 ^ (5 * Z.of_nat rounds) ->
  0 <= acc < 2 ^ shift ->
  Polyline.read_chunk (Polyline.encode_chunks rounds v +:+ rest) shift acc
  = (acc + v * 2 ^ shift, rest).
Proof.
  induction rounds as [|n IH]; intros v shift acc rest Hs Hv Hr Ha.
  all: assert (HP : 2 ^ shift * 2 ^ (31 - shift) = 2 ^ 31)
         by (rewrite <- Z.pow_add_r by lia; f_equal; lia).
  all: assert (0 < 2 ^ shift) by (apply Z.pow_pos_nonneg; lia).
  all: cbn [Polyline.encode_chunks].
  all: destruct (Z.geb_spec v 32) as [Hge|Hlt].
  2,4: (change (Polyline.read_chunk (String (Polyline.fromCharCode (v + 63)) rest) shift acc
                = (acc + v * 2 ^ shift, rest));
        cbn [Polyline.read_chunk]; rewrite charCode_fromCharCode by lia;
        replace (v + 63 - 63) with v by lia;
        rewrite land_31, (Z.mod_small v 32), (Z.mod_small shift 32) by lia;
        rewrite Z.shiftl_mul_pow2 by lia;
        rewrite (toInt32_small (v * 2 ^ shift)) by nia;
        rewrite lor_disjoint by lia; rewrite toInt32_small by nia;
        destruct (Z.geb_spec v 32); [lia|reflexivity]).
  - cbn in Hr. lia.
  - change (Polyline.read_chunk
              (String (Polyline.fromCharCode (Z.lor 32 (Z.land v 31) + 63))
                 (Polyline.encode_chunks n (Z.shiftr v 5) +:+ rest)) shift acc
            = (acc + v * 2 ^ shift, rest)).
    cbn [Polyline.read_chunk].
    rewrite land_31.
    pose proof (Z.mod_pos_bound v 32 ltac:(lia)) as Hm.
    pose proof (Z.div_mod v 32 ltac:(lia)) as Hd.
    replace (Z.lor 32 (v mod 32)) with (32 + v mod 32).
    2:{ pose proof (lor_disjoint (v mod 32) 1 5 ltac:(lia)
                      ltac:(change (2 ^ 5) with 32; lia)) as Hlor.
        change (1 * 2 ^ 5) with 32 in Hlor. rewrite Z.lor_comm, Hlor. lia. }
    rewrite charCode_fromCharCode by lia.
    replace (32 + v mod 32 + 63 - 63) with (32 + v mod 32) by lia.
    rewrite land_31.
    replace ((32 + v mod 32) mod 32) with (v mod 32).
    2:{ rewrite <- Z.add_mod_idemp_r by lia. rewrite Z.add_mod by lia.
        rewrite Z.mod_mod by lia. change (32 mod 32) with 0. rewrite Z.add_0_l.
        rewrite Z.mod_mod by lia. now rewrite Z.mod_mod by lia. }
    assert (Hshift : shift <= 25).
    { destruct (Z.le_gt_cases shift 25) as [|Hgt]; [assumption|].
      assert (2 ^ (31 - shift) <= 2 ^ 5) by (apply Z.pow_le_mono_r; lia).
      change (2 ^ 5) with 32 in *. lia. }
    rewrite (Z.mod_small shift 32) by lia.
    rewrite Z.shiftl_mul_pow2 by lia.
    assert (HP5 : 2 ^ (shift + 5) = 32 * 2 ^ shift)
      by (rewrite Z.pow_add_r by lia; change (2 ^ 5) with 32; lia).
    assert (HR5 : 2 ^ (31 - shift) = 32 * 2 ^ (31 - (shift + 5))).
    { replace (31 - shift) with (31 - (shift + 5) + 5) by lia.
      rewrite Z.pow_add_r by lia. change (2 ^ 5) with 32. lia. }
    rewrite (toInt32_small (v mod 32 * 2 ^ shift)) by nia.
    rewrite lor_disjoint by lia. rewrite toInt32_small by nia.
    destruct (Z.geb_spec (32 + v mod 32) 32); [|lia].
    rewrite Z.shiftr_div_pow2 by lia. change (2 ^ 5) with 32.
    rewrite IH.
    + f_equal. rewrite HP5. lia.
    + lia.
    + split; [apply Z.div_pos; lia|].
      apply Z.div_lt_upper_bound; lia.
    + apply Z.div_lt_upper_bound; [lia|].
      replace (5 * Z.of_nat (S n)) with (5 * Z.of_nat n + 5) in Hr by lia.
      rewrite Z.pow_add_r in Hr by lia. change (2 ^ 5) with 32 in Hr. lia.
    + rewrite HP5. nia.
Qed.

Lemma whole_small z : Z.abs z < 2 ^ 53 -> JS.whole z = z.
Proof. intros H. unfold JS.whole. rewrite double_int by exact H. apply Qfloor_Z. Qed.

(** The number that [encode] cuts into chunks for a difference [d]. *)
Lemma encode_number_chunks current previous factor :
  let d := Polyline.py2_round (JS.double (current * factor))
           - Polyline.py2_round (JS.double (previous * factor)) in
  - 2 ^ 30 <= d < 2 ^ 30 ->
  Polyline.encode_number current previous factor
  = Polyline.encode_chunks 7 (if d <? 0 then - 2 * d - 1 else 2 * d).
Proof.
  cbv zeta. intros Hd. unfold Polyline.encode_number.
  set (d := Polyline.py2_round (JS.double (current * factor))
            - Polyline.py2_round (JS.double (previous * factor))) in *.
  rewrite whole_small by lia.
  rewrite (toInt32_small d) by lia.
  rewrite Z.shiftl_mul_pow2 by lia. change (2 ^ 1) with 2.
  rewrite toInt32_small by lia.
  destruct (Z.ltb_spec d 0); f_equal; unfold Z.lnot; lia.
Qed.

Lemma land_1 v : Z.land v 1 = v mod 2.
Proof. change 1 with (Z.ones 1). rewrite Z.land_ones by lia. reflexivity. Qed.

Lemma change_zigzag d :
  Polyline.change (if d <? 0 then - 2 * d - 1 else 2 * d) = d.
Proof.
  unfold Polyline.change. rewrite land_1, Z.shiftr_div_pow2 by lia.
  change (2 ^ 1) with 2.
  destruct (Z.ltb_spec d 0).
  - replace (- 2 * d - 1) with (1 + (- d - 1) * 2) by lia.
    rewrite Z.mod_add, Z.div_add by lia.
    change (1 `mod` 2) with 1. change (1 `div` 2) with 0. change (1 =? 0) with false.
    cbv iota. unfold Z.lnot. lia.
  - replace (2 * d) with (0 + d * 2) by lia.
    rewrite Z.mod_add, Z.div_add by lia. reflexivity.
Qed.

Lemma encode_chunks_not_empty n v : exists c s, Polyline.encode_chunks (S n) v = String c s.
Proof. cbn [Polyline.encode_chunks]. destruct (v >=? 32); eauto. Qed.

(** One number read back: the difference and the rest of the string. *)
Lemma read_encode_number current previous factor rest :
  let d := Polyline.py2_round (JS.double (current * factor))
           - Polyline.py2_round (JS.double (previous * factor)) in
  - 2 ^ 30 <= d < 2 ^ 30 ->
  Polyline.read_chunk (Polyline.encode_number current previous factor +:+ rest) 0 0
  = (if d <? 0 then - 2 * d - 1 else 2 * d, rest).
Proof.
  cbv zeta. intros Hd. rewrite encode_number_chunks by exact Hd.
  set (d := Polyline.py2_round (JS.double (current * factor))
            - Polyline.py2_round (JS.double (previous * factor))) in *.
  rewrite read_encode_chunks.
  - f_equal. change (2 ^ 0) with 1. lia.
  - lia.
  - change (2 ^ (31 - 0)) with (2 * 2 ^ 30). destruct (Z.ltb_spec d 0); lia.
  - change (2 ^ (5 * Z.of_nat 7)) with (32 * 2 ^ 30). destruct (Z.ltb_spec d 0); lia.
  - change (2 ^ 0) with 1. lia.
Qed.

Lemma decode_loop_step n s lat lng :
  s <> "" ->
  Polyline.decode_loop (S n) s lat lng =
  let '(r1, s1) := Polyline.read_chunk s 0 0 in
  let '(r2, s2) := Polyline.read_chunk s1 0 0 in
  (JS.whole (lat + Polyline.change r1), JS.whole (lng + Polyline.change r2))
    :: Polyline.decode_loop n s2 (JS.whole (lat + Polyline.change r1))
         (JS.whole (lng + Polyline.change r2)).
Proof. destruct s; [congruence|reflexivity]. Qed.

Lemma decode_encode_rest factor coordinates : forall b n,
  in_reach (fst (scaled factor b)) -> in_reach (snd (scaled factor b)) ->
  Forall (fun c => in_reach (fst (scaled factor c)) /\ in_reach (snd (scaled factor c)))
    coordinates ->
  (String.length (Polyline.encode_rest factor b coordinates) <= n)%nat ->
  Polyline.decode_loop n (Polyline.encode_rest factor b coordinates)
    (fst (scaled factor b)) (snd (scaled factor b))
  = map (scaled factor) coordinates.
Proof.
  induction coordinates as [|a rest IH]; intros b n Hb1 Hb2 Hall Hn.
  - destruct n; reflexivity.
  - apply Forall_cons in Hall. destruct Hall as [[Ha1 Ha2] Hall].
    cbn [Polyline.encode_rest] in *.
    assert (Hne : exists c s, Polyline.encode_number (fst a) (fst b) factor = String c s).
    { unfold Polyline.encode_number. apply encode_chunks_not_empty. }
    destruct Hne as (c & s & Hcs).
    rewrite !string_length_append in Hn.
    assert (Hlen : (1 <= String.length (Polyline.encode_number (fst a) (fst b) factor))%nat)
      by (rewrite Hcs; cbn [String.length]; lia).
    destruct n as [|n]; [lia|].
    rewrite decode_loop_step.
    2:{ rewrite Hcs. discriminate. }
    pose proof (IH a n Ha1 Ha2 Hall ltac:(lia)) as IHa.
    unfold in_reach, scaled in *. cbn [fst snd] in *.
    rewrite read_encode_number by lia.
    rewrite read_encode_number by lia.
    rewrite !change_zigzag.
    replace (Polyline.py2_round (JS.double (fst b * factor))
             + (Polyline.py2_round (JS.double (fst a * factor))
                - Polyline.py2_round (JS.double (fst b * factor))))
      with (Polyline.py2_round (JS.double (fst a * factor))) by lia.
    replace (Polyline.py2_round (JS.double (snd b * factor))
             + (Polyline.py2_round (JS.double (snd a * factor))
                - Polyline.py2_round (JS.double (snd b * factor))))
      with (Polyline.py2_round (JS.double (snd a * factor))) by lia.
    rewrite !whole_small by lia.
    cbn [map]. f_equal. exact IHa.
Qed.

Lemma py2_round_0 factor : Polyline.py2_round (JS.double (0 * factor)) = 0.
Proof.
  rewrite (double_zero (0 * factor)) by ring.
  unfold Polyline.py2_round. cbn [Qnum Z.sgn]. lia.
Qed.

(** Decoding what [polyline.encode] wrote: the scaled coordinates, divided by
    the factor. *)
Lemma decode_encode coordinates precision :
  let factor := Polyline.factor precision in
  Forall (fun c => in_reach (fst (scaled factor c)) /\ in_reach (snd (scaled factor c)))
    coordinates ->
  Polyline.decode (Polyline.encode coordinates precision) precision
  = map (fun c => quotients factor (scaled factor c)) coordinates.
Proof.
  cbv zeta. intros Hall. unfold Polyline.decode.
  set (factor := Polyline.factor precision) in *.
  assert (Hloop : Polyline.decode_loop
                    (String.length (Polyline.encode coordinates precision))
                    (Polyline.encode coordinates precision) 0 0
                  = map (scaled factor) coordinates).
  { assert (Hz : scaled factor (0%Q, 0%Q) = (0, 0))
      by (unfold scaled; cbn [fst snd]; now rewrite py2_round_0).
    pose proof (decode_encode_rest factor coordinates (0%Q, 0%Q)
                  (String.length (Polyline.encode coordinates precision))) as H.
    rewrite Hz in H. cbn [fst snd] in H.
    destruct coordinates as [|c0 rest]; [reflexivity|].
    apply H; [unfold in_reach; lia | unfold in_reach; lia | exact Hall | reflexivity]. }
  rewrite Hloop, map_map. apply map_ext. intros c.
  destruct (scaled factor c). reflexivity.
Qed.

Lemma Qfloor_between x k :
  (inject_Z k <= x)%Q -> (x < inject_Z (k + 1))%Q -> Qfloor x = k.
Proof.
  intros H1 H2.
  pose proof (Qfloor_le x) as H3. pose proof (Qlt_floor x) as H4.
  assert (Qfloor x < k + 1) by (rewrite Zlt_Qlt; eapply Qle_lt_trans; eauto).
  assert (k < Qfloor x + 1) by (rewrite Zlt_Qlt; eapply Qle_lt_trans; eauto).
  lia.
Qed.

Lemma Qnum_pos v : (0 < v)%Q -> Z.sgn (Qnum v) = 1.
Proof. destruct v as [a b]. unfold Qlt. cbn. lia. Qed.

Lemma Qnum_neg v : (v < 0)%Q -> Z.sgn (Qnum v) = - 1.
Proof. destruct v as [a b]. unfold Qlt. cbn. lia. Qed.

(** [py2_round] of a double near a whole number is that number. *)
Lemma py2_round_near v n :
  Z.abs n <= 2 ^ 29 -> (Qabs (v - inject_Z n) <= 1 # 4194304)%Q -> Polyline.py2_round v = n.
Proof.
  intros Hn Hv. unfold Polyline.py2_round.
  apply Qabs_Qle_condition in Hv. destruct Hv as [Hv1 Hv2].
  assert (HN : (inject_Z (Z.abs n) <= 536870912 # 1)%Q).
  { change (536870912 # 1)%Q with (inject_Z 536870912). rewrite <- Zle_Qle. lia. }
  assert (HN0 : (0 <= inject_Z (Z.abs n))%Q).
  { change 0%Q with (inject_Z 0). rewrite <- Zle_Qle. lia. }
  assert (Hfloor : (inject_Z (Z.abs n) - (1 # 4194304) <= Qabs v)%Q ->
                   (Qabs v <= inject_Z (Z.abs n) + (1 # 4194304))%Q ->
                   Qfloor (JS.double (Qabs v + (1 # 2))) = Z.abs n).
  { intros Ha1 Ha2.
    pose proof (Qabs_nonneg v) as Ha0.
    set (A := Qabs v) in *. clearbody A.
    set (N := inject_Z (Z.abs n)) in *.
    assert (Hw : (JS.pow2 (-1022) <= Qabs (A + (1 # 2)))%Q).
    { rewrite Qabs_pos by lra. apply Qle_trans with (JS.pow2 (- 1)).
      - apply pow2_le. lia.
      - change (JS.pow2 (- 1)) with (1 # 2)%Q. lra. }
    pose proof (double_rel _ Hw) as Hd.
    rewrite (Qabs_pos (A + (1 # 2))) in Hd by lra.
    change (JS.pow2 (-53)) with (1 # 9007199254740992)%Q in Hd.
    apply Qabs_Qle_condition in Hd. destruct Hd as [Hd1 Hd2].
    set (dw := JS.double (A + (1 # 2))) in *. clearbody dw.
    apply Qfloor_between.
    - fold N. clearbody N. lra.
    - rewrite inject_Z_plus. fold N. change (inject_Z 1) with 1%Q. clearbody N. lra. }
  destruct (Z.lt_trichotomy n 0) as [Hneg|[->|Hpos]].
  - assert (E : inject_Z n = (- inject_Z (Z.abs n))%Q).
    { rewrite <- inject_Z_opp. f_equal. lia. }
    rewrite E in Hv1, Hv2.
    assert (H1 : (1 <= inject_Z (Z.abs n))%Q).
    { change 1%Q with (inject_Z 1). rewrite <- Zle_Qle. lia. }
    assert (Hlt : (v < 0)%Q) by (clear E; set (N := inject_Z (Z.abs n)) in *; clearbody N; lra).
    rewrite (Qnum_neg v Hlt).
    rewrite Hfloor; [lia| |]; rewrite Qabs_neg by lra;
      clear E; set (N := inject_Z (Z.abs n)) in *; clearbody N; lra.
  - change (inject_Z 0) with 0%Q in *. change (inject_Z (Z.abs 0)) with 0%Q in *.
    rewrite Hfloor; [reflexivity| |].
    + pose proof (Qabs_nonneg v). lra.
    + apply Qle_trans with (1 # 4194304)%Q; [|lra].
      apply Qabs_Qle_condition. split; lra.
  - assert (E : inject_Z n = inject_Z (Z.abs n)) by (f_equal; lia).
    rewrite E in Hv1, Hv2.
    assert (H1 : (1 <= inject_Z (Z.abs n))%Q).
    { change 1%Q with (inject_Z 1). rewrite <- Zle_Qle. lia. }
    assert (Hlt : (0 < v)%Q) by (clear E; set (N := inject_Z (Z.abs n)) in *; clearbody N; lra).
    rewrite (Qnum_pos v Hlt).
    rewrite Hfloor; [lia| |]; rewrite Qabs_pos by lra;
      clear E; set (N := inject_Z (Z.abs n)) in *; clearbody N; lra.
Qed.

(** A whole number divided by the factor and multiplied by it again, both as
    doubles, is less than 2^-22 away from the number, so [py2_round] gives
    the number back. *)
Lemma scaled_decoded F n :
  1 <= F <= 10 ^ 22 -> Z.abs n <= 2 ^ 29 ->
  Polyline.py2_round
    (JS.double (JS.double (inject_Z n / inject_Z F) * inject_Z F)) = n.
Proof.
  intros HF Hn. apply py2_round_near; [exact Hn|].
  assert (Hf1 : (1 <= inject_Z F)%Q).
  { change 1%Q with (inject_Z 1). rewrite <- Zle_Qle. lia. }
  assert (Hf2 : (inject_Z F <= 10000000000000000000000 # 1)%Q).
  { change (10000000000000000000000 # 1)%Q with (inject_Z (10 ^ 22)).
    rewrite <- Zle_Qle. lia. }
  destruct (Z.eq_dec n 0) as [->|Hn0].
  { rewrite (double_zero (inject_Z 0 / inject_Z F)) by reflexivity.
    rewrite (double_zero (0 * inject_Z F)) by ring. discriminate. }
  assert (HN : (inject_Z (Z.abs n) <= 536870912 # 1)%Q).
  { change (536870912 # 1)%Q with (inject_Z 536870912). rewrite <- Zle_Qle. lia. }
  assert (HN1 : (1 <= inject_Z (Z.abs n))%Q).
  { change 1%Q with (inject_Z 1). rewrite <- Zle_Qle. lia. }
  assert (HNabs : (Qabs (inject_Z n) == inject_Z (Z.abs n))%Q) by reflexivity.
  set (N := inject_Z (Z.abs n)) in *. clearbody N.
  set (f := inject_Z F) in *. clearbody f.
  set (x := (inject_Z n / f)%Q).
  assert (Hxf : (x * f == inject_Z n)%Q) by (unfold x; field; lra).
  assert (Hax : (Qabs x * f == N)%Q).
  { rewrite <- HNabs, <- Hxf, Qabs_Qmult, (Qabs_pos f) by lra. reflexivity. }
  assert (Hsmall : (JS.pow2 (-1022) <= 1 # 18889465931478580854784)%Q).
  { change (1 # 18889465931478580854784)%Q with (JS.pow2 (- 74)). apply pow2_le. lia. }
  assert (Hnx : (JS.pow2 (-1022) <= Qabs x)%Q).
  { apply (Qmult_le_r _ _ f); [lra|]. rewrite Hax.
    apply Qle_trans with ((1 # 18889465931478580854784) * f)%Q; [|lra].
    apply Qmult_le_compat_r; lra. }
  pose proof (double_rel x Hnx) as D1.
  change (JS.pow2 (-53)) with (1 # 9007199254740992)%Q in D1.
  set (x' := JS.double x) in *. clearbody x'.
  set (y := (x' * f)%Q) in *.
  assert (B1 : (Qabs (y - inject_Z n) <= N * (1 # 9007199254740992))%Q).
  { assert (E : (y - inject_Z n == (x' - x) * f)%Q) by (rewrite <- Hxf; unfold y; ring).
    rewrite E, Qabs_Qmult, (Qabs_pos f) by lra.
    apply Qle_trans with (Qabs x * (1 # 9007199254740992) * f)%Q.
    - apply Qmult_le_compat_r; lra.
    - assert (E2 : (Qabs x * (1 # 9007199254740992) * f
                    == Qabs x * f * (1 # 9007199254740992))%Q) by ring.
      rewrite E2, Hax. apply Qle_refl. }
  pose proof (Qabs_triangle_reverse (inject_Z n) y) as T1.
  pose proof (Qabs_triangle_reverse y (inject_Z n)) as T2.
  rewrite (Qabs_Qminus (inject_Z n) y) in T1. rewrite HNabs in T1, T2.
  assert (Hny : (JS.pow2 (-1022) <= Qabs y)%Q).
  { apply Qle_trans with (1 # 18889465931478580854784)%Q; [exact Hsmall|].
    set (Ay := Qabs y) in *. set (E1 := Qabs (y - inject_Z n)) in *.
    clearbody Ay E1. lra. }
  pose proof (double_rel y Hny) as D2.
  change (JS.pow2 (-53)) with (1 # 9007199254740992)%Q in D2.
  set (v := JS.double y) in *. clearbody v.
  assert (T3 : (Qabs (v - inject_Z n) <= Qabs (v - y) + Qabs (y - inject_Z n))%Q).
  { assert (E : (v - inject_Z n == (v - y) + (y - inject_Z n))%Q) by ring.
    rewrite E. apply Qabs_triangle. }
  set (Ay := Qabs y) in *. set (E1 := Qabs (y - inject_Z n)) in *.
  set (E2 := Qabs (v - y)) in *. set (G := Qabs (v - inject_Z n)) in *.
  clearbody Ay E1 E2 G. lra.
Qed.

(** The distance of a number from its double: half a unit in the last place,
    which is [2^-53] of the number in the normal range and [2^-1075] below. *)
Lemma double_abs x :
  (Qabs (JS.double x - x) <= Qabs x * (1 # 9007199254740992) + JS.pow2 (-1075))%Q.
Proof.
  pose proof (pow2_pos (-1075)) as Hp. pose proof (Qabs_nonneg x) as Hx0.
  destruct (Qeq_dec x 0) as [Hx|Hx].
  { rewrite (double_zero x Hx).
    assert (E : (0 - x == 0)%Q) by (rewrite Hx; reflexivity).
    rewrite E. change (Qabs 0) with 0%Q.
    set (A := Qabs x) in *. clearbody A. lra. }
  destruct (Z.le_gt_cases (-1022) (JS.ilog2 x)) as [He|He].
  - destruct (ilog2_spec x Hx) as [H1 _].
    assert (Hn : (JS.pow2 (-1022) <= Qabs x)%Q).
    { apply Qle_trans with (JS.pow2 (JS.ilog2 x)); [now apply pow2_le|exact H1]. }
    pose proof (double_rel x Hn) as D.
    change (JS.pow2 (-53)) with (1 # 9007199254740992)%Q in D.
    set (A := Qabs x) in *. set (B := Qabs (JS.double x - x)) in *. clearbody A B. lra.
  - rewrite (double_not_zero x Hx), Qred_correct.
    rewrite Z.max_r by lia. change (-1022 - 52) with (-1074).
    pose proof (round_half_even_near (x * JS.pow2 (- -1074))) as Hr.
    set (r := inject_Z (JS.round_half_even (x * JS.pow2 (- -1074)))) in *. clearbody r.
    pose proof (pow2_pos (-1074)) as Hq.
    assert (E : (r * JS.pow2 (-1074) - x == (r - x * JS.pow2 (- -1074)) * JS.pow2 (-1074))%Q).
    { setoid_replace ((r - x * JS.pow2 (- -1074)) * JS.pow2 (-1074))%Q
        with (r * JS.pow2 (-1074) - x * (JS.pow2 (- -1074) * JS.pow2 (-1074)))%Q
        using relation Qeq by ring.
      rewrite pow2_inv. ring. }
    rewrite E, Qabs_Qmult, (Qabs_pos (JS.pow2 (-1074))) by lra.
    assert (Hh : ((1 # 2) * JS.pow2 (-1074) == JS.pow2 (-1075))%Q).
    { change (1 # 2)%Q with (JS.pow2 (- 1)). rewrite <- pow2_add. reflexivity. }
    apply Qle_trans with ((1 # 2) * JS.pow2 (-1074))%Q.
    + apply Qmult_le_compat_r; lra.
    + rewrite Hh. set (A := Qabs x) in *. clearbody A. lra.
Qed.

(** What [py2_round] makes of a double is within half a unit, and 2^-23, of
    the double. *)
Lemma py2_round_within v :
  Z.abs (Polyline.py2_round v) <= 2 ^ 29 ->
  (Qabs (inject_Z (Polyline.py2_round v) - v) <= (1 # 2) + (1 # 8388608))%Q.
Proof.
  unfold Polyline.py2_round.
  assert (Hw : forall A, (0 <= A)%Q -> (JS.pow2 (-1022) <= Qabs (A + (1 # 2)))%Q).
  { intros A HA. rewrite Qabs_pos by lra. apply Qle_trans with (JS.pow2 (- 1)).
    - apply pow2_le. lia.
    - change (JS.pow2 (- 1)) with (1 # 2)%Q. lra. }
  pose proof (Qabs_nonneg v) as HA.
  pose proof (double_rel _ (Hw _ HA)) as D.
  rewrite (Qabs_pos (Qabs v + (1 # 2))) in D by lra.
  change (JS.pow2 (-53)) with (1 # 9007199254740992)%Q in D.
  apply Qabs_Qle_condition in D. destruct D as [D1 D2].
  pose proof (Qfloor_le (JS.double (Qabs v + (1 # 2)))) as F1.
  pose proof (Qlt_floor (JS.double (Qabs v + (1 # 2)))) as F2.
  rewrite inject_Z_plus in F2. change (inject_Z 1) with 1%Q in F2.
  set (k := Qfloor (JS.double (Qabs v + (1 # 2)))) in *.
  set (dw := JS.double (Qabs v + (1 # 2))) in *. clearbody dw. clearbody k.
  destruct (Q_dec v 0) as [[Hneg|Hpos]|Hz].
  - rewrite (Qnum_neg v Hneg). rewrite Qabs_neg in * by lra. intros Hk.
    assert (HK : (inject_Z k <= 536870912 # 1)%Q).
    { change (536870912 # 1)%Q with (inject_Z 536870912). rewrite <- Zle_Qle. lia. }
    replace (k * - 1) with (- k) by lia. rewrite inject_Z_opp.
    set (K := inject_Z k) in *. clearbody K.
    apply Qabs_Qle_condition. split; lra.
  - rewrite (Qnum_pos v Hpos). rewrite Qabs_pos in * by lra. intros Hk.
    assert (HK : (inject_Z k <= 536870912 # 1)%Q).
    { change (536870912 # 1)%Q with (inject_Z 536870912). rewrite <- Zle_Qle. lia. }
    rewrite Z.mul_1_r.
    set (K := inject_Z k) in *. clearbody K.
    apply Qabs_Qle_condition. split; lra.
  - intros _. assert (E : Qnum v = 0).
    { destruct v as [a b]. unfold Qeq in Hz. cbn in Hz. cbn. lia. }
    rewrite E. cbn [Z.sgn]. rewrite Z.mul_0_r.
    assert (E' : (inject_Z 0 - v == 0)%Q) by (rewrite Hz; reflexivity).
    rewrite E'. discriminate.
Qed.

(** The whole number that [encode] makes of a coordinate is within half a
    unit, and 2^-22, of the exact product. *)
Lemma scaled_within c factor :
  Z.abs (Polyline.py2_round (JS.double (c * factor))) <= 2 ^ 29 ->
  near_half (Polyline.py2_round (JS.double (c * factor))) (c * factor).
Proof.
  intros Hn. unfold near_half.
  pose proof (py2_round_within _ Hn) as H1.
  pose proof (double_abs (c * factor)) as H2.
  assert (Hp : (JS.pow2 (-1075) <= 1 # 18889465931478580854784)%Q).
  { change (1 # 18889465931478580854784)%Q with (JS.pow2 (- 74)). apply pow2_le. lia. }
  assert (HN : (Qabs (inject_Z (Polyline.py2_round (JS.double (c * factor))))
                <= 536870912 # 1)%Q).
  { change (Qabs (inject_Z ?z)) with (inject_Z (Z.abs z)).
    change (536870912 # 1)%Q with (inject_Z 536870912). rewrite <- Zle_Qle. lia. }
  set (x := (c * factor)%Q) in *. clearbody x.
  set (v := JS.double x) in *. clearbody v.
  set (n := inject_Z (Polyline.py2_round v)) in *. clearbody n.
  pose proof (Qabs_triangle_reverse v n) as T1.
  pose proof (Qabs_triangle_reverse x v) as T2.
  rewrite (Qabs_Qminus v n) in T1. rewrite (Qabs_Qminus x v) in T2.
  assert (T3 : (Qabs (n - x) <= Qabs (n - v) + Qabs (v - x))%Q).
  { assert (E : (n - x == (n - v) + (v - x))%Q) by ring.
    rewrite E. apply Qabs_triangle. }
  set (P := JS.pow2 (-1075)) in *.
  set (An := Qabs n) in *. set (Av := Qabs v) in *. set (Ax := Qabs x) in *.
  set (E1 := Qabs (n - v)) in *. set (E2 := Qabs (v - x)) in *.
  set (G := Qabs (n - x)) in *. clearbody P An Av Ax E1 E2 G. lra.
Qed.

(** The factors of the precisions from 0 to 22: powers of ten. *)
Lemma factor_values precision :
  0 <= precision <= 22 ->
  exists F, Polyline.factor precision = inject_Z F /\ 1 <= F <= 10 ^ 22.
Proof.
  intros H.
  assert (Hall : Forall (fun p => (Qnum (Polyline.factor p) <=? 10 ^ 22) = true /\
                                  (1 <=? Qnum (Polyline.factor p)) = true /\
                                  Qden (Polyline.factor p) = 1%positive)
                        (map Z.of_nat (seq 0 23))).
  { repeat constructor. }
  rewrite List.Forall_forall in Hall.
  destruct (Hall precision) as (H1 & H2 & H3).
  { apply in_map_iff. exists (Z.to_nat precision).
    split; [lia|]. apply in_seq. lia. }
  exists (Qnum (Polyline.factor precision)). split; [|lia].
  destruct (Polyline.factor precision) as [a b]. cbn in *. now subst b.
Qed.

(** The product is rounded before [py2_round] sees it: the greatest double
    below 0.000025, times 10^5, is 2.5 as a double, which goes up to 3, where
    the exact product stays below 2.5 and would go down to 2. *)
Example encode_rounds_the_double_product :
  Polyline.encode [(1844674407370955 # 73786976294838206464, 0)%Q] 5 = "E?" /\
  JS.double ((1844674407370955 # 73786976294838206464) * Polyline.factor 5) = (5 # 2)%Q /\
  Qfloor (Qabs ((1844674407370955 # 73786976294838206464) * Polyline.factor 5) + (1 # 2)) = 2.
Proof. repeat split; vm_compute; reflexivity. Qed.

(** X1 (the polyline codec, round trip; numbers are doubles, precisions the
    whole numbers from 0 to 22).  Let n be the whole numbers that [encode]
    makes of the coordinates, [py2_round(c * factor)] with the product and the
    sum in [py2_round] rounded as doubles are.  As long as they lie between
    -2^29 and 2^29 (which holds for latitudes and longitudes up to six
    decimals), decoding the encoded line gives the doubles [n / factor]; each
    n is within a half and 2^-22 of the exact product [c * factor]; and points
    that are such doubles [n / factor] come back as they were. *)
Theorem polyline_round_trip coordinates (points : list (Z * Z)) precision :
  let factor := Polyline.factor precision in
  0 <= precision <= 22 ->
  Forall (fun c => in_reach (fst (scaled factor c)) /\ in_reach (snd (scaled factor c)))
    coordinates ->
  Forall (fun p => in_reach (fst p) /\ in_reach (snd p)) points ->
  Polyline.decode (Polyline.encode coordinates precision) precision
  = map (fun c => quotients factor (scaled factor c)) coordinates /\
  Forall (fun c => near_half (fst (scaled factor c)) (fst c * factor) /\
                   near_half (snd (scaled factor c)) (snd c * factor)) coordinates /\
  Polyline.decode (Polyline.encode (map (quotients factor) points) precision) precision
  = map (quotients factor) points.
Proof.
  cbv zeta. intros Hp Hall Hpoints.
  split; [now apply decode_encode|].
  split.
  { eapply Forall_impl; [exact Hall|].
    intros c [H1 H2]. unfold scaled, in_reach in *. cbn [fst snd] in *.
    split; apply scaled_within; lia. }
  destruct (factor_values precision Hp) as (F & HF & HF1).
  assert (Hsc : forall p, in_reach (fst p) /\ in_reach (snd p) ->
                  scaled (Polyline.factor precision) (quotients (Polyline.factor precision) p) = p).
  { intros [a b] [Ha Hb]. unfold scaled, quotients, in_reach in *. cbn [fst snd] in *.
    rewrite HF. rewrite !scaled_decoded by lia. reflexivity. }
  rewrite decode_encode.
  - rewrite map_map. apply map_ext_in. intros p Hin.
    rewrite Hsc; [reflexivity|].
    rewrite List.Forall_forall in Hpoints. now apply Hpoints.
  - apply Forall_map. eapply Forall_impl; [exact Hpoints|].
    intros p Hr. unfold compose. now rewrite (Hsc p Hr).
Qed.

Lemma polyline_round_trip_witness :
  Polyline.encode three_points 5 = "_p~iF~ps|U_ulLnnqC_mqNvxq`@" /\
  Polyline.decode (Polyline.encode three_points 5) 5
  = [(77 # 2, -8458323050155213 # 70368744177664);
     (2864007888030925 # 70368744177664, -8511099608288461 # 70368744177664);
     (6087177846344647 # 140737488355328, -4449169403749073 # 35184372088832)]%Q.
Proof.
  split; [vm_compute; reflexivity|].
  refine (eq_trans (proj1 (polyline_round_trip three_points [] 5 _ _ _)) _).
  - lia.
  - repeat constructor; vm_compute; congruence.
  - constructor.
  - vm_compute. reflexivity.
Defined.

(** ** The route line: the closest point and the waypoint before it *)

Section LineFacts.

Variable distanceTo : LatLng -> LatLng -> Q.

#[local] Abbreviation closest := (Line.closest distanceTo).

Lemma below_Some d m : Line.below d (Some m) = true <-> (d < m)%Q.
Proof.
  unfold Line.below. rewrite negb_true_iff. split.
  - intros H. apply Qnot_le_lt. intros Hle. apply Qle_bool_iff in Hle. congruence.
  - intros H. destruct (Qle_bool m d) eqn:E; [|reflexivity].
    apply Qle_bool_iff in E. now apply Qlt_not_le in H.
Qed.

Lemma not_below d m : Line.below d (Some m) = false -> (m <= d)%Q.
Proof.
  unfold Line.below. rewrite negb_false_iff. apply Qle_bool_iff.
Qed.

(** The loop ends with the start value, which nothing was below, or with the
    first of the coordinates below everything before it and the start value,
    which nothing after it is below. *)
Lemma closest_scan latlng l : forall minIndex minDist,
  (closest latlng l minIndex minDist = minIndex /\
   Forall (fun e => Line.below (distanceTo latlng (snd e)) minDist = false) l) \/
  (exists pre i c post,
      l = pre ++ (i, c) :: post /\
      closest latlng l minIndex minDist = Some i /\
      Line.below (distanceTo latlng c) minDist = true /\
      Forall (fun e => (distanceTo latlng c < distanceTo latlng (snd e))%Q) pre /\
      Forall (fun e => (distanceTo latlng c <= distanceTo latlng (snd e))%Q) post).
Proof.
  induction l as [|[j c'] l IH]; intros minIndex minDist.
  - left. split; [reflexivity | constructor].
  - cbn [Line.closest].
    destruct (Line.below (distanceTo latlng c') minDist) eqn:Hb.
    + right.
      destruct (IH (Some j) (Some (distanceTo latlng c')))
        as [[Hr Hall] | (pre & i & c & post & -> & Hr & Hbelow & Hpre & Hpost)].
      * exists [], j, c', l. repeat split; try assumption; [constructor|].
        eapply Forall_impl; [exact Hall|]. intros e He. now apply not_below.
      * apply below_Some in Hbelow.
        exists ((j, c') :: pre), i, c, post. repeat split; try assumption.
        -- destruct minDist as [m|]; [|reflexivity].
           apply below_Some. apply below_Some in Hb. eapply Qlt_trans; eassumption.
        -- constructor; assumption.
    + destruct minDist as [m|]; [|discriminate].
      apply not_below in Hb.
      destruct (IH minIndex (Some m))
        as [[Hr Hall] | (pre & i & c & post & -> & Hr & Hbelow & Hpre & Hpost)].
      * left. split; [exact Hr|]. constructor; [|exact Hall].
        cbn [snd]. destruct (Line.below (distanceTo latlng c') (Some m)) eqn:E; [|reflexivity].
        apply below_Some in E. now apply Qlt_not_le in E.
      * right. exists ((j, c') :: pre), i, c, post. repeat split; try assumption.
        constructor; [|assumption]. cbn.
        apply below_Some in Hbelow. eapply Qlt_le_trans; eassumption.
Qed.

End LineFacts.

Lemma lookup_reverse_imap {A} (l : list A) k x :
  reverse (imap pair l) !! k = Some x ->
  (k < length l)%nat /\ fst x = (length l - S k)%nat /\ l !! (length l - S k)%nat = Some (snd x).
Proof.
  intros H. apply reverse_lookup_Some in H. rewrite length_imap in H.
  destruct H as [H Hk]. split; [exact Hk|].
  apply list_lookup_imap_Some in H. destruct H as (y & Hy & ->). cbn. auto.
Qed.

(** X2 (the closest point of the line).  [_findClosestRoutePoint]
    answers [undefined] only for a line without coordinates; otherwise it
    answers the index of a coordinate that no coordinate is nearer to than,
    and every coordinate after it is strictly farther: of several nearest
    coordinates it is the last. *)
Theorem closest_route_point distanceTo coordinates latlng :
  match Line._findClosestRoutePoint distanceTo coordinates latlng with
  | None => coordinates = []
  | Some i =>
      exists c, coordinates !! i = Some c /\
        forall j c', coordinates !! j = Some c' ->
          (distanceTo latlng c <= distanceTo latlng c')%Q /\
          ((i < j)%nat -> (distanceTo latlng c < distanceTo latlng c')%Q)
  end.
Proof.
  unfold Line._findClosestRoutePoint.
  set (l := reverse (imap pair coordinates)).
  destruct (closest_scan distanceTo latlng l None None)
    as [[Hr Hall] | (pre & i & c & post & Hl & Hr & _ & Hpre & Hpost)].
  - rewrite Hr. destruct l as [|e l'] eqn:El.
    + subst l. apply (f_equal length) in El.
      rewrite length_reverse, length_imap in El. now destruct coordinates.
    + apply Forall_cons in Hall. destruct Hall as [Hd _]. discriminate.
  - rewrite Hr.
    assert (Hi : l !! length pre = Some (i, c)).
    { rewrite Hl. rewrite lookup_app_r by lia. now rewrite Nat.sub_diag. }
    apply lookup_reverse_imap in Hi. cbn [fst snd] in Hi. destruct Hi as (Hlen & Hi & Hc).
    exists c. split; [now rewrite Hi|].
    intros j c' Hj.
    assert (Hjlen : (j < length coordinates)%nat) by (eapply lookup_lt_Some; eassumption).
    assert (Hk : l !! (length coordinates - S j)%nat = Some (j, c')).
    { subst l. rewrite reverse_lookup by (rewrite length_imap; lia).
      rewrite length_imap, list_lookup_imap.
      replace (length coordinates - S (length coordinates - S j))%nat with j by lia.
      now rewrite Hj. }
    rewrite Hl in Hk.
    destruct (Nat.lt_trichotomy (length coordinates - S j) (length pre)) as [Hlt|[Heq|Hgt]].
    + rewrite lookup_app_l in Hk by exact Hlt.
      rewrite Forall_forall in Hpre. apply list_elem_of_lookup_2 in Hk. specialize (Hpre _ Hk). cbn in Hpre.
      split; [now apply Qlt_le_weak | intros _; exact Hpre].
    + rewrite Heq, lookup_app_r, Nat.sub_diag in Hk by lia.
      injection Hk as <- <-. split; [apply Qle_refl | lia].
    + rewrite lookup_app_r in Hk by lia.
      destruct (length coordinates - S j - length pre)%nat as [|k] eqn:Ek; [lia|].
      cbn in Hk. rewrite Forall_forall in Hpost. apply list_elem_of_lookup_2 in Hk. specialize (Hpost _ Hk). cbn in Hpost.
      split; [exact Hpost | lia].
Qed.

(** The loop of [_findNearestWpBefore] ends at the first index, from the end,
    that is not greater than [i]. *)
Lemma nearest_scan i l :
  (Line.nearest i l = -1 /\ Forall (fun e => Line.greater (snd e) i = true) l) \/
  (exists pre j w post,
      l = pre ++ (j, w) :: post /\ Line.nearest i l = Z.of_nat j /\
      Line.greater w i = false /\
      Forall (fun e => Line.greater (snd e) i = true) pre).
Proof.
  induction l as [|[j w] l IH].
  - left. split; [reflexivity | constructor].
  - cbn [Line.nearest]. destruct (Line.greater w i) eqn:Hg.
    + destruct IH as [[Hr Hall] | (pre & j' & w' & post & -> & Hr & Hw & Hpre)].
      * left. split; [exact Hr|]. now constructor.
      * right. exists ((j, w) :: pre), j', w', post. repeat split; try assumption.
        now constructor.
    + right. exists [], j, w, l. repeat split; [assumption | constructor].
Qed.

(** X3 (the waypoint before a point of the line).
    [_findNearestWpBefore(n)] answers the place of the last waypoint index
    that is at most [n], and -1 when every waypoint index is greater: every
    waypoint index at a later place is greater than [n]. *)
Theorem nearest_waypoint_before (indices : list nat) (n : nat) :
  let r := Line._findNearestWpBefore (map Some indices) (Some n) in
  -1 <= r < Z.of_nat (length indices) /\
  (forall j w, indices !! j = Some w -> r < Z.of_nat j -> (n < w)%nat) /\
  (0 <= r -> exists w, indices !! Z.to_nat r = Some w /\ (w <= n)%nat).
Proof.
  cbv zeta. unfold Line._findNearestWpBefore.
  set (l := reverse (imap pair (map Some indices))).
  assert (Hl : forall k x, l !! k = Some x ->
             (k < length indices)%nat /\ fst x = (length indices - S k)%nat /\
             Some <$> indices !! (length indices - S k)%nat = Some (snd x)).
  { intros k x H. apply lookup_reverse_imap in H. rewrite length_map in H.
    now rewrite list_lookup_fmap in H. }
  assert (Hat : forall j w, indices !! j = Some w ->
             l !! (length indices - S j)%nat = Some (j, Some w)).
  { intros j w Hj.
    assert (Hjlen : (j < length indices)%nat) by (eapply lookup_lt_Some; eassumption).
    subst l. rewrite reverse_lookup by (rewrite length_imap, length_map; lia).
    rewrite length_imap, length_map, list_lookup_imap, list_lookup_fmap.
    replace (length indices - S (length indices - S j))%nat with j by lia.
    now rewrite Hj. }
  destruct (nearest_scan (Some n) l)
    as [[Hr Hall] | (pre & j & w & post & Hpl & Hr & Hw & Hpre)].
  - rewrite Hr. split; [lia|]. split; [|lia].
    intros j w Hj _. specialize (Hat _ _ Hj).
    rewrite Forall_forall in Hall. apply list_elem_of_lookup_2 in Hat. specialize (Hall _ Hat). cbn in Hall.
    now apply Nat.ltb_lt in Hall.
  - rewrite Hr.
    assert (Hj : l !! length pre = Some (j, w)).
    { rewrite Hpl, lookup_app_r by lia. now rewrite Nat.sub_diag. }
    apply Hl in Hj. cbn [fst snd] in Hj. destruct Hj as (Hlen & Hj & Hw').
    destruct (indices !! (length indices - S (length pre))%nat) as [w0|] eqn:E;
      [|discriminate].
    cbn in Hw'. injection Hw' as <-. cbn in Hw. apply Nat.ltb_ge in Hw.
    split; [lia|]. split.
    + intros j' w' Hj' Hlt. specialize (Hat _ _ Hj').
      assert (Hj'len : (j' < length indices)%nat) by (eapply lookup_lt_Some; eassumption).
      rewrite Hpl, lookup_app_l in Hat by lia.
      rewrite Forall_forall in Hpre. apply list_elem_of_lookup_2 in Hat. specialize (Hpre _ Hat). cbn in Hpre.
      now apply Nat.ltb_lt in Hpre.
    + intros _. exists w0. rewrite Nat2Z.id, Hj. auto.
Qed.

(** ** The plan: buttons, handlers and markers *)

Lemma splice_in_range {A} (l items : list A) (i dc : nat) :
  (i + dc <= length l)%nat ->
  JS.splice l (Z.of_nat i) (Z.of_nat dc) items = take i l ++ items ++ drop (i + dc) l.
Proof.
  intros H. unfold JS.splice.
  replace (Z.of_nat i <? 0) with false by (symmetry; apply Z.ltb_ge; lia).
  rewrite (Z.min_l (Z.of_nat i)) by lia.
  rewrite (Z.max_l (Z.of_nat dc)) by lia.
  rewrite (Z.min_l (Z.of_nat dc)) by lia.
  rewrite Nat2Z.id. replace (Z.to_nat (Z.of_nat i + Z.of_nat dc)) with (i + dc)%nat by lia.
  reflexivity.
Qed.

(** Neither the loop nor a call changes whether the plan is on a map or
    whether its markers can be dragged. *)
Lemma dist_map_kept fuel :
  (forall p p', PlanDist.enforce fuel p = Some p' ->
     PlanDist._map p' = PlanDist._map p /\
     PlanDist.draggableWaypoints p' = PlanDist.draggableWaypoints p) /\
  (forall p arg0 arg1 rest p',
     PlanDist.spliceWaypoints fuel p arg0 arg1 rest = Some p' ->
     PlanDist._map p' = PlanDist._map p /\
     PlanDist.draggableWaypoints p' = PlanDist.draggableWaypoints p).
Proof.
  induction fuel as [|f [IHe IHs]]; split.
  - intros p p'. cbn [PlanDist.enforce].
    destruct (length (PlanDist._waypoints p) <? 2)%nat; [discriminate|].
    now intros [= <-].
  - discriminate.
  - intros p p'. cbn [PlanDist.enforce].
    destruct (length (PlanDist._waypoints p) <? 2)%nat.
    + destruct (PlanDist.spliceWaypoints f p _ _ _) as [p1|] eqn:E1; [|discriminate].
      intros E2. destruct (IHs _ _ _ _ _ E1) as [H1 H1'].
      destruct (IHe _ _ E2) as [H2 H2']. split; congruence.
    + now intros [= <-].
  - intros p arg0 arg1 rest p'. rewrite dist_spliceWaypoints_S.
    destruct (PlanDist.enforce f _) as [p2|] eqn:E2; [|discriminate].
    intros H. apply (inj Some) in H. subst p'.
    destruct (IHe _ _ E2) as [H2 H2']. cbn in H2, H2'.
    unfold PlanDist._fireChanged, PlanDist._updateMarkers.
    destruct (PlanDist._map p2) eqn:Em, rest as [|x rest]; cbn; rewrite ?Em; auto.
Qed.

(** The markers that a call leaves on a plan that is on a map. *)
Lemma dist_spliceWaypoints_markers fuel p arg0 arg1 rest p' :
  PlanDist._map p = true ->
  PlanDist.spliceWaypoints fuel p arg0 arg1 rest = Some p' ->
  PlanDist._markers p' =
    map (fun w => match latLng w with
                  | Some ll => Some {| marker_latLng := Some ll;
                                       marker_draggable := PlanDist.draggableWaypoints p |}
                  | None => None
                  end) (PlanDist._waypoints p').
Proof.
  intros Hmap H. destruct fuel as [|f]; [discriminate|].
  rewrite dist_spliceWaypoints_S in H.
  destruct (PlanDist.enforce f _) as [p2|] eqn:E2; [|discriminate].
  apply (inj Some) in H. subst p'.
  destruct (proj1 (dist_map_kept f) _ _ E2) as [H2 H2']. cbn in H2, H2'.
  rewrite dist_waypoints_fireChanged.
  unfold PlanDist._fireChanged, PlanDist._updateMarkers. rewrite H2, Hmap, H2'.
  reflexivity.
Qed.

(** X4 (markers after a splice).  On a map, a call of the bundle's
    [spliceWaypoints] leaves one marker entry for each waypoint, in order:
    entry [i] is the marker of waypoint [i], or [null] when that waypoint has
    no position.  A call of the TypeScript plan that returns leaves only the
    markers of the waypoints that have a position, so there marker [i] belongs
    to waypoint [i] only while no earlier waypoint lacks a position. *)
Theorem markers_follow_waypoints fuel (pd : PlanDist.Plan) arg0 arg1 rest
    (pt : PlanTs.Plan) start dc items :
  PlanDist._map pd = true ->
  PlanTs._map pt = true ->
  (exists pd',
     PlanDist.spliceWaypoints (5 + fuel) pd arg0 arg1 rest = Some pd' /\
     length (PlanDist._markers pd') = length (PlanDist._waypoints pd') /\
     forall i w, PlanDist._waypoints pd' !! i = Some w ->
       PlanDist._markers pd' !! i =
         Some (match latLng w with
               | Some ll => Some {| marker_latLng := Some ll;
                                    marker_draggable := PlanDist.draggableWaypoints pd |}
               | None => None
               end)) /\
  (forall pt',
     PlanTs.spliceWaypoints fuel pt start dc items = Some pt' ->
     PlanTs.markers pt' =
       map (PlanTs.createMarker pt)
           (filter (fun w => is_Some (latLng w)) (PlanTs.waypoints pt'))).
Proof.
  intros Hd Ht. split.
  - destruct (dist_spliceWaypoints_pads (5 + fuel) pd arg0 arg1 rest) as (pd' & E & _);
      [lia|].
    exists pd'. split; [exact E|].
    rewrite (dist_spliceWaypoints_markers _ _ _ _ _ _ Hd E).
    split; [now rewrite length_map|].
    intros i w Hi. now rewrite list_lookup_fmap, Hi.
  - intros pt' H.
    destruct (Nat.lt_ge_cases (length (JS.splice (PlanTs.waypoints pt) start dc items)) 2)
      as [Hlt|Hge].
    + now rewrite (proj2 (ts_enforce_never_returns fuel) _ _ _ _ Hlt) in H.
    + destruct fuel as [|f]; [discriminate|].
      rewrite ts_spliceWaypoints_returns in H by exact Hge.
      apply (inj Some) in H. subst pt'.
      rewrite ts_waypoints_fireChanged.
      unfold PlanTs.fireChanged, PlanTs.updateMarkers, JS.truthy_number.
      cbn [PlanTs._map PlanTs.set_waypoints]. rewrite Ht.
      destruct (negb (start =? 0)); reflexivity.
Qed.

(** X5 (deleting a waypoint).  The [delete] handler of the bundle's
    plan, for waypoint [i] of at least two: with more than two waypoints the
    waypoint is removed; with exactly two it is replaced by an empty waypoint
    at its place, whichever of the two it is. *)
Theorem delete_keeps_two fuel p i :
  (2 <= length (PlanDist._waypoints p))%nat ->
  (i < length (PlanDist._waypoints p))%nat ->
  exists p',
    PlanDist.deleteWaypoint (5 + fuel) p i = Some p' /\
    PlanDist._waypoints p' =
      if (2 <? length (PlanDist._waypoints p))%nat
      then delete i (PlanDist._waypoints p)
      else <[i := emptyWaypoint]> (PlanDist._waypoints p).
Proof.
  intros Hlen Hi. unfold PlanDist.deleteWaypoint.
  destruct (Nat.ltb_spec 2 (length (PlanDist._waypoints p))) as [Hmany|Htwo].
  - rewrite orb_true_r.
    destruct (dist_spliceWaypoints_pads (5 + fuel) p (Some (Z.of_nat i)) (Some 1) [])
      as (p' & E & W & _); [lia|].
    exists p'. split; [exact E|]. rewrite W. cbn [JS.toInteger map].
    rewrite (splice_in_range _ _ i 1) by lia. cbn [app].
    rewrite pad_to_two_id.
    + rewrite delete_take_drop. f_equal. f_equal. lia.
    + rewrite length_app, length_take, length_drop. lia.
  - destruct (PlanDist._waypoints p) as [|a [|b [|c l]]] eqn:El; cbn in Hlen, Htwo, Hi;
      try lia.
    destruct i as [|[|i]]; [| |lia]; cbn [Nat.ltb Nat.leb orb].
    + destruct (dist_spliceWaypoints_pads (5 + fuel) p (Some 0) (Some 1)
                  [PlanDist.ItemWaypoint emptyWaypoint]) as (p' & E & W & _); [lia|].
      exists p'. split; [exact E|]. rewrite W, El. reflexivity.
    + destruct (dist_spliceWaypoints_pads (5 + fuel) p (Some 1) (Some 1) [])
        as (p' & E & W & _); [lia|].
      exists p'. split; [exact E|]. rewrite W, El. reflexivity.
Qed.

(** X6 (the reverse button).  On a plan of the bundle with at least
    two waypoints the handler of the reverse button returns with the
    waypoints in the opposite order, and pressing it twice gives the list
    back. *)
Theorem reverse_twice fuel p :
  (2 <= length (PlanDist._waypoints p))%nat ->
  exists p1 p2,
    PlanDist.reverseWaypoints (5 + fuel) p = Some p1 /\
    PlanDist._waypoints p1 = reverse (PlanDist._waypoints p) /\
    PlanDist.reverseWaypoints (5 + fuel) p1 = Some p2 /\
    PlanDist._waypoints p2 = PlanDist._waypoints p.
Proof.
  assert (Hrev : forall q, (2 <= length (PlanDist._waypoints q))%nat ->
            exists q', PlanDist.reverseWaypoints (5 + fuel) q = Some q' /\
                       PlanDist._waypoints q' = reverse (PlanDist._waypoints q)).
  { intros q Hq. unfold PlanDist.reverseWaypoints, PlanDist.setWaypoints.
    cbn [PlanDist._waypoints PlanDist.set_waypoints].
    destruct (dist_spliceWaypoints_pads (5 + fuel)
                (PlanDist.set_waypoints q (reverse (PlanDist._waypoints q)))
                (Some 0) (Some (Z.of_nat (length (reverse (PlanDist._waypoints q)))))
                (map PlanDist.ItemWaypoint (reverse (PlanDist._waypoints q))))
      as (q' & E & W & _); [lia|].
    exists q'. split; [exact E|]. rewrite W.
    cbn [JS.toInteger PlanDist._waypoints PlanDist.set_waypoints].
    rewrite splice_all, map_map. cbn [PlanDist.toWaypoint]. rewrite map_id.
    apply pad_to_two_id. now rewrite length_reverse. }
  intros Hlen. destruct (Hrev p Hlen) as (p1 & E1 & W1).
  destruct (Hrev p1) as (p2 & E2 & W2); [now rewrite W1, length_reverse|].
  exists p1, p2. repeat split; try assumption.
  now rewrite W2, W1, reverse_involutive.
Qed.

(** X7 (the add button).  On a plan of the bundle with at least two
    waypoints the handler of the add button appends one empty waypoint, after
    which the plan is not ready; the [delete] handler of that last waypoint
    gives the list back. *)
Theorem add_then_delete fuel p :
  (2 <= length (PlanDist._waypoints p))%nat ->
  exists p1 p2,
    PlanDist.addWaypoint (5 + fuel) p = Some p1 /\
    PlanDist._waypoints p1 = PlanDist._waypoints p ++ [emptyWaypoint] /\
    PlanDist.isReady p1 = false /\
    PlanDist.deleteWaypoint (5 + fuel) p1 (length (PlanDist._waypoints p)) = Some p2 /\
    PlanDist._waypoints p2 = PlanDist._waypoints p.
Proof.
  intros Hlen. unfold PlanDist.addWaypoint.
  destruct (dist_spliceWaypoints_pads (5 + fuel) p
              (Some (Z.of_nat (length (PlanDist._waypoints p)))) (Some 0)
              [PlanDist.ItemLatLng None]) as (p1 & E1 & W1 & _); [lia|].
  cbn [JS.toInteger map PlanDist.toWaypoint] in W1.
  rewrite splice_at_end_one in W1. fold emptyWaypoint in W1.
  rewrite pad_to_two_id in W1 by (rewrite length_app; cbn; lia).
  assert (Hlen1 : length (PlanDist._waypoints p1) = S (length (PlanDist._waypoints p)))
    by (rewrite W1, length_app; cbn; lia).
  unfold PlanDist.deleteWaypoint.
  replace (0 <? length (PlanDist._waypoints p))%nat with true
    by (symmetry; apply Nat.ltb_lt; lia).
  cbn [orb].
  destruct (dist_spliceWaypoints_pads (5 + fuel) p1
              (Some (Z.of_nat (length (PlanDist._waypoints p)))) (Some 1) [])
    as (p2 & E2 & W2 & _); [lia|].
  exists p1, p2. split; [exact E1|]. split; [exact W1|]. split; [|split; [exact E2|]].
  - unfold PlanDist.isReady. rewrite W1, forallb_app. cbn. apply andb_false_r.
  - rewrite W2. cbn [JS.toInteger map].
    rewrite (splice_in_range _ _ (length (PlanDist._waypoints p)) 1) by lia.
    rewrite W1, take_app_length. cbn [app].
    rewrite drop_ge by (rewrite length_app; cbn; lia).
    rewrite app_nil_r. now apply pad_to_two_id.
Qed.

(** X8 (the add button of [src/plan.ts]).  The handler calls
    [spliceWaypoints(this.waypoints.length, 0)] with nothing to insert: on a
    plan with at least two waypoints it returns with the same waypoints, and
    fires the changed event and the spliced event with an empty list of added
    waypoints. *)
Theorem ts_add_button_adds_nothing fuel pt :
  (2 <= length (PlanTs.waypoints pt))%nat ->
  exists pt',
    PlanTs.addWaypoint (S fuel) pt = Some pt' /\
    PlanTs.waypoints pt' = PlanTs.waypoints pt /\
    PlanTs.fired pt' =
      PlanTs.fired pt
        ++ [PlanTs.waypointschanged (PlanTs.waypoints pt);
            PlanTs.waypointsspliced (Z.of_nat (length (PlanTs.waypoints pt))) (Some 0) []].
Proof.
  intros Hlen. unfold PlanTs.addWaypoint.
  assert (Hs : JS.splice (PlanTs.waypoints pt) (Z.of_nat (length (PlanTs.waypoints pt))) 0 []
               = PlanTs.waypoints pt) by apply splice_at_end_nothing.
  rewrite ts_spliceWaypoints_returns by now rewrite Hs.
  eexists. split; [reflexivity|]. rewrite ts_waypoints_fireChanged.
  cbn [PlanTs.waypoints PlanTs.set_waypoints]. split; [exact Hs|].
  unfold PlanTs.fireChanged, PlanTs.updateMarkers, JS.truthy_number.
  replace (Z.of_nat (length (PlanTs.waypoints pt)) =? 0) with false
    by (symmetry; apply Z.eqb_neq; lia).
  cbn [negb PlanTs._map PlanTs.set_waypoints PlanTs.getWaypoints PlanTs.waypoints].
  rewrite Hs. destruct (PlanTs._map pt); cbn; now rewrite <- app_assoc.
Qed.

(** A waypoint index of 0 stops the loop of [_findNearestWpBefore] at the
    first place at the latest, whatever it is compared with. *)
Lemma nearest_not_negative indices i :
  0 <= Line._findNearestWpBefore (Some 0%nat :: indices) i
    < Z.of_nat (length (Some 0%nat :: indices)).
Proof.
  unfold Line._findNearestWpBefore.
  set (l := reverse (imap pair (Some 0%nat :: indices))).
  assert (H0 : l !! length indices = Some (0%nat, Some 0%nat)).
  { subst l. rewrite reverse_lookup by (rewrite length_imap; cbn; lia).
    rewrite length_imap. cbn [length]. now rewrite Nat.sub_diag. }
  destruct (nearest_scan i l) as [[_ Hall] | (pre & j & w & post & Hl & -> & _ & _)].
  - rewrite Forall_forall in Hall. apply list_elem_of_lookup_2 in H0.
    specialize (Hall _ H0). cbn in Hall. destruct i; discriminate.
  - assert (Hj : l !! length pre = Some (j, w)).
    { rewrite Hl, lookup_app_r by lia. now rewrite Nat.sub_diag. }
    apply lookup_reverse_imap in Hj. cbn [fst] in Hj. lia.
Qed.

(** A splice of one position at an index between two waypoints. *)
Lemma splice_between fuel p k latlng :
  1 <= k < Z.of_nat (length (PlanDist._waypoints p)) ->
  exists p',
    PlanDist.spliceWaypoints (5 + fuel) p (Some k) (Some 0)
      [PlanDist.ItemLatLng (Some latlng)] = Some p' /\
    PlanDist._map p' = PlanDist._map p /\
    inserted_between p p' k latlng.
Proof.
  intros Hk.
  destruct (dist_spliceWaypoints_pads (5 + fuel) p (Some k) (Some 0)
              [PlanDist.ItemLatLng (Some latlng)]) as (p' & E & W & _); [lia|].
  exists p'. split; [exact E|].
  split; [exact (proj1 (proj2 (dist_map_kept (5 + fuel)) _ _ _ _ _ E))|].
  cbn [JS.toInteger map PlanDist.toWaypoint] in W.
  replace k with (Z.of_nat (Z.to_nat k)) in W at 1 by lia.
  change 0 with (Z.of_nat 0) in W.
  rewrite splice_in_range in W by lia. rewrite Nat.add_0_r in W. cbn [app] in W.
  rewrite pad_to_two_id in W
    by (rewrite length_app, length_take; cbn [length]; rewrite length_drop; lia).
  set (n := Z.to_nat k) in *.
  assert (Hn : (1 <= n < length (PlanDist._waypoints p))%nat) by lia.
  split; [exact Hk|]. split; [exact W|].
  rewrite W. split.
  - destruct (PlanDist._waypoints p) as [|a l]; [cbn in Hn; lia|].
    destruct n; [lia|]. reflexivity.
  - rewrite last_app_cons.
    rewrite <- (take_drop n (PlanDist._waypoints p)) at 2.
    rewrite last_app.
    destruct (drop n (PlanDist._waypoints p)) as [|x l] eqn:Ed.
    + apply (f_equal length) in Ed. rewrite length_drop in Ed. cbn in Ed. lia.
    + rewrite last_cons. destruct (last (x :: l)) eqn:El; [reflexivity|].
      rewrite last_cons in El. destruct (last l); discriminate.
Qed.

(** X9 (touching the line).  For a route whose first waypoint index is 0, as
    the route client records it for the [depart] step, and a plan of at least
    two waypoints on a map: a touch of the line fires [linetouched] with the
    touched position and an [afterIndex] that is not negative, and the
    control's handler does not throw.  It does nothing when [afterIndex] is
    not before the last waypoint.  Otherwise, with
    [options.routeWhileDragging], the touched position is inserted at once
    between two waypoints; without (the default), the plan waits for the
    mouse button to come up and then inserts the position of the release
    between the same two waypoints.  Either way the first and the last
    waypoint of the plan stay the first and the last. *)
Theorem line_touch_keeps_ends distanceTo fuel routeWhileDragging dragStyles route plan
    latlng release indices :
  OSRMv1.waypointIndices route = Some (0%nat :: indices) ->
  (2 <= length (PlanDist._waypoints plan))%nat ->
  PlanDist._map plan = true ->
  exists afterIndex,
    Line._onLineTouched distanceTo route latlng = Some (afterIndex, latlng) /\
    0 <= afterIndex < Z.of_nat (length (0%nat :: indices)) /\
    match Line.linetouched (5 + fuel) routeWhileDragging dragStyles plan
            (afterIndex, latlng) with
    | None => False
    | Some None => Z.of_nat (length (PlanDist._waypoints plan)) - 1 <= afterIndex
    | Some (Some (PlanDist.RoutedAtOnce plan' started)) =>
        routeWhileDragging = true /\
        started = (afterIndex + 1, Some latlng) /\
        inserted_between plan plan' (afterIndex + 1) latlng
    | Some (Some (PlanDist.AwaitingMouseUp newWpIndex)) =>
        routeWhileDragging = false /\
        newWpIndex = afterIndex + 1 /\
        exists plan',
          PlanDist.mouseUp (5 + fuel) plan newWpIndex release = Some plan' /\
          inserted_between plan plan' newWpIndex release
    end.
Proof.
  intros Hidx Hlen Hmap. unfold Line._onLineTouched, Line._getWaypointIndices.
  rewrite Hidx. cbn [mbind option_bind map].
  set (r := Line._findNearestWpBefore _ _).
  pose proof (nearest_not_negative (map Some indices)
                (Line._findClosestRoutePoint distanceTo (OSRMv1.coordinates route) latlng))
    as Hr. fold r in Hr. rewrite length_cons, length_map in Hr.
  exists r. split; [reflexivity|]. split; [cbn [length]; lia|].
  unfold Line.linetouched, PlanDist.getWaypoints. cbn [fst snd].
  destruct (Z.ltb_spec r (Z.of_nat (length (PlanDist._waypoints plan)) - 1)) as [Hlt|Hge];
    [|exact Hge].
  assert (Hk : 1 <= r + 1 < Z.of_nat (length (PlanDist._waypoints plan))) by lia.
  unfold PlanDist.dragNewWaypoint. destruct routeWhileDragging.
  - destruct (splice_between fuel plan (r + 1) latlng Hk) as (plan' & E & M & Hin).
    rewrite E. cbn [mbind option_bind]. rewrite M, Hmap.
    assert (Hat : PlanDist.waypointAt plan' (r + 1)
                  = Some {| latLng := Some latlng; name := None; allowUTurn := false |}).
    { unfold PlanDist.waypointAt.
      replace (r + 1 <? 0) with false by (symmetry; apply Z.ltb_ge; lia).
      destruct Hin as (_ & W & _). rewrite W.
      rewrite lookup_app_r by (rewrite length_take; lia).
      rewrite length_take.
      replace (Z.to_nat (r + 1) - Z.to_nat (r + 1) `min` length (PlanDist._waypoints plan))%nat
        with 0%nat by lia.
      reflexivity. }
    rewrite Hat. cbn. auto.
  - rewrite Hmap. cbn [negb].
    assert (Hprev : exists w, PlanDist.waypointAt plan (r + 1 - 1) = Some w).
    { unfold PlanDist.waypointAt.
      replace (r + 1 - 1 <? 0) with false by (symmetry; apply Z.ltb_ge; lia).
      apply lookup_lt_is_Some. lia. }
    assert (Hnext : exists w, PlanDist.waypointAt plan (r + 1) = Some w).
    { unfold PlanDist.waypointAt.
      replace (r + 1 <? 0) with false by (symmetry; apply Z.ltb_ge; lia).
      apply lookup_lt_is_Some. lia. }
    destruct Hprev as [w1 H1], Hnext as [w2 H2].
    assert (Hup : exists plan',
               PlanDist.mouseUp (5 + fuel) plan (r + 1) release = Some plan' /\
               inserted_between plan plan' (r + 1) release).
    { unfold PlanDist.mouseUp. rewrite Hmap. cbn [negb].
      destruct (splice_between fuel plan (r + 1) release Hk) as (plan' & E & _ & Hin).
      eauto. }
    destruct (0 <? dragStyles)%nat; rewrite ?H1, ?H2; cbn; auto.
Qed.

Lemma markers_follow_waypoints_witness :
  exists pd',
    PlanDist.spliceWaypoints 5 dist_two (Some 1) (Some 0) [PlanDist.ItemLatLng None]
      = Some pd' /\
    length (PlanDist._markers pd') = length (PlanDist._waypoints pd') /\
    forall i w, PlanDist._waypoints pd' !! i = Some w ->
      PlanDist._markers pd' !! i =
        Some (match latLng w with
              | Some ll => Some {| marker_latLng := Some ll;
                                   marker_draggable := PlanDist.draggableWaypoints dist_two |}
              | None => None
              end).
Proof.
  exact (proj1 (markers_follow_waypoints 0 dist_two (Some 1) (Some 0)
                  [PlanDist.ItemLatLng None] ts_two 1 0 [emptyWaypoint] eq_refl eq_refl)).
Defined.

Lemma delete_keeps_two_witness :
  exists p',
    PlanDist.deleteWaypoint 5 dist_two 0 = Some p' /\
    PlanDist._waypoints p' = [emptyWaypoint; potsdam].
Proof.
  apply (delete_keeps_two 0 dist_two 0%nat); cbn; lia.
Defined.

Lemma reverse_twice_witness :
  exists p1 p2,
    PlanDist.reverseWaypoints 5 dist_two = Some p1 /\
    PlanDist._waypoints p1 = [potsdam; berlin] /\
    PlanDist.reverseWaypoints 5 p1 = Some p2 /\
    PlanDist._waypoints p2 = [berlin; potsdam].
Proof.
  apply (reverse_twice 0 dist_two). cbn. lia.
Defined.

Lemma add_then_delete_witness :
  exists p1 p2,
    PlanDist.addWaypoint 5 dist_two = Some p1 /\
    PlanDist._waypoints p1 = [berlin; potsdam; emptyWaypoint] /\
    PlanDist.isReady p1 = false /\
    PlanDist.deleteWaypoint 5 p1 2 = Some p2 /\
    PlanDist._waypoints p2 = [berlin; potsdam].
Proof.
  apply (add_then_delete 0 dist_two). cbn. lia.
Defined.

Lemma ts_add_button_adds_nothing_witness :
  exists pt',
    PlanTs.addWaypoint 1 ts_two = Some pt' /\
    PlanTs.waypoints pt' = [berlin; potsdam] /\
    PlanTs.fired pt' =
      [PlanTs.waypointschanged [berlin; potsdam]; PlanTs.waypointsspliced 2 (Some 0) []].
Proof.
  apply (ts_add_button_adds_nothing 0 ts_two). cbn. lia.
Defined.

Lemma line_touch_keeps_ends_witness :
  Line._onLineTouched planar_distance straight_route near_the_middle
    = Some (0, near_the_middle) /\
  Line.linetouched 5 false 3 dist_two (0, near_the_middle)
    = Some (Some (PlanDist.AwaitingMouseUp 1)) /\
  exists plan',
    PlanDist.mouseUp 5 dist_two 1 leipzig_position = Some plan' /\
    inserted_between dist_two plan' 1 leipzig_position.
Proof.
  destruct (line_touch_keeps_ends planar_distance 0 false 3 straight_route dist_two
              near_the_middle leipzig_position [2%nat] eq_refl ltac:(cbn; lia) eq_refl)
    as (afterIndex & E & _ & H).
  assert (Ha : afterIndex = 0) by (vm_compute in E; congruence). subst afterIndex.
  split; [reflexivity|]. split; [reflexivity|].
  change (Line.linetouched (5 + 0) false 3 dist_two (0, near_the_middle))
    with (Some (Some (PlanDist.AwaitingMouseUp 1))) in H.
  destruct H as (_ & _ & H). exact H.
Defined.

(** ** Localization: the languages of an instance and the lookup *)

Section LocalizationFacts.

Variable tables : gmap string Localization.Value.
Variable class_member : string -> option (option Localization.Value).
Variable builtin : Localization.Value -> string -> option (option Localization.Value).

#[local] Abbreviation class_get := (Localization.class_get tables class_member).

(** What the loop of [initialize] leaves of each code, and why it throws. *)
Lemma generalize_serves langs :
  match Localization.generalize tables class_member langs with
  | Some l => Forall (is_member tables class_member) l /\ Forall2 serves langs l
  | None => Exists (unservable tables class_member) langs
  end.
Proof.
  induction langs as [|lang langs IH]; cbn [Localization.generalize].
  - split; constructor.
  - unfold unservable at 1.
    destruct (Localization.first_letters lang) as [letters|] eqn:El; cbn [mbind option_bind].
    2:{ apply Exists_cons_hd. unfold unservable. now rewrite El. }
    destruct (class_get lang) as [found|] eqn:Ef; cbn [mbind option_bind].
    2:{ apply Exists_cons_hd. unfold unservable. now rewrite El, Ef. }
    destruct (Localization.truthy found) eqn:Hl; cbn [negb mbind option_bind].
    + destruct (Localization.generalize tables class_member langs) as [l|];
        cbn [mbind option_bind].
      * destruct IH as [IH1 IH2]. split; constructor; try assumption.
        -- exists found. auto.
        -- now left.
      * now apply Exists_cons_tl.
    + destruct (class_get letters) as [general|] eqn:Eg; cbn [mbind option_bind].
      2:{ apply Exists_cons_hd. unfold unservable. now rewrite El, Ef, Eg. }
      destruct (Localization.truthy general) eqn:Hg; cbn [mbind option_bind].
      * destruct (Localization.generalize tables class_member langs) as [l|];
          cbn [mbind option_bind].
        -- destruct IH as [IH1 IH2]. split; constructor; try assumption.
           ++ exists general. auto.
           ++ now right.
        -- now apply Exists_cons_tl.
      * apply Exists_cons_hd. unfold unservable. rewrite El, Ef, Eg. auto.
Qed.

(** The inner loop, entered with the table itself as the value so far. *)
Lemma walk_from keys : forall v,
  Localization.walk builtin v keys v = at_path builtin v keys.
Proof.
  induction keys as [|key keys IH]; intros v; [reflexivity|].
  cbn [Localization.walk at_path].
  destruct v as [d|]; [|reflexivity].
  destruct (Localization.truthy (Some d)); [|reflexivity].
  destruct (Localization.get builtin d key) as [v|]; [|reflexivity].
  cbn [mbind option_bind]. apply IH.
Qed.

(** The inner loop as [localize] enters it: with a value left by the
    languages before, which was not truthy. *)
Lemma walk_at_path dict keys value :
  keys <> [] -> Localization.truthy value = false ->
  match Localization.walk builtin dict keys value, at_path builtin dict keys with
  | Some w, Some v =>
      Localization.truthy w = Localization.truthy v /\
      (Localization.truthy v = true -> w = v)
  | None, None => True
  | _, _ => False
  end.
Proof.
  intros Hk Hv. destruct keys as [|key keys]; [congruence|].
  cbn [Localization.walk at_path].
  destruct dict as [d|]; [|split; [exact Hv|discriminate]].
  destruct (Localization.truthy (Some d)) eqn:Hd.
  - destruct (Localization.get builtin d key) as [v|]; [|exact I].
    cbn [mbind option_bind]. rewrite walk_from.
    destruct (at_path builtin v keys); [auto|exact I].
  - rewrite Hd. split; [exact Hv|discriminate].
Qed.

Lemma localize_from_first_truthy keys langs : forall value,
  keys <> [] -> Localization.truthy value = false ->
  Localization.localize_from tables class_member builtin langs keys value
  = first_truthy tables class_member builtin langs keys.
Proof.
  induction langs as [|lang langs IH]; intros value Hk Hv; [reflexivity|].
  cbn [Localization.localize_from first_truthy].
  destruct (class_get lang) as [dict|]; [|reflexivity]. cbn [mbind option_bind].
  pose proof (walk_at_path dict keys value Hk Hv) as H.
  destruct (Localization.walk builtin dict keys value) as [w|],
           (at_path builtin dict keys) as [v|]; try contradiction; [|reflexivity].
  cbn [mbind option_bind]. destruct H as [Ht Hw]. rewrite Ht.
  destruct (Localization.truthy v) eqn:E.
  - now rewrite Hw.
  - apply IH; [exact Hk|]. now rewrite Ht.
Qed.

(** A language in the list with a truthy value at the path: unless a read
    throws before, a truthy value is found. *)
Lemma first_truthy_found keys langs lang v :
  lang ∈ langs ->
  tables !! lang = Some v ->
  (exists w, at_path builtin (Some v) keys = Some w /\ Localization.truthy w = true) ->
  first_truthy tables class_member builtin langs keys = None \/
  exists w, first_truthy tables class_member builtin langs keys = Some w /\
            Localization.truthy w = true.
Proof.
  induction langs as [|l langs IH]; intros Hin Hv Ht.
  - now apply elem_of_nil in Hin.
  - cbn [first_truthy].
    destruct (class_get l) as [dict|] eqn:Ed; [|now left]. cbn [mbind option_bind].
    destruct (at_path builtin dict keys) as [w|] eqn:Ew; [|now left].
    cbn [mbind option_bind].
    destruct (Localization.truthy w) eqn:E; [right; eauto|].
    apply elem_of_cons in Hin. destruct Hin as [->|Hin]; [|now apply IH].
    unfold Localization.class_get in Ed. rewrite Hv in Ed. injection Ed as <-.
    destruct Ht as (w' & Hw' & Ht). congruence.
Qed.

End LocalizationFacts.

(** For one language code, [this._langs] is the code that serves it followed
    by English. *)
Lemma initialize_one_language tables class_member code l :
  Localization.initialize tables class_member (Localization.OneLanguage code) = Some l ->
  exists served, l = [served; "en"] /\ serves code served.
Proof.
  unfold Localization.initialize. intros Hl.
  pose proof (generalize_serves tables class_member [code; "en"]) as H. rewrite Hl in H.
  destruct H as [_ H2].
  apply Forall2_cons_inv_l in H2. destruct H2 as (served & l' & Hs & H2 & ->).
  apply Forall2_cons_inv_l in H2. destruct H2 as (e & l'' & He & H2 & ->).
  apply Forall2_nil_inv_l in H2. subst l''.
  exists served. split; [|exact Hs]. f_equal. f_equal.
  destruct He as [->|He]; [reflexivity|]. vm_compute in He. congruence.
Qed.


(** X11 (the lookup of a localization).  For a path of at least one key,
    [localize] answers the value of the first language of the list that has
    a truthy value at the end of the path, and [undefined] if none has; the
    value that the two loops share never leaks from one language to the
    next.  After [initialize] with one language code, whatever the English
    table has at a path is found, unless a read throws before. *)
Theorem localize_first_language tables class_member builtin langs keys code l en :
  keys <> [] ->
  Localization.localize tables class_member builtin langs keys
  = first_truthy tables class_member builtin langs keys /\
  (Localization.initialize tables class_member (Localization.OneLanguage code) = Some l ->
   tables !! "en" = Some en ->
   (exists w, at_path builtin (Some en) keys = Some w /\ Localization.truthy w = true) ->
   Localization.localize tables class_member builtin l keys = None \/
   exists w, Localization.localize tables class_member builtin l keys = Some w /\
             Localization.truthy w = true).
Proof.
  intros Hk.
  assert (Hloc : forall langs',
            Localization.localize tables class_member builtin langs' keys
            = first_truthy tables class_member builtin langs' keys).
  { intros langs'. unfold Localization.localize.
    now apply localize_from_first_truthy. }
  split; [apply Hloc|].
  intros Hinit Hen Hat. rewrite Hloc.
  destruct (initialize_one_language _ _ _ _ Hinit) as (served & -> & _).
  apply (first_truthy_found tables class_member builtin keys _ "en" en); [|exact Hen|exact Hat].
  apply elem_of_cons. right. apply elem_of_cons. now left.
Qed.

Lemma localize_first_language_witness :
  Localization.initialize Localization.simple_tables sample_class_member
    (Localization.OneLanguage "de-AT") = Some ["de"; "en"] /\
  Localization.localize Localization.simple_tables sample_class_member sample_builtin
    ["de"; "en"] ["units"; "meters"] = Some (Some (Localization.VString "m")) /\
  Localization.localize Localization.simple_tables sample_class_member sample_builtin
    ["de"; "en"] ["directions"; "N"] = Some (Some (Localization.VString "Norden")) /\
  (Localization.localize Localization.simple_tables sample_class_member sample_builtin
     ["de"; "en"] ["directions"; "N"] = None \/
   exists w,
     Localization.localize Localization.simple_tables sample_class_member sample_builtin
       ["de"; "en"] ["directions"; "N"] = Some w /\
     Localization.truthy w = true).
Proof.
  split; [reflexivity|]. split; [|split].
  - exact (proj1 (localize_first_language Localization.simple_tables sample_class_member
                    sample_builtin ["de"; "en"] ["units"; "meters"] "de-AT" ["de"; "en"]
                    Localization.en ltac:(discriminate))).
  - exact (proj1 (localize_first_language Localization.simple_tables sample_class_member
                    sample_builtin ["de"; "en"] ["directions"; "N"] "de-AT" ["de"; "en"]
                    Localization.en ltac:(discriminate))).
  - apply (proj2 (localize_first_language Localization.simple_tables sample_class_member
                    sample_builtin ["de"; "en"] ["directions"; "N"] "de-AT" ["de"; "en"]
                    Localization.en ltac:(discriminate))).
    + reflexivity.
    + reflexivity.
    + exists (Some (Localization.VString "north")). split; reflexivity.
Defined.

(** ** The formatter: rounded distances and times *)



Lemma round_near (x : Q) :
  (inject_Z (JS.round x) - (1 # 2) <= x)%Q /\ (x < inject_Z (JS.round x) + (1 # 2))%Q.
Proof.
  unfold JS.round.
  pose proof (Qfloor_le (x + (1 # 2))) as H1.
  pose proof (Qlt_floor (x + (1 # 2))) as H2.
  rewrite inject_Z_plus in H2. change (inject_Z 1) with 1%Q in H2. split; lra.
Qed.



(** [Math.round] and [Math.floor] of a quotient of whole numbers. *)
Lemma round_quotient (a : Z) (b : positive) :
  JS.round (inject_Z a / inject_Z (Zpos b)) = (2 * a + Zpos b) / (2 * Zpos b).
Proof.
  unfold JS.round, Qdiv, Qinv, Qmult, Qplus, Qfloor, inject_Z. cbn [Qnum Qden].
  rewrite Pos.mul_1_l. f_equal; lia.
Qed.

Lemma floor_quotient (a : Z) (b : positive) :
  Qfloor (inject_Z a / inject_Z (Zpos b)) = a / Zpos b.
Proof.
  unfold Qdiv, Qinv, Qmult, Qfloor, inject_Z. cbn [Qnum Qden].
  rewrite Pos.mul_1_l. f_equal; lia.
Qed.

Ltac div_facts a b :=
  pose proof (Z.div_mod a b ltac:(lia));
  pose proof (Z.mod_pos_bound a b ltac:(lia)).

(** X12 (what [formatTime] writes).  A time that is not negative (and below
    2^53, where numbers are written without an exponent) is first
    rounded to the nearest multiple [T] of 30 seconds, at most 15 seconds
    away.  Above a day only hours are written, the whole number nearest to
    [T / 3600].  Otherwise the text is seconds alone (up to 60), or minutes
    with seconds below 60 that are left out when 0, or hours with minutes; the
    written parts add up to [T], or to up to 30 seconds more where minutes are
    rounded, and the minutes beside hours are at most 60 (they are 60 for 7170
    seconds, written as 1 h 60 min). *)
Theorem formatTime_shows un t :
  (0 <= t)%Q -> (t < inject_Z (2 ^ 53))%Q ->
  let T := JS.round (t / 30) * 30 in
  (inject_Z T - 15 <= t /\ t < inject_Z T + 15)%Q /\
  if 86400 <? T then
    exists h, Formatter.formatTime un t = JS.toString h +:+ " " +:+ Formatter.hours un /\
              T - 1800 < 3600 * h <= T + 1800
  else
    exists shown, T <= shown <= T + 30 /\
      ((shown <= 60 /\
        Formatter.formatTime un t = JS.toString shown +:+ " " +:+ Formatter.seconds un) \/
       (exists m s, shown = 60 * m + s /\ 1 <= m /\ 0 <= s < 60 /\
          Formatter.formatTime un t =
            JS.toString m +:+ " " +:+ Formatter.minutes un
              +:+ (if s =? 0 then ""
                   else " " +:+ JS.toString s +:+ " " +:+ Formatter.seconds un)) \/
       (exists h m, shown = 3600 * h + 60 * m /\ 1 <= h /\ 0 <= m <= 60 /\
          Formatter.formatTime un t =
            JS.toString h +:+ " " +:+ Formatter.hours un +:+ " "
              +:+ JS.toString m +:+ " " +:+ Formatter.minutes un)).
Proof.
  intros Ht _. cbv zeta. unfold Formatter.formatTime.
  set (n := JS.round (t / 30)).
  assert (Hnear : (inject_Z n - (1 # 2) <= t / 30 /\ t / 30 < inject_Z n + (1 # 2))%Q)
    by apply round_near.
  assert (Hn : 0 <= n).
  { unfold n, JS.round. change 0 with (Qfloor 0). apply Qfloor_resp_le.
    assert (0 <= t / 30)%Q by (apply Qle_shift_div_l; lra). lra. }
  assert (Ht30 : (t == t / 30 * 30)%Q) by field.
  set (T := n * 30).
  assert (HT : (inject_Z T == inject_Z n * 30)%Q)
    by (unfold T; rewrite inject_Z_mult; reflexivity).
  split.
  { set (y := (t / 30)%Q) in *. clearbody y n. lra. }
  clearbody n. clear Hnear Ht30 HT Ht.
  change 3600%Q with (inject_Z (Zpos 3600)). change 60%Q with (inject_Z (Zpos 60)).
  rewrite !round_quotient, !floor_quotient.
  change (2 * Z.pos 3600) with 7200. change (2 * Z.pos 60) with 120.
  destruct (Z.ltb_spec 86400 T) as [Hday|Hday].
  - eexists. split; [reflexivity|]. div_facts (2 * T + 3600) 7200. lia.
  - destruct (Z.ltb_spec 3600 T) as [Hhour|Hhour].
    + rewrite Z.rem_mod_nonneg by lia.
      div_facts T 3600. div_facts (2 * (T mod 3600) + 60) 120.
      exists (3600 * (T / 3600) + 60 * ((2 * (T mod 3600) + 60) / 120)).
      split; [lia|]. right. right.
      eexists _, _. split; [reflexivity|].
      split; [lia|]. split; [lia|]. reflexivity.
    + destruct (Z.ltb_spec 300 T) as [Hfive|Hfive].
      * div_facts (2 * T + 60) 120.
        exists (60 * ((2 * T + 60) / 120) + 0).
        split; [lia|]. right. left.
        eexists _, 0. split; [reflexivity|].
        split; [lia|]. split; [lia|].
        cbn [Z.eqb]. now rewrite string_app_nil_r.
      * destruct (Z.ltb_spec 60 T) as [Hmin|Hmin].
        -- rewrite !Z.rem_mod_nonneg by lia.
           div_facts T 60.
           exists (60 * (T / 60) + T mod 60).
           split; [lia|]. right. left.
           eexists _, _. split; [reflexivity|].
           split; [lia|]. split; [lia|].
           now destruct (T mod 60 =? 0).
        -- exists T. split; [lia|]. left. split; [lia|reflexivity].
Qed.



Lemma formatTime_shows_witness :
  let un := {| Formatter.hours := "h"; Formatter.minutes := "min"; Formatter.seconds := "s" |} in
  Formatter.formatTime un 7170 = "1 h 60 min" /\
  (inject_Z 7170 - 15 <= 7170 /\ 7170 < inject_Z 7170 + 15)%Q.
Proof.
  cbv zeta. split; [vm_compute; reflexivity|].
  exact (proj1 (formatTime_shows
    {| Formatter.hours := "h"; Formatter.minutes := "min"; Formatter.seconds := "s" |}
    7170 ltac:(lra) ltac:(vm_compute; reflexivity))).
Defined.

(** ** The route client: the waypoints made of the snapped locations *)

(** X14 (the snapped waypoints).  [_toWaypoints] throws exactly when the
    service sent more snapped locations than there are input waypoints.
    Otherwise it makes one waypoint of each snapped location: the position is
    the location [lng, lat] read as (lat, lng), the name and the options are
    those of the input waypoint at the same index. *)
Theorem toWaypoints_by_index (inputWaypoints : list Waypoint) (vias : list OSRMv1.Via) :
  (OSRMv1._toWaypoints inputWaypoints vias = None <->
     (length inputWaypoints < length vias)%nat) /\
  (forall wps, OSRMv1._toWaypoints inputWaypoints vias = Some wps ->
     length wps = length vias /\
     forall i via, vias !! i = Some via ->
       exists w, inputWaypoints !! i = Some w /\
         wps !! i = Some {| latLng := Some {| lat := snd (OSRMv1.location via);
                                              lng := fst (OSRMv1.location via) |};
                            name := name w; allowUTurn := allowUTurn w |}).
Proof.
  revert inputWaypoints. induction vias as [|via vias IH]; intros input.
  - assert (E : OSRMv1._toWaypoints input [] = Some []) by now destruct input.
    rewrite E. split; [split; [discriminate|cbn; lia]|].
    intros wps [= <-]. split; [reflexivity|]. intros i v Hv. discriminate.
  - destruct input as [|w input]; cbn [OSRMv1._toWaypoints length].
    + split; [split; [lia|reflexivity]|]. discriminate.
    + destruct (IH input) as [Hnone Hsome].
      destruct (OSRMv1._toWaypoints input vias) as [rest|] eqn:E; cbn.
      * split.
        { split; [discriminate|]. intros Hlt.
          assert (Hn : (length input < length vias)%nat) by lia.
          apply Hnone in Hn. discriminate. }
        intros wps [= <-]. destruct (Hsome rest eq_refl) as [Hlen Hat].
        split; [cbn; lia|]. intros [|i] v Hv.
        -- injection Hv as <-. exists w. split; reflexivity.
        -- cbn in Hv |- *. apply Hat, Hv.
      * split; [|discriminate]. split; [|reflexivity].
        intros _. assert (Hn : (length input < length vias)%nat) by now apply Hnone.
        lia.
Qed.

(** ** Lanes and camel case *)

Lemma laneRuns_same lanes : forall v,
  TextInstructions.laneRuns (v :: lanes) (Some v) = TextInstructions.laneRuns lanes (Some v).
Proof.
  intros v. cbn [TextInstructions.laneRuns]. now rewrite bool_decide_eq_true_2.
Qed.

Lemma laneRuns_runs lanes : forall v,
  let c := TextInstructions.laneRuns lanes (Some v) in
  alternates (String (if v then "o" else "x")%char c) = true /\
  String.length c = changes (v :: lanes).
Proof.
  induction lanes as [|a lanes IH]; intros v; cbv zeta.
  - split; reflexivity.
  - cbn [TextInstructions.laneRuns]. destruct (IH a) as [Ha Hl]. destruct (IH v) as [Hv Hlv].
    case_bool_decide as E.
    + injection E as <-. split; [exact Hv|].
      rewrite Hlv. cbn [changes]. destruct lanes; now destruct v.
    + assert (Hne : a = negb v) by (destruct a, v; cbn; congruence). subst a.
      split.
      * change (alternates (String ?a (String ?b ?r)))
          with (negb (Ascii.eqb a b) && alternates (String b r)).
        rewrite Ha. now destruct v.
      * cbn [String.length]. rewrite Hl.
        change (changes (v :: negb v :: lanes))
          with ((if Bool.eqb v (negb v) then 0 else 1) + changes (negb v :: lanes))%nat.
        now destruct v.
Qed.

(** X15 (the lane diagram).  For a step with a lanes array [laneConfig]
    writes one character for each run of lanes of the same validity: no
    character is followed by the same one, there is one character more than
    the validity changes between neighbours (none for no lanes), and the
    first character is [o] for a valid first lane and [x] otherwise. *)
Theorem lane_config_runs (step : TextInstructions.Step) (lanes : list bool) :
  TextInstructions.lanes step = Some lanes ->
  exists config, TextInstructions.laneConfig step = Some config /\
    alternates config = true /\
    String.length config = match lanes with [] => 0%nat | _ => S (changes lanes) end /\
    forall valid rest, lanes = valid :: rest ->
      String.get 0 config = Some (if valid then "o" else "x")%char.
Proof.
  intros Hl. unfold TextInstructions.laneConfig. rewrite Hl. eexists. split; [reflexivity|].
  destruct lanes as [|v lanes]; [repeat split; discriminate|].
  cbn [TextInstructions.laneRuns]. rewrite bool_decide_eq_false_2 by discriminate.
  destruct (laneRuns_runs lanes v) as [Ha Hlen].
  split; [exact Ha|]. split; [cbn [String.length]; now rewrite Hlen|].
  intros valid rest [= <- <-]. reflexivity.
Qed.

Lemma count_spaces_append a b :
  count_spaces (a +:+ b) = (count_spaces a + count_spaces b)%nat.
Proof.
  induction a as [|c a IH]; [reflexivity|].
  change (String c a +:+ b) with (String c (a +:+ b)). cbn [count_spaces]. rewrite IH. lia.
Qed.

Lemma toUpperCase_space c :
  Ascii.eqb (JS.toUpperCase_ascii c) " "%char = Ascii.eqb c " "%char.
Proof.
  destruct c as [[] [] [] [] [] [] [] []]; vm_compute; reflexivity.
Qed.

Lemma upperFirst_keeps w :
  count_spaces (JS.upperFirst w) = count_spaces w /\
  String.length (JS.upperFirst w) = String.length w.
Proof.
  destruct w as [|c w]; [split; reflexivity|].
  cbn [JS.upperFirst count_spaces String.length]. now rewrite toUpperCase_space.
Qed.

(** The words of [s.split(' ')], after the letters [word] read so far. *)
Lemma split_spaces_words s : forall word,
  count_spaces word = 0%nat ->
  let words := OSRMv1.split_spaces s word in
  Forall (fun w => count_spaces w = 0%nat) words /\
  (list_sum (map String.length words) + count_spaces s = String.length word + String.length s)%nat /\
  (count_spaces s = 0%nat -> words = [word +:+ s]).
Proof.
  induction s as [|c s IH]; intros word Hw; cbv zeta.
  - cbn. split; [now constructor|]. split; [lia|]. intros _. now rewrite string_app_nil_r.
  - cbn [OSRMv1.split_spaces count_spaces String.length].
    destruct (Ascii.eqb c " ") eqn:Ec.
    + destruct (IH "" eq_refl) as (Hf & Hl & _). split; [now constructor|].
      split; [|discriminate]. cbn [map]. change (list_sum (?a :: ?l)) with (a + list_sum l)%nat. cbn [String.length] in *. lia.
    + assert (Hw' : count_spaces (word +:+ String c "") = 0%nat).
      { rewrite count_spaces_append, Hw. cbn [count_spaces]. now rewrite Ec. }
      destruct (IH _ Hw') as (Hf & Hl & Hone). split; [exact Hf|].
      split.
      * rewrite string_length_append in Hl. cbn [String.length] in Hl. lia.
      * intros H0. rewrite (Hone H0). f_equal.
        clear. induction word as [|d word IHw]; [reflexivity|].
        change (String d word +:+ String c "") with (String d (word +:+ String c "")).
        change ((String d (word +:+ String c "")) +:+ s)
          with (String d ((word +:+ String c "") +:+ s)).
        now rewrite IHw.
Qed.

Lemma camel_fold words : forall result,
  Forall (fun w => count_spaces w = 0%nat) words ->
  let r := fold_left (fun result w => result +:+ JS.upperFirst w) words result in
  count_spaces r = count_spaces result /\
  String.length r = (String.length result + list_sum (map String.length words))%nat.
Proof.
  induction words as [|w words IH]; intros result Hf; cbv zeta.
  - cbn. split; [reflexivity|lia].
  - apply Forall_cons in Hf as [Hw Hf]. cbn [fold_left map]. change (list_sum (?a :: ?l)) with (a + list_sum l)%nat.
    destruct (IH (result +:+ JS.upperFirst w) Hf) as [Hc Hl].
    destruct (upperFirst_keeps w) as [Hk Hkl].
    rewrite Hc, Hl, count_spaces_append, string_length_append, Hk, Hkl, Hw. split; lia.
Qed.

(** X16 (camel case).  On a string of ASCII code units [_camelCase] removes
    the spaces and nothing else: its result has no space and is shorter than
    the argument by the number of its spaces.  For an argument without a
    space it only raises the first letter. *)
Theorem camelCase_drops_the_spaces (s : string) :
  all_ascii s = true ->
  count_spaces (OSRMv1._camelCase s) = 0%nat /\
  (String.length (OSRMv1._camelCase s) + count_spaces s)%nat = String.length s /\
  (count_spaces s = 0%nat -> OSRMv1._camelCase s = JS.upperFirst s).
Proof.
  intros _. unfold OSRMv1._camelCase.
  destruct (split_spaces_words s "" eq_refl) as (Hf & Hl & Hone).
  destruct (camel_fold _ "" Hf) as [Hc Hlen].
  split; [exact Hc|]. split.
  - rewrite Hlen. cbn [String.length] in *. lia.
  - intros H0. rewrite (Hone H0). reflexivity.
Qed.

Lemma camelCase_drops_the_spaces_witness :
  OSRMv1._camelCase "slight left" = "SlightLeft" /\
  count_spaces (OSRMv1._camelCase "slight left") = 0%nat /\
  (String.length (OSRMv1._camelCase "slight left") + count_spaces "slight left")%nat
    = String.length "slight left".
Proof.
  split; [reflexivity|].
  pose proof (camelCase_drops_the_spaces "slight left" eq_refl) as (H1 & H2 & _).
  split; [exact H1 | exact H2].
Defined.

(** ** Converting a route: where the instructions point *)

Section InstructionFacts.

Variable polylinePrecision : Z.
Variable stepToText : OSRMv1.Step -> nat -> nat -> option string.

(** The steps met so far. *)
Variable met : OSRMv1.Step -> Prop.

Lemma points_at_app coordinates more ins step :
  points_at polylinePrecision coordinates ins step ->
  points_at polylinePrecision (coordinates ++ more) ins step.
Proof.
  unfold points_at. cbv zeta. intros (Hd & Ht & Hr & Hg).
  repeat split; try assumption.
  set (g := OSRMv1._decodePolyline polylinePrecision (OSRMv1.geometry step)) in *.
  assert (Hlen : (length g <= length (drop (OSRMv1.i_index ins) coordinates))%nat).
  { rewrite <- Hg at 1. rewrite length_take. lia. }
  rewrite drop_app, take_app.
  replace (length g - length (drop (OSRMv1.i_index ins) coordinates))%nat with 0%nat by lia.
  now rewrite take_0, app_nil_r.
Qed.

Lemma convertStep_pointing legCount i acc step acc' :
  OSRMv1.convertStep polylinePrecision stepToText legCount i acc step = Some acc' ->
  met step -> pointing polylinePrecision met acc -> pointing polylinePrecision met acc'.
Proof.
  unfold OSRMv1.convertStep. intros H Hm [Hi Hf].
  destruct (OSRMv1._maneuverToInstructionType _ _) as [ty|]; [|discriminate].
  destruct (OSRMv1._maneuverToModifier _) as [m|]; [|discriminate].
  destruct (stepToText _ _ _) as [text|]; [|discriminate].
  cbn in H. injection H as <-. unfold pointing. cbn.
  split; [rewrite length_app; lia|].
  assert (Hold : Forall (fun ins => exists step0, met step0 /\
            points_at polylinePrecision
              (OSRMv1.acc_coordinates acc
                 ++ OSRMv1._decodePolyline polylinePrecision (OSRMv1.geometry step)) ins step0)
            (OSRMv1.acc_instructions acc)).
  { eapply Forall_impl; [exact Hf|]. intros ins (s0 & Hs0 & Hp).
    exists s0. split; [exact Hs0|]. now apply points_at_app. }
  destruct (negb _); [|exact Hold].
  apply Forall_app. split; [exact Hold|]. constructor; [|constructor].
  exists step. split; [exact Hm|]. unfold points_at. cbn.
  repeat split. rewrite Hi, drop_app_length. apply take_ge. lia.
Qed.

Lemma convertSteps_pointing legCount i l : forall acc acc',
  OSRMv1.convertSteps polylinePrecision stepToText legCount i acc l = Some acc' ->
  Forall met l -> pointing polylinePrecision met acc -> pointing polylinePrecision met acc'.
Proof.
  induction l as [|step l IH]; intros acc acc' H Hl Hp.
  - now injection H as <-.
  - apply Forall_cons in Hl as [Hs Hl]. cbn [OSRMv1.convertSteps] in H.
    destruct (OSRMv1.convertStep _ _ _ _ _ _) as [acc1|] eqn:E1; [|discriminate].
    cbn in H. eapply IH; [exact H|exact Hl|]. eapply convertStep_pointing; eauto.
Qed.

Lemma convertLegs_pointing legCount l : forall i acc acc',
  OSRMv1.convertLegs polylinePrecision stepToText legCount i acc l = Some acc' ->
  Forall (fun leg => Forall met (OSRMv1.steps leg)) l -> pointing polylinePrecision met acc -> pointing polylinePrecision met acc'.
Proof.
  induction l as [|leg l IH]; intros i acc acc' H Hl Hp.
  - now injection H as <-.
  - apply Forall_cons in Hl as [Hs Hl]. cbn [OSRMv1.convertLegs] in H.
    destruct (OSRMv1.convertSteps _ _ _ _ _ _) as [acc1|] eqn:E1; [|discriminate].
    cbn in H. eapply IH; [exact H|exact Hl|]. eapply convertSteps_pointing; eauto.
Qed.

Lemma convertSteps_coordinates legCount i l : forall acc acc',
  OSRMv1.convertSteps polylinePrecision stepToText legCount i acc l = Some acc' ->
  OSRMv1.acc_coordinates acc' =
    OSRMv1.acc_coordinates acc
      ++ concat (map (fun step => OSRMv1._decodePolyline polylinePrecision
                                   (OSRMv1.geometry step)) l).
Proof.
  induction l as [|step l IH]; intros acc acc' H.
  - injection H as <-. cbn. now rewrite app_nil_r.
  - cbn [OSRMv1.convertSteps] in H.
    destruct (OSRMv1.convertStep _ _ _ _ _ _) as [acc1|] eqn:E1; [|discriminate].
    cbn in H. apply IH in H. rewrite H. cbn [map concat]. rewrite app_assoc. f_equal.
    unfold OSRMv1.convertStep in E1.
    destruct (OSRMv1._maneuverToInstructionType _ _) as [ty|]; [|discriminate].
    destruct (OSRMv1._maneuverToModifier _) as [m|]; [|discriminate].
    destruct (stepToText _ _ _) as [text|]; [|discriminate].
    cbn in E1. now injection E1 as <-.
Qed.

Lemma convertLegs_coordinates legCount l : forall i acc acc',
  OSRMv1.convertLegs polylinePrecision stepToText legCount i acc l = Some acc' ->
  OSRMv1.acc_coordinates acc' =
    OSRMv1.acc_coordinates acc
      ++ concat (map (fun step => OSRMv1._decodePolyline polylinePrecision
                                   (OSRMv1.geometry step))
                     (concat (map OSRMv1.steps l))).
Proof.
  induction l as [|leg l IH]; intros i acc acc' H.
  - injection H as <-. cbn. now rewrite app_nil_r.
  - cbn [OSRMv1.convertLegs] in H.
    destruct (OSRMv1.convertSteps _ _ _ _ _ _) as [acc1|] eqn:E1; [|discriminate].
    cbn in H. apply IH in H. apply convertSteps_coordinates in E1.
    rewrite H, E1. cbn [map concat]. now rewrite map_app, concat_app, app_assoc.
Qed.

End InstructionFacts.

(** X17 (where an instruction points).  For a converted route whose first
    leg has steps, the coordinates are the decoded geometries of all steps in
    route order, and every instruction comes from a step of the route whose
    distance, time and road it carries and whose coordinates the line has
    from the instruction's [index] on. *)
Theorem instruction_points_at_its_step polylinePrecision stepToText responseRoute route :
  OSRMv1._convertRoute polylinePrecision stepToText responseRoute = Some route ->
  (exists leg0 rest, OSRMv1.legs responseRoute = leg0 :: rest /\ OSRMv1.steps leg0 <> []) ->
  OSRMv1.coordinates route
    = concat (map (fun step => OSRMv1._decodePolyline polylinePrecision (OSRMv1.geometry step))
                  (concat (map OSRMv1.steps (OSRMv1.legs responseRoute)))) /\
  Forall (fun ins => exists leg step,
            leg ∈ OSRMv1.legs responseRoute /\ step ∈ OSRMv1.steps leg /\
            points_at polylinePrecision (OSRMv1.coordinates route) ins step)
         (OSRMv1.instructions route).
Proof.
  intros H (leg0 & rest & Hlegs & Hsteps). unfold OSRMv1._convertRoute in H.
  destruct (OSRMv1.legs responseRoute) as [|l0 ls] eqn:El; [discriminate|].
  injection Hlegs as -> ->.
  rewrite bool_decide_eq_false_2 in H by exact Hsteps. cbn [negb] in H.
  destruct (OSRMv1.convertLegs _ _ _ _ _ _) as [acc|] eqn:E; [|discriminate].
  cbn in H. injection H as <-. cbn [OSRMv1.coordinates OSRMv1.instructions].
  split.
  - apply convertLegs_coordinates in E. exact E.
  - pose proof (convertLegs_pointing polylinePrecision stepToText
                  (fun step => exists leg, leg ∈ leg0 :: rest /\ step ∈ OSRMv1.steps leg)
                  _ _ _ _ _ E) as Hp.
    destruct Hp as [_ Hp].
    + apply Forall_forall. intros leg Hleg. apply Forall_forall. intros step Hstep. eauto.
    + split; [reflexivity|constructor].
    + eapply Forall_impl; [exact Hp|]. intros ins (step & (leg & Hleg & Hstep) & Hat). eauto.
Qed.

Lemma instruction_points_at_its_step_witness :
  exists route, OSRMv1._convertRoute 5 maneuver_text two_step_route = Some route /\
    map OSRMv1.i_index (OSRMv1.instructions route) = [0; 3]%nat /\
    Forall (fun ins => exists leg step,
              leg ∈ OSRMv1.legs two_step_route /\ step ∈ OSRMv1.steps leg /\
              points_at 5 (OSRMv1.coordinates route) ins step)
           (OSRMv1.instructions route).
Proof.
  destruct (OSRMv1._convertRoute 5 maneuver_text two_step_route) as [route|] eqn:E;
    [|vm_compute in E; discriminate].
  exists route. split; [reflexivity|]. split.
  - vm_compute in E. injection E as <-. reflexivity.
  - apply (instruction_points_at_its_step 5 maneuver_text two_step_route route E).
    eexists _, _. split; [reflexivity|discriminate].
Defined.

(** ** The hint table between two calls *)

(** The entry that [_saveHintData] makes of a snapped location and its
    waypoint. *)
Lemma saveHints_returned l : forall acc hints,
  OSRMv1.saveHints l acc = (hints, OSRMv1.Returned) ->
  exists entries,
    hints = acc ++ entries /\
    Forall2 (fun e x => exists w, snd e = Some w /\ latLng w = Some (fst x) /\
                                  snd x = OSRMv1.hint (fst e)) l entries.
Proof.
  induction l as [|[via [[[loc|] nm u]|]] l IH]; intros acc hints H;
    try (cbn in H; discriminate).
  - injection H as <-. exists []. split; [now rewrite app_nil_r|constructor].
  - cbn [OSRMv1.saveHints] in H. apply IH in H. destruct H as (entries & -> & Hf).
    exists ((loc, OSRMv1.hint via) :: entries). split; [now rewrite <- app_assoc|].
    constructor; [|exact Hf]. eexists. cbn. split; [reflexivity|]. split; reflexivity.
Qed.

Lemma last_filter_reverse {A} (p : A -> bool) (l : list A) :
  last (List.filter p (reverse l)) = head (List.filter p l).
Proof.
  induction l as [|x l IH]; [reflexivity|].
  rewrite reverse_cons, List.filter_app. cbn [List.filter].
  destruct (p x).
  - now rewrite last_snoc.
  - now rewrite app_nil_r.
Qed.

Lemma head_filter_first {A} (p : A -> bool) (l : list A) : forall i x,
  l !! i = Some x -> p x = true ->
  (forall j y, (j < i)%nat -> l !! j = Some y -> p y = false) ->
  head (List.filter p l) = Some x.
Proof.
  induction l as [|a l IH]; intros i x Hx Hp Hbefore; [discriminate|].
  destruct i as [|i].
  - injection Hx as ->. cbn. now rewrite Hp.
  - cbn [List.filter]. rewrite (Hbefore 0%nat a ltac:(lia) eq_refl).
    apply (IH i x Hx Hp). intros j y Hj Hy. apply (Hbefore (S j) y ltac:(lia) Hy).
Qed.

Lemma same_key_refl loc : OSRMv1.same_key loc loc = true.
Proof.
  unfold OSRMv1.same_key. apply andb_true_iff. split; apply Qeq_bool_iff; reflexivity.
Qed.

(** The hint found for the position of a waypoint. *)
Lemma saved_hint_is_found vias wps hints i via w :
  OSRMv1._saveHintData vias wps = (hints, OSRMv1.Returned) ->
  vias !! i = Some via -> wps !! i = Some w ->
  exists loc, latLng w = Some loc /\
    ((forall j w' loc', (j < i)%nat -> wps !! j = Some w' -> latLng w' = Some loc' ->
        OSRMv1.same_key loc' loc = false) ->
     OSRMv1.hint_at hints loc = OSRMv1.hint via).
Proof.
  unfold OSRMv1._saveHintData. intros H Hvia Hw.
  apply saveHints_returned in H. destruct H as (entries & -> & Hf). cbn [app].
  apply Forall2_reverse in Hf. rewrite reverse_involutive in Hf.
  set (F := reverse entries) in *.
  assert (HM : imap (fun i via => (via, wps !! i)) vias !! i = Some (via, Some w)).
  { rewrite list_lookup_imap, Hvia. cbn. now rewrite Hw. }
  destruct (Forall2_lookup_l _ _ _ _ _ Hf HM) as ([loc h] & HF & w0 & Hw0 & Hloc & Hh).
  cbn in Hw0, Hloc, Hh. injection Hw0 as <-. subst h.
  exists loc. split; [exact Hloc|]. intros Hbefore.
  unfold OSRMv1.hint_at.
  replace entries with (reverse F) by apply reverse_involutive.
  rewrite last_filter_reverse.
  rewrite (head_filter_first _ F i (loc, OSRMv1.hint via) HF); [reflexivity|apply same_key_refl|].
  intros j [loc' h'] Hj Hy. cbn [fst].
  destruct (Forall2_lookup_r _ _ _ _ _ Hf Hy) as ([via' ow] & HMj & w' & Hw' & Hloc' & _).
  rewrite list_lookup_imap in HMj. destruct (vias !! j) as [vj|]; [|discriminate].
  cbn in HMj. injection HMj as -> <-. cbn in Hw', Hloc'.
  exact (Hbefore j w' loc' Hj Hw' Hloc').
Qed.

Lemma requestHints_each hints : forall waypoints found,
  Forall2 (fun w v => exists loc, latLng w = Some loc /\ OSRMv1.hint_at hints loc = v)
          waypoints found ->
  OSRMv1.requestHints hints waypoints =
    Some (map (fun v => if OSRMv1.js_truthy v then v else OSRMv1.JsString "") found).
Proof.
  induction waypoints as [|w l IH]; intros found Hf.
  - apply Forall2_nil_inv_l in Hf. now subst.
  - apply Forall2_cons_inv_l in Hf. destruct Hf as (v & found' & (loc & Hloc & Hv) & Hf & ->).
    cbn [OSRMv1.requestHints]. rewrite Hloc. cbn. rewrite (IH _ Hf). cbn. now rewrite Hv.
Qed.

(** X18 (the hints of the last answer).  When [_saveHintData] returns for
    as many snapped locations as waypoints, and no two waypoints have the same
    position, the hints that [buildRouteUrl] then collects for the same
    waypoints are the hints of the snapped locations, in order, with the empty
    string for a hint that is falsy. *)
Theorem saved_hints_are_sent vias wps hints :
  OSRMv1._saveHintData vias wps = (hints, OSRMv1.Returned) ->
  length wps = length vias ->
  (forall i j w w' loc loc', (i < j)%nat ->
     wps !! i = Some w -> wps !! j = Some w' ->
     latLng w = Some loc -> latLng w' = Some loc' -> OSRMv1.same_key loc loc' = false) ->
  OSRMv1.requestHints hints wps =
    Some (map (fun via => if OSRMv1.js_truthy (OSRMv1.hint via) then OSRMv1.hint via
                          else OSRMv1.JsString "") vias).
Proof.
  intros H Hlen Hdistinct.
  rewrite (requestHints_each hints wps (map OSRMv1.hint vias)); [now rewrite map_map|].
  apply Forall2_same_length_lookup_2.
  { now rewrite length_map. }
  intros i w v Hw Hv. rewrite list_lookup_fmap in Hv.
  destruct (vias !! i) as [via|] eqn:Hvia; [|discriminate]. injection Hv as <-.
  destruct (saved_hint_is_found vias wps hints i via w H Hvia Hw) as (loc & Hloc & Hat).
  exists loc. split; [exact Hloc|]. apply Hat.
  intros j w' loc' Hj Hw' Hloc'. exact (Hdistinct j i w' w loc' loc Hj Hw' Hw Hloc' Hloc).
Qed.

Lemma saved_hints_are_sent_witness :
  let vias := [ {| OSRMv1.location := (13.39%Q, 52.52%Q); OSRMv1.hint := OSRMv1.JsString "a" |};
                {| OSRMv1.location := (11.58%Q, 48.14%Q); OSRMv1.hint := OSRMv1.JsNull |} ] in
  let wps := [ {| latLng := Some {| lat := 52.5; lng := 13.4 |}; name := None;
                  allowUTurn := false |};
               {| latLng := Some {| lat := 48.1; lng := 11.6 |}; name := None;
                  allowUTurn := false |} ] in
  OSRMv1.requestHints (fst (OSRMv1._saveHintData vias wps)) wps =
    Some [OSRMv1.JsString "a"; OSRMv1.JsString ""].
Proof.
  cbv zeta.
  apply (saved_hints_are_sent
            [ {| OSRMv1.location := (13.39%Q, 52.52%Q); OSRMv1.hint := OSRMv1.JsString "a" |};
              {| OSRMv1.location := (11.58%Q, 48.14%Q); OSRMv1.hint := OSRMv1.JsNull |} ]).
  - vm_compute. reflexivity.
  - reflexivity.
  - intros [|[|i]] [|[|j]] w w' loc loc' Hij Hw Hw' Hloc Hloc'; try lia; try discriminate.
    injection Hw as <-. injection Hw' as <-. injection Hloc as <-. injection Hloc' as <-.
    reflexivity.
Defined.

Lemma lane_config_runs_witness :
  let step := {| TextInstructions.rotary_name := None; TextInstructions.maneuver_exit := None;
                 TextInstructions.lanes := Some [false; false; true; true; false] |} in
  TextInstructions.laneConfig step = Some "xox" /\
  exists config, TextInstructions.laneConfig step = Some config /\
    alternates config = true /\
    String.length config = 3%nat /\
    forall valid rest, [false; false; true; true; false] = valid :: rest ->
      String.get 0 config = Some (if valid then "o" else "x")%char.
Proof.
  cbv zeta. split; [reflexivity|].
  exact (lane_config_runs
           {| TextInstructions.rotary_name := None; TextInstructions.maneuver_exit := None;
              TextInstructions.lanes := Some [false; false; true; true; false] |}
           [false; false; true; true; false] eq_refl).
Defined.

(** ** Choosing an alternative, the icon of a ramp *)

(** X19 (choosing an alternative).  Touching the line of the alternative at
    index [j] of the routes selects that route and leaves the other routes,
    in their order, as the alternatives: no route is lost or doubled. *)
Theorem alternative_selected {Route : Type} (routes : list Route) (j : nat) (r : Route) :
  routes !! j = Some r ->
  Control.altLineTouched routes (Z.of_nat j) = (Some r, delete j routes) /\
  Permutation (r :: delete j routes) routes.
Proof.
  intros Hj. split; [|symmetry; now apply delete_Permutation].
  pose proof (lookup_lt_Some _ _ _ Hj) as Hlt.
  unfold Control.altLineTouched, JS.spliced, JS.splice.
  replace (Z.of_nat j <? 0) with false by (symmetry; apply Z.ltb_ge; lia).
  rewrite (Z.min_l (Z.of_nat j)) by lia.
  rewrite (Z.max_l 1 0) by lia. rewrite (Z.min_l 1) by lia.
  replace (Z.to_nat (Z.of_nat j + 1)) with (S j) by lia.
  rewrite Nat2Z.id. change (Z.to_nat 1) with 1%nat.
  f_equal.
  - destruct (drop j routes) as [|x l] eqn:E.
    + apply (f_equal length) in E. rewrite length_drop in E. cbn in E. lia.
    + cbn. f_equal. rewrite <- (take_drop j routes) in Hj.
      rewrite lookup_app_r, length_take in Hj by (rewrite length_take; lia).
      replace (j - j `min` length routes)%nat with 0%nat in Hj by lia.
      rewrite E in Hj. now injection Hj.
  - cbn [app]. now rewrite delete_take_drop.
Qed.

Lemma alternative_selected_witness :
  Control.altLineTouched [10; 20; 30] 1 = (Some 20, [10; 30]) /\
  Permutation (20 :: [10; 30]) [10; 20; 30].
Proof. exact (alternative_selected [10; 20; 30] 1 20 eq_refl). Defined.

(** X20 (the icon of a ramp).  For a maneuver of type merge, fork, on ramp,
    off ramp or end of road, an instruction with the type and the modifier
    that the route client makes of it is drawn with the icon of a plain turn:
    to the left when the maneuver's modifier contains [left], to the right
    for every other modifier (also [straight]). *)
Theorem ramp_icon (m : OSRMv1.Maneuver) (lastLeg : bool) (instr : OSRMv1.Instruction)
    (i : nat) :
  OSRMv1.is_ramp_like (OSRMv1.type m) = true ->
  OSRMv1._maneuverToInstructionType m lastLeg = Some (OSRMv1.i_type instr) ->
  OSRMv1._maneuverToModifier m = Some (OSRMv1.i_modifier instr) ->
  exists d, OSRMv1.modifier m = Some d /\
    Formatter.getIconName instr i =
      Some (if OSRMv1.contains_left d then "turn-left" else "turn-right").
Proof.
  intros Hr Hty Hmod. unfold OSRMv1._maneuverToModifier in Hmod. rewrite Hr in Hmod.
  destruct (OSRMv1.modifier m) as [d|]; [|discriminate]. exists d. split; [reflexivity|].
  injection Hmod as Hmod. unfold Formatter.getIconName. rewrite <- Hmod.
  set (ty := OSRMv1.i_type instr) in *. clearbody ty.
  unfold OSRMv1.is_ramp_like in Hr. unfold OSRMv1._maneuverToInstructionType in Hty.
  unfold OSRMv1.is_ramp_like in Hty.
  repeat (apply orb_true_iff in Hr; destruct Hr as [Hr|Hr]);
    apply String.eqb_eq in Hr; rewrite Hr in Hty; vm_compute in Hty;
    injection Hty as <-; unfold OSRMv1._leftOrRight;
    destruct (OSRMv1.contains_left d); reflexivity.
Qed.

Lemma ramp_icon_witness :
  let m := {| OSRMv1.type := "fork"; OSRMv1.modifier := Some "straight";
              OSRMv1.bearing_after := None; OSRMv1.exit := None |} in
  let instr := {| OSRMv1.i_type := "Fork"; OSRMv1.i_distance := 0; OSRMv1.i_time := 0;
                  OSRMv1.i_road := None; OSRMv1.i_direction := None; OSRMv1.i_exit := None;
                  OSRMv1.i_index := 0; OSRMv1.i_mode := None;
                  OSRMv1.i_modifier := Some "Right"; OSRMv1.i_text := "" |} in
  exists d, OSRMv1.modifier m = Some d /\
    Formatter.getIconName instr 1 =
      Some (if OSRMv1.contains_left d then "turn-left" else "turn-right").
Proof.
  cbv zeta.
  exact (ramp_icon
    {| OSRMv1.type := "fork"; OSRMv1.modifier := Some "straight";
       OSRMv1.bearing_after := None; OSRMv1.exit := None |} false
    {| OSRMv1.i_type := "Fork"; OSRMv1.i_distance := 0; OSRMv1.i_time := 0;
       OSRMv1.i_road := None; OSRMv1.i_direction := None; OSRMv1.i_exit := None;
       OSRMv1.i_index := 0; OSRMv1.i_mode := None;
       OSRMv1.i_modifier := Some "Right"; OSRMv1.i_text := "" |} 1%nat
    eq_refl eq_refl eq_refl).
Defined.
